(** * svc: the pop2010 proximity query

    A shallow embedding of the population query of the [svc] package: the
    bounding-cube filter ([round], [geosearch]), the record store lookup
    ([popsearch]), the aggregation ([popsummary]) and the fixed-width binary
    scan of the older handlers, with the loading of the index
    ([loadpoplocs]) and, from the same sources, the random points of a cell
    ([randomPoints]); followed by the properties of the specification that
    concern them and by further properties of the code. *)

From Stdlib Require Import ZArith Lia Bool Ascii String.
From Stdlib.Strings Require Import Byte.
From stdpp Require Import base list gmap strings.
From Equations Require Import Equations.

Local Open Scope Z_scope.

(** ** Fixed-width signed integers

    Go's [int16], [int32], [int64] (and [int], 64 bits wide on the platforms
    the service is built for) are integers with two's-complement
    wrap-around. *)

Module Int.
Definition wrap (bits : Z) (v : Z) : Z :=
  (v + 2 ^ (bits - 1)) mod 2 ^ bits - 2 ^ (bits - 1).

Definition int16 (v : Z) : Z := wrap 16 v.
Definition int32 (v : Z) : Z := wrap 32 v.
Definition int64 (v : Z) : Z := wrap 64 v.

Definition add16 (a b : Z) : Z := int16 (a + b).
Definition add32 (a b : Z) : Z := int32 (a + b).
Definition add64 (a b : Z) : Z := int64 (a + b).

Definition min_int64 : Z := - 2 ^ 63.
Definition max_int64 : Z := 2 ^ 63 - 1.
Definition in_int64 (v : Z) : bool := (min_int64 <=? v) && (v <=? max_int64).
End Int.

(** the sum of a list of integers, without any wrap-around *)
Definition Zsum (l : list Z) : Z := foldr Z.add 0 l.

(** ** float64

    A binary64 value is a NaN, an infinity, or a finite number.  Every finite
    binary64 number is an integer multiple of 2^-1074, so [Fin n] stands for
    the number n * 2^-1074.  The sign of zero is not represented: nothing in
    the query observes it (comparisons and conversions to integers treat both
    zeros alike).  Arithmetic rounds to nearest, ties to even, to 53
    significant bits, and overflows to an infinity. *)

Module F64.
Inductive t : Type :=
| NaN
| Inf (neg : bool)
| Fin (n : Z).

(** the representation of 1.0 *)
Definition unit : Z := 2 ^ 1074.

Definition zero : t := Fin 0.

(** [m * 2^e], for literals; the caller picks a representable number *)
Definition dyadic (m e : Z) : t := Fin (m * 2 ^ (e + 1074)).

(** the number of low bits of [n] that do not fit in 53 significant bits *)
Definition shift (n : Z) : Z := Z.max (Z.log2 n + 1 - 53) 0.

(** the quotient [q] with remainder [r] out of [p], rounded to nearest,
    ties to even *)
Definition rnd (q r p : Z) : Z :=
  if 2 * r <? p then q
  else if 2 * r =? p then (if Z.even q then q else q + 1)
  else q + 1.

(** round a non-negative multiple of 2^-1074 to 53 significant bits *)
Definition rne (n : Z) : Z :=
  let p := 2 ^ shift n in
  rnd (n / p) (n mod p) p * p.

(** the binary64 number nearest to [n * 2^-1074] *)
Definition fl (n : Z) : t :=
  let m := rne (Z.abs n) in
  if 2 ^ (1024 + 1074) <=? m then Inf (n <? 0)
  else Fin (Z.sgn n * m).

Definition neg (x : t) : t :=
  match x with
  | NaN => NaN
  | Inf s => Inf (negb s)
  | Fin n => Fin (- n)
  end.

Definition add (x y : t) : t :=
  match x, y with
  | NaN, _ | _, NaN => NaN
  | Inf a, Inf b => if Bool.eqb a b then Inf a else NaN
  | Inf a, Fin _ => Inf a
  | Fin _, Inf b => Inf b
  | Fin a, Fin b => fl (a + b)
  end.

Definition sub (x y : t) : t := add x (neg y).

(** [x < y]; false as soon as one side is a NaN *)
Definition ltb (x y : t) : bool :=
  match x, y with
  | NaN, _ | _, NaN => false
  | Inf a, Inf b => a && negb b
  | Inf a, Fin _ => a
  | Fin _, Inf b => negb b
  | Fin a, Fin b => a <? b
  end.

(** [x <= y]; false as soon as one side is a NaN *)
Definition leb (x y : t) : bool :=
  match x, y with
  | NaN, _ | _, NaN => false
  | Inf a, Inf b => a || negb b
  | Inf a, Fin _ => a
  | Fin _, Inf b => negb b
  | Fin a, Fin b => a <=? b
  end.

(** [x > y] *)
Definition gtb (x y : t) : bool := ltb y x.

(** math.Abs *)
Definition abs (x : t) : t :=
  match x with
  | NaN => NaN
  | Inf _ => Inf false
  | Fin n => Fin (Z.abs n)
  end.

(** math.Ceil: the least integer not below [x]; infinities and NaN are
    returned as they are *)
Definition ceil (x : t) : t :=
  match x with
  | Fin n => Fin (- ((- n) / unit) * unit)
  | _ => x
  end.

(** float64(v) for an integer [v] *)
Definition of_int (v : Z) : t := fl (v * unit).

(** int64(x): the fraction is discarded.  Go leaves the result open when
    the value does not fit; the amd64 conversion instruction then yields
    the least int64, which is what is modelled. *)
Definition to_int64 (x : t) : Z :=
  match x with
  | Fin n =>
      let v := Z.quot n unit in
      if Int.in_int64 v then v else Int.min_int64
  | _ => Int.min_int64
  end.

(** math.Float64frombits: bit 63 is the sign, bits 52..62 the biased
    exponent, bits 0..51 the fraction *)
Definition frombits (b : Z) : t :=
  let s := Z.testbit b 63 in
  let e := Z.land (Z.shiftr b 52) 2047 in
  let f := Z.land b (2 ^ 52 - 1) in
  if e =? 2047 then (if f =? 0 then Inf s else NaN)
  else
    let m := if e =? 0 then f else f + 2 ^ 52 in
    let n := m * 2 ^ (Z.max e 1 - 1) in
    Fin (if s then - n else n).

Definition is_nan (x : t) : bool :=
  match x with NaN => true | _ => false end.

(** a finite number between the integers [lo] and [hi] *)
Definition between (lo hi : Z) (x : t) : Prop :=
  match x with
  | Fin n => lo * unit <= n <= hi * unit
  | _ => False
  end.

(** a finite number of magnitude at most [2^k] *)
Definition bounded (k : Z) (x : t) : Prop :=
  match x with
  | Fin n => Z.abs n <= 2 ^ k * unit
  | _ => False
  end.
End F64.

Abbreviation float64 := F64.t.

(** ** The geodesy primitives

    The query consumes three operations of the external geodesy library, all
    for the one fixed spheroid (WGS 1984): the point of given latitude and
    longitude in degrees ([geomys.Geo]), the geocentric Cartesian coordinates
    of a point ([Geocentric.Forward]) and the distance of two points over the
    spheroid ([geomys.Andoyer]). *)

Record xyz := XYZ { X : float64; Y : float64; Z_ : float64 }.

Class Geodesy := {
  Point : Type;
  Geo : float64 -> float64 -> Point;
  Forward : Point -> xyz;
  Andoyer : Point -> Point -> float64
}.

(** ** The bounding cube *)

(** [round]: the ceiling of the magnitude, with the sign put back. *)
Definition round (x : float64) : Z :=
  let y := F64.ceil (F64.abs x) in
  if F64.ltb x F64.zero then F64.to_int64 (F64.neg y)
  else F64.to_int64 y.

Record cube := Cube {
  xmin : Z; xmax : Z;
  ymin : Z; ymax : Z;
  zmin : Z; zmax : Z
}.

(** the six boundaries, computed as all three handlers do *)
Definition bounds (qxyz : xyz) (dist : float64) : cube :=
  {| xmin := round (F64.sub (X qxyz) dist); xmax := round (F64.add (X qxyz) dist);
     ymin := round (F64.sub (Y qxyz) dist); ymax := round (F64.add (Y qxyz) dist);
     zmin := round (F64.sub (Z_ qxyz) dist); zmax := round (F64.add (Z_ qxyz) dist) |}.

Definition in_cube (c : cube) (x y z : Z) : bool :=
  ((xmin c <=? x) && (x <=? xmax c)) &&
  ((ymin c <=? y) && (y <=? ymax c)) &&
  ((zmin c <=? z) && (z <=? zmax c)).

(** the coordinate [p] lies between [q - dist] and [q + dist], both computed
    in float64 as the handlers compute them *)
Definition axis_within (dist q p : float64) : bool :=
  F64.leb (F64.sub q dist) p && F64.leb p (F64.add q dist).

Definition within (dist : float64) (q p : xyz) : bool :=
  axis_within dist (X q) (X p) && axis_within dist (Y q) (Y p) &&
  axis_within dist (Z_ q) (Z_ p).

(** finite coordinates of magnitude at most 2^32 meters; those of a point of
    the Earth are below 2^23 *)
Definition coords_bounded (p : xyz) : Prop :=
  F64.bounded 32 (X p) /\ F64.bounded 32 (Y p) /\ F64.bounded 32 (Z_ p).

(** ** Bytes and little-endian fields *)

Definition byte_val (b : byte) : Z := Z.of_N (Byte.to_N b).

(** binary.LittleEndian.Uint16, Uint32 and Uint64 of a slice of 2, 4 and 8
    bytes: the first byte is the least significant *)
Fixpoint LittleEndian (bs : list byte) : Z :=
  match bs with
  | [] => 0
  | b :: rest => byte_val b + 256 * LittleEndian rest
  end.

(** the slice [record[lo:hi]] *)
Definition slice (record : list byte) (lo hi : nat) : list byte :=
  take (hi - lo) (drop lo record).

(** ** Strings: strings.Split and strconv.ParseInt *)

Definition comma : ascii := ","%char.

(** strings.Split(s, ","): the segments between the commas, all of them,
    the empty ones too *)
Fixpoint Split (s : string) : list string :=
  match s with
  | EmptyString => [EmptyString]
  | String c rest =>
      if Ascii.eqb c comma then EmptyString :: Split rest
      else match Split rest with
           | seg :: segs => String c seg :: segs
           | [] => [String c EmptyString]
           end
  end.

Definition digit (c : ascii) : option Z :=
  let n := Z.of_N (N_of_ascii c) in
  if (48 <=? n) && (n <=? 57) then Some (n - 48) else None.

Fixpoint digits (s : string) (acc : Z) : option Z :=
  match s with
  | EmptyString => Some acc
  | String c rest =>
      match digit c with
      | Some d => digits rest (10 * acc + d)
      | None => None
      end
  end.

(** strconv.ParseInt(s, 10, 64): an optional sign and at least one decimal
    digit; [None] stands for the error (bad syntax or out of range) *)
Definition ParseInt (s : string) : option Z :=
  match s with
  | EmptyString => None
  | String c rest =>
      let '(negative, body) :=
        if Ascii.eqb c "+"%char then (false, rest)
        else if Ascii.eqb c "-"%char then (true, rest)
        else (false, s) in
      match body with
      | EmptyString => None
      | _ =>
          match digits body 0 with
          | Some v =>
              let v := if negative then - v else v in
              if Int.in_int64 v then Some v else None
          | None => None
          end
      end
  end.

(** [musti]: the integer a string denotes; [None] stands for the panic *)
Definition musti (s : string) : option Z := ParseInt s.

(** ** Age pyramids and the response *)

Record pyramid := Pyramid {
  Age00to04 : Z; Age05to09 : Z; Age10to14 : Z; Age15to17 : Z; Age18to19 : Z;
  Age20 : Z; Age21 : Z; Age22to24 : Z; Age25to29 : Z; Age30to34 : Z;
  Age35to39 : Z; Age40to44 : Z; Age45to49 : Z; Age50to54 : Z; Age55to59 : Z;
  Age60to61 : Z; Age62to64 : Z; Age65to66 : Z; Age67to69 : Z; Age70to74 : Z;
  Age75to79 : Z; Age80to84 : Z; Age85over : Z
}.

(** [mkpyramid]: slot 0 of the 24-slot buffer is left out *)
Definition mkpyramid (buf : list Z) : pyramid :=
  {| Age00to04 := nth 1 buf 0; Age05to09 := nth 2 buf 0; Age10to14 := nth 3 buf 0;
     Age15to17 := nth 4 buf 0; Age18to19 := nth 5 buf 0; Age20 := nth 6 buf 0;
     Age21 := nth 7 buf 0; Age22to24 := nth 8 buf 0; Age25to29 := nth 9 buf 0;
     Age30to34 := nth 10 buf 0; Age35to39 := nth 11 buf 0; Age40to44 := nth 12 buf 0;
     Age45to49 := nth 13 buf 0; Age50to54 := nth 14 buf 0; Age55to59 := nth 15 buf 0;
     Age60to61 := nth 16 buf 0; Age62to64 := nth 17 buf 0; Age65to66 := nth 18 buf 0;
     Age67to69 := nth 19 buf 0; Age70to74 := nth 20 buf 0; Age75to79 := nth 21 buf 0;
     Age80to84 := nth 22 buf 0; Age85over := nth 23 buf 0 |}.

(** the 23 buckets of a pyramid, youngest first *)
Definition buckets (p : pyramid) : list Z :=
  [ Age00to04 p; Age05to09 p; Age10to14 p; Age15to17 p; Age18to19 p;
    Age20 p; Age21 p; Age22to24 p; Age25to29 p; Age30to34 p;
    Age35to39 p; Age40to44 p; Age45to49 p; Age50to54 p; Age55to59 p;
    Age60to61 p; Age62to64 p; Age65to66 p; Age67to69 p; Age70to74 p;
    Age75to79 p; Age80to84 p; Age85over p ].

(** the value the handlers encode as JSON (the elapsed time apart) *)
Record resultx := Resultx {
  Distance : Z;
  Lat : float64;
  Lon : float64;
  Blocks : Z;
  Pop2010 : Z;
  Fpop2010 : Z;
  Mpop2010 : Z;
  Fpyramid : pyramid;
  Mpyramid : pyramid
}.

(** json.Marshal refuses a float that is not finite *)
Definition Marshal (r : resultx) : option resultx :=
  match Lat r, Lon r with
  | F64.Fin _, F64.Fin _ => Some r
  | _, _ => None
  end.

(** what a handler does with the request: one of the three replies, or a
    panic of the goroutine that serves it *)
Inductive response :=
| HS400
| HS500
| HS200j (r : resultx)
| Panicked.

(** the operations on the dataset a handler has started, oldest first *)
Inductive event :=
| EvOpen
| EvScan
| EvGeosearch
| EvPopsearch
| EvPopsummary.

(** the range checks of the path variables, the same in every handler *)
Definition in_lat (lat : float64) : bool :=
  F64.leb (F64.of_int (-90)) lat && F64.leb lat (F64.of_int 90).

Definition in_lon (lon : float64) : bool :=
  F64.leb (F64.of_int (-180)) lon && F64.leb lon (F64.of_int 180).

Definition in_distance (distance : Z) : bool :=
  (1 <=? distance) && (distance <=? 1000000).

(** ** The record store *)

Module badger.
Inductive error :=
| ErrKeyNotFound
| ErrValue.

Inductive result (A : Type) :=
| Ok (a : A)
| Err (e : error).
Arguments Ok {A} a.
Arguments Err {A} e.

(** an item of the store: copying its value out may fail *)
Record Item := { ValueCopy : result string }.

(** the store, opened read-only *)
Record DB := { items : gmap string Item }.

(** [txn.Get]: an absent key is an error *)
Definition Get (db : DB) (key : string) : result Item :=
  match items db !! key with
  | Some item => Ok item
  | None => Err ErrKeyNotFound
  end.

(** a key looked up as [popsearch] does: [Get], then [ValueCopy] *)
Definition lookup (db : DB) (key : string) : result string :=
  match Get db key with
  | Err e => Err e
  | Ok item => ValueCopy item
  end.
End badger.

(** ** The index-and-store handler: [geosearch], [popsearch], [popsummary] *)

Module Store.
Import badger.

Record poploc := Poploc {
  id : string;
  pop : Z;
  lat : float64;
  lon : float64;
  x : Z;
  y : Z;
  z : Z
}.

(** the named results of [popsummary] *)
Record summary := Summary {
  s_pop : Z;
  s_mpop : Z;
  s_fpop : Z;
  s_mpyr : list Z;
  s_fpyr : list Z
}.

Definition summary0 : summary :=
  {| s_pop := 0; s_mpop := 0; s_fpop := 0;
     s_mpyr := replicate 24 0; s_fpyr := replicate 24 0 |}.

(** [popsearch]: every key is looked up in one read-only transaction; the
    first failure ends it *)
Fixpoint popsearch_loop (db : DB) (k : nat) (keys : list string)
    (vals : list string) : result (list string) :=
  match keys with
  | [] => Ok vals
  | key :: rest =>
      match Get db key with
      | Err e => Err e
      | Ok item =>
          match ValueCopy item with
          | Err e => Err e
          | Ok val => popsearch_loop db (S k) rest (<[k := val]> vals)
          end
      end
  end.

Definition popsearch (db : DB) (keys : list string) : result (list string) :=
  popsearch_loop db 0 keys (replicate (length keys) EmptyString).

(** [r[i]] followed by [musti]: both panic, on a short record and on a
    field that is not an integer *)
Definition field (r : list string) (i : nat) : option Z :=
  match r !! i with
  | Some s => musti s
  | None => None
  end.

(** one round of the inner loop of [popsummary] *)
Definition pyr_step (r : list string) (st : option (list Z * list Z)) (k : nat)
    : option (list Z * list Z) :=
  match st with
  | None => None
  | Some (mpyr, fpyr) =>
      match field r (k + 1) with
      | None => None
      | Some m =>
          let mpyr := <[k := Int.add64 (nth k mpyr 0) m]> mpyr in
          match field r (k + 25) with
          | None => None
          | Some f =>
              let fpyr := <[k := Int.add64 (nth k fpyr 0) f]> fpyr in
              Some (mpyr, fpyr)
          end
      end
  end.

(** one round of the outer loop *)
Definition rec_step (st : option summary) (rec : string) : option summary :=
  match st with
  | None => None
  | Some s =>
      let r := Split rec in
      match field r 0 with
      | None => None
      | Some v0 =>
          let pop := Int.add64 (s_pop s) v0 in
          match field r 1 with
          | None => None
          | Some v1 =>
              let mpop := Int.add64 (s_mpop s) v1 in
              match field r 25 with
              | None => None
              | Some v25 =>
                  let fpop := Int.add64 (s_fpop s) v25 in
                  match fold_left (pyr_step r) (seq 0 24)
                          (Some (s_mpyr s, s_fpyr s)) with
                  | None => None
                  | Some (mpyr, fpyr) =>
                      Some {| s_pop := pop; s_mpop := mpop; s_fpop := fpop;
                              s_mpyr := mpyr; s_fpyr := fpyr |}
                  end
              end
          end
      end
  end.

(** [popsummary]; [None] stands for a panic *)
Definition popsummary (recs : list string) : option summary :=
  fold_left rec_step recs (Some summary0).

(** the 49 integers [popsummary] reads from a record, in the order of the
    fields; [None] when one of them is missing or is not an integer *)
Definition decode (rec : string) : option (list Z) :=
  mapM (field (Split rec)) (seq 0 49).

(** the exact totals of decoded records, reduced to the 64 bits of [int] *)
Definition col_total (vss : list (list Z)) (i : nat) : Z :=
  Zsum (map (fun vs => nth i vs 0) vss).

Definition totals (vss : list (list Z)) : summary :=
  {| s_pop := Int.int64 (col_total vss 0);
     s_mpop := Int.int64 (col_total vss 1);
     s_fpop := Int.int64 (col_total vss 25);
     s_mpyr := map (fun k => Int.int64 (col_total vss (k + 1))) (seq 0 24);
     s_fpyr := map (fun k => Int.int64 (col_total vss (k + 25))) (seq 0 24) |}.

Section WithGeodesy.
Context `{G : Geodesy}.
Variable ParseFloat : string -> option float64.

(** the test one location undergoes in the loop of [geosearch] *)
Definition keep (c : cube) (query : Point) (dist : float64) (loc : poploc) : bool :=
  if negb ((xmin c <=? x loc) && (x loc <=? xmax c)) then false
  else if negb ((ymin c <=? y loc) && (y loc <=? ymax c)) then false
  else if negb ((zmin c <=? z loc) && (z loc <=? zmax c)) then false
  else F64.leb (Andoyer query (Geo (lat loc) (lon loc))) dist.

(** the distance test alone *)
Definition near (query : Point) (dist : float64) (loc : poploc) : bool :=
  F64.leb (Andoyer query (Geo (lat loc) (lon loc))) dist.

(** the stored integers of a location are those [round] gives for the
    coordinates of its latitude and longitude *)
Definition consistent (loc : poploc) : Prop :=
  let p := Forward (Geo (lat loc) (lon loc)) in
  coords_bounded p /\
  x loc = round (X p) /\ y loc = round (Y p) /\ z loc = round (Z_ p).

Definition geosearch (locs : list poploc) (query : Point) (dist : float64)
    : list string :=
  let c := bounds (Forward query) dist in
  fold_left
    (fun ids loc => if keep c query dist loc then ids ++ [id loc] else ids)
    locs [].

Definition pop2010 (poplocs : list poploc) (popbddb : DB)
    (vars : gmap string string) : list event * response :=
  match ParseInt (vars !!! "distance"%string) with
  | None => ([], HS400)
  | Some distance =>
  if negb (in_distance distance) then ([], HS400) else
  match ParseFloat (vars !!! "lat"%string) with
  | None => ([], HS400)
  | Some lat =>
  if negb (in_lat lat) then ([], HS400) else
  match ParseFloat (vars !!! "lon"%string) with
  | None => ([], HS400)
  | Some lon =>
  if negb (in_lon lon) then ([], HS400) else
  let keys := geosearch poplocs (Geo lat lon) (F64.of_int distance) in
  match popsearch popbddb keys with
  | Err _ => ([EvGeosearch; EvPopsearch], HS500)
  | Ok recs =>
  match popsummary recs with
  | None => ([EvGeosearch; EvPopsearch; EvPopsummary], Panicked)
  | Some s =>
  let resultx :=
    {| Distance := distance; Lat := lat; Lon := lon;
       Blocks := Z.of_nat (length recs);
       Pop2010 := s_pop s; Fpop2010 := s_fpop s; Mpop2010 := s_mpop s;
       Fpyramid := mkpyramid (s_fpyr s); Mpyramid := mkpyramid (s_mpyr s) |} in
  match Marshal resultx with
  | None => ([EvGeosearch; EvPopsearch; EvPopsummary], HS500)
  | Some jresult => ([EvGeosearch; EvPopsearch; EvPopsummary], HS200j jresult)
  end end end end end end.
End WithGeodesy.
End Store.

(** ** The binary-scan handler: 151-byte records read one after the other *)

Module Bin.
(** the columns of a record *)
Definition colid : nat := 0.
Definition colpop : nat := colid + 9.
Definition collat : nat := colpop + 4.
Definition collon : nat := collat + 8.
Definition colx : nat := collon + 8.
Definition coly : nat := colx + 8.
Definition colz : nat := coly + 8.
Definition colmpop : nat := colz + 8 + 2.
Definition colfpop : nat := colz + 8 + 2 + 2 * 24.

Definition reclen : nat := 151.

(** the outcome of [io.ReadFull] on what is left of the file *)
Inductive read :=
| ReadOk (record rest : list byte)
| ReadEOF
| ReadErr.

Definition ReadFull (rdr : list byte) : read :=
  match rdr with
  | [] => ReadEOF
  | _ => if decide (reclen <= length rdr)%nat
         then ReadOk (take reclen rdr) (drop reclen rdr)
         else ReadErr
  end.

(** the variables the loop updates *)
Record accum := Accum {
  filter2 : Z;
  population : Z;
  mpopulation : Z;
  fpopulation : Z;
  mpyr : list Z;
  fpyr : list Z
}.

Definition accum0 : accum :=
  {| filter2 := 0; population := 0; mpopulation := 0; fpopulation := 0;
     mpyr := replicate 24 0; fpyr := replicate 24 0 |}.

(** the fields a record is read through *)
Definition xs (record : list byte) := slice record colx (colx + 8).
Definition ys (record : list byte) := slice record coly (coly + 8).
Definition zs (record : list byte) := slice record colz (colz + 8).
Definition lats (record : list byte) := slice record collat (collat + 8).
Definition lons (record : list byte) := slice record collon (collon + 8).
Definition pops (record : list byte) := slice record colpop (colpop + 4).
Definition mpops (record : list byte) := slice record colmpop (colmpop + 2).
Definition fpops (record : list byte) := slice record colfpop (colfpop + 2).

(** slot [ix] of the pyramid that starts at column [col] *)
Definition slot (record : list byte) (col ix : nat) : Z :=
  Int.int16 (LittleEndian (slice record (col + 2 * ix) (col + 2 * (ix + 1)))).

(** [for ix := range pyr { pyr[ix] += ... }] *)
Definition add_slots (record : list byte) (col : nat) (pyr : list Z) : list Z :=
  fold_left
    (fun pyr ix => <[ix := Int.add16 (nth ix pyr 0) (slot record col ix)]> pyr)
    (seq 0 24) pyr.

(** the statements after the two filters *)
Definition accumulate (st : accum) (record : list byte) : accum :=
  let pop := Int.int32 (LittleEndian (pops record)) in
  let mpop := Int.int16 (LittleEndian (mpops record)) in
  let fpop := Int.int16 (LittleEndian (fpops record)) in
  {| filter2 := filter2 st + 1;
     population := Int.add32 (population st) pop;
     mpopulation := Int.add32 (mpopulation st) (Int.int32 mpop);
     fpopulation := Int.add32 (fpopulation st) (Int.int32 fpop);
     mpyr := add_slots record colmpop (mpyr st);
     fpyr := add_slots record colfpop (fpyr st) |}.

(** the exact totals of a list of records, each reduced to the width of
    the variable that holds it: 32 bits for the three populations, 16 bits
    for every slot *)
Definition pop32 (record : list byte) : Z := Int.int32 (LittleEndian (pops record)).

Definition slot_total (records : list (list byte)) (col ix : nat) : Z :=
  Zsum (map (fun record => slot record col ix) records).

Definition totals (records : list (list byte)) : accum :=
  {| filter2 := Z.of_nat (length records);
     population := Int.int32 (Zsum (map pop32 records));
     mpopulation := Int.int32 (slot_total records colmpop 0);
     fpopulation := Int.int32 (slot_total records colfpop 0);
     mpyr := map (fun ix => Int.int16 (slot_total records colmpop ix)) (seq 0 24);
     fpyr := map (fun ix => Int.int16 (slot_total records colfpop ix)) (seq 0 24) |}.

(** the statements after the two filters, record after record: the loop
    seen on the records it counts *)
Definition reduce (records : list (list byte)) : accum :=
  fold_left accumulate records accum0.

Definition inspect {A} (a : A) : {b : A | a = b} := exist _ a eq_refl.

Section WithGeodesy.
Context `{G : Geodesy}.
Variable ParseFloat : string -> option float64.

(** the two filters: the cube, then the distance *)
Definition keep (c : cube) (query : Point) (dist : float64)
    (record : list byte) : bool :=
  let x := Int.int64 (LittleEndian (xs record)) in
  if negb ((xmin c <=? x) && (x <=? xmax c)) then false else
  let y := Int.int64 (LittleEndian (ys record)) in
  if negb ((ymin c <=? y) && (y <=? ymax c)) then false else
  let z := Int.int64 (LittleEndian (zs record)) in
  if negb ((zmin c <=? z) && (z <=? zmax c)) then false else
  let lat := F64.frombits (LittleEndian (lats record)) in
  let lon := F64.frombits (LittleEndian (lons record)) in
  let point := Geo lat lon in
  if F64.gtb (Andoyer query point) dist then false else true.

(** the point of a record, and the distance test alone *)
Definition point (record : list byte) : Point :=
  Geo (F64.frombits (LittleEndian (lats record)))
      (F64.frombits (LittleEndian (lons record))).

Definition near (query : Point) (dist : float64) (record : list byte) : bool :=
  F64.leb (Andoyer query (point record)) dist.

(** one round of the loop on a record that was read in full *)
Definition body (c : cube) (query : Point) (dist : float64)
    (st : accum) (record : list byte) : accum :=
  if keep c query dist record then accumulate st record else st.

(** the loop: [None] when a read fails, the totals at the end of the
    file otherwise *)
Equations? scan (c : cube) (query : Point) (dist : float64)
    (rdr : list byte) (st : accum) : option accum by wf (length rdr) lt :=
  scan c query dist rdr st with inspect (ReadFull rdr) := {
    | exist _ ReadEOF _ => Some st
    | exist _ ReadErr _ => None
    | exist _ (ReadOk record rest) _ => scan c query dist rest (body c query dist st record)
  }.
Proof.
  unfold ReadFull in *. destruct rdr; [discriminate|].
  destruct (decide _); [|discriminate].
  match goal with H : ReadOk _ _ = ReadOk _ _ |- _ => inversion H; subst end.
  rewrite length_drop. cbn [length]. lia.
Qed.

(** [infile] is the content of the file, [None] when it cannot be
    opened *)
Definition pop2010 (infile : option (list byte))
    (vars : gmap string string) : list event * response :=
  match ParseInt (vars !!! "distance"%string) with
  | None => ([], HS400)
  | Some distance =>
  if negb (in_distance distance) then ([], HS400) else
  match ParseFloat (vars !!! "lat"%string) with
  | None => ([], HS400)
  | Some lat =>
  if negb (in_lat lat) then ([], HS400) else
  match ParseFloat (vars !!! "lon"%string) with
  | None => ([], HS400)
  | Some lon =>
  if negb (in_lon lon) then ([], HS400) else
  match infile with
  | None => ([EvOpen], HS500)
  | Some rdr =>
  let query := Geo lat lon in
  let dist := F64.of_int distance in
  let c := bounds (Forward query) dist in
  match scan c query dist rdr accum0 with
  | None => ([EvOpen; EvScan], HS500)
  | Some st =>
  let resultx :=
    {| Distance := distance; Lat := lat; Lon := lon;
       Blocks := filter2 st;
       Pop2010 := population st; Fpop2010 := fpopulation st;
       Mpop2010 := mpopulation st;
       Fpyramid := mkpyramid (fpyr st); Mpyramid := mkpyramid (mpyr st) |} in
  match Marshal resultx with
  | None => ([EvOpen; EvScan], HS500)
  | Some jresult => ([EvOpen; EvScan], HS200j jresult)
  end end end end end end.
End WithGeodesy.
End Bin.

(** ** One dataset in its two forms

    A block as the binary file holds it, and as the index and the store hold
    it: the location of the index, the payload of the store, and the 49
    integers both forms stand for. *)

Record block := Block {
  blk_record : list byte;
  blk_loc : Store.poploc;
  blk_payload : string;
  blk_fields : list Z
}.

Definition same_block (db : badger.DB) (b : block) : Prop :=
  length (blk_record b) = Bin.reclen /\
  Int.int64 (LittleEndian (Bin.xs (blk_record b))) = Store.x (blk_loc b) /\
  Int.int64 (LittleEndian (Bin.ys (blk_record b))) = Store.y (blk_loc b) /\
  Int.int64 (LittleEndian (Bin.zs (blk_record b))) = Store.z (blk_loc b) /\
  F64.frombits (LittleEndian (Bin.lats (blk_record b))) = Store.lat (blk_loc b) /\
  F64.frombits (LittleEndian (Bin.lons (blk_record b))) = Store.lon (blk_loc b) /\
  badger.lookup db (Store.id (blk_loc b)) = badger.Ok (blk_payload b) /\
  Store.decode (blk_payload b) = Some (blk_fields b) /\
  Bin.pop32 (blk_record b) = nth 0 (blk_fields b) 0 /\
  (forall k, (k < 24)%nat ->
     Bin.slot (blk_record b) Bin.colmpop k = nth (k + 1) (blk_fields b) 0 /\
     Bin.slot (blk_record b) Bin.colfpop k = nth (k + 25) (blk_fields b) 0).

(** the part of [same_block] that concerns the index and the store *)
Definition in_store (db : badger.DB) (b : block) : Prop :=
  badger.lookup db (Store.id (blk_loc b)) = badger.Ok (blk_payload b) /\
  Store.decode (blk_payload b) = Some (blk_fields b).

(** no field of the block is negative *)
Definition nonneg_block (b : block) : Prop :=
  forall i, 0 <= nth i (blk_fields b) 0.

(** the sum of field [i] over blocks *)
Definition field_total (bs : list block) (i : nat) : Z :=
  Zsum (map (fun b => nth i (blk_fields b) 0) bs).

(** the totals of the blocks fit the variables of the binary scan: 32 bits
    for the three populations, 16 bits for the 23 reported slots of either
    pyramid *)
Definition fits_scan (bs : list block) : Prop :=
  (forall i, i = 0%nat \/ i = 1%nat \/ i = 25%nat ->
     - 2 ^ 31 <= field_total bs i < 2 ^ 31) /\
  (forall i, (2 <= i <= 24)%nat \/ (26 <= i <= 48)%nat ->
     - 2 ^ 15 <= field_total bs i < 2 ^ 15).

(** the blocks a query matches, by the test of [geosearch] *)
Definition matched `{G : Geodesy} (blocks : list block) (lat lon : float64)
    (d : Z) : list block :=
  List.filter
    (fun b => Store.keep (bounds (Forward (Geo lat lon)) (F64.of_int d))
                (Geo lat lon) (F64.of_int d) (blk_loc b)) blocks.

(** the distance from the query point to every block is a number *)
Definition numbers `{G : Geodesy} (blocks : list block) (lat lon : float64) : Prop :=
  Forall (fun b => F64.is_nan
            (Andoyer (Geo lat lon)
               (Geo (Store.lat (blk_loc b)) (Store.lon (blk_loc b)))) = false)
    blocks.

(** ** A small world to run the handlers in

    A flat stand-in for the geodesy library (a point is its latitude and
    longitude, read as meters on the first two axes, and the distance is the
    sum of the two differences), a float parser that knows integer literals
    only, and a dataset of two blocks in both of its forms: the binary file
    and the index with its store. *)

Definition flat : Geodesy :=
  {| Point := float64 * float64;
     Geo lat lon := (lat, lon);
     Forward p := XYZ (fst p) (snd p) F64.zero;
     Andoyer p q :=
       F64.add (F64.abs (F64.sub (fst p) (fst q)))
               (F64.abs (F64.sub (snd p) (snd q))) |}.

Definition ParseFloat_int (s : string) : option float64 :=
  match ParseInt s with
  | Some v => Some (F64.of_int v)
  | None => None
  end.

Definition byte_of (v : Z) : byte :=
  match Byte.of_N (Z.to_N (v mod 256)) with
  | Some b => b
  | None => x00
  end.

(** the [n] low bytes of [v], least significant first *)
Fixpoint le_bytes (n : nat) (v : Z) : list byte :=
  match n with
  | O => []
  | S n => byte_of v :: le_bytes n (v / 256)
  end.

(** a 151-byte record: the 53 bytes of the compact layout, two bytes the
    scan never reads, then 24 + 24 16-bit slots *)
Definition encode (ident : list byte) (pop latbits lonbits x y z skipped : Z)
    (male female : list Z) : list byte :=
  ident ++ le_bytes 4 pop ++ le_bytes 8 latbits ++ le_bytes 8 lonbits ++
  le_bytes 8 x ++ le_bytes 8 y ++ le_bytes 8 z ++ le_bytes 2 skipped ++
  flat_map (le_bytes 2) male ++ flat_map (le_bytes 2) female.

(** two blocks of 20000 inhabitants each, all of them boys under five; the
    first at latitude 0, longitude 0, the second at longitude 2 *)
Definition boys : list Z := 20000 :: 20000 :: replicate 22 0.
Definition nobody : list Z := replicate 24 0.

Definition block1 : list byte :=
  encode (replicate 9 x30) 20000 0 0 0 0 0 20000 boys nobody.
Definition block2 : list byte :=
  encode (replicate 9 x31) 20000 0 0x4000000000000000 0 2 0 20000 boys nobody.

Definition two_blocks : list byte := block1 ++ block2.

(** [n] more fields, all zero *)
Fixpoint zero_fields (n : nat) : string :=
  match n with
  | O => EmptyString
  | S n => String.append ",0" (zero_fields n)
  end.

(** the 49 fields of such a block in the store: the population, the 24
    slots of the males, the 24 slots of the females *)
Definition payload : string :=
  String.append "20000,20000,20000" (zero_fields 46).

Definition loc1 : Store.poploc :=
  {| Store.id := "000000000"; Store.pop := 20000;
     Store.lat := F64.zero; Store.lon := F64.zero;
     Store.x := 0; Store.y := 0; Store.z := 0 |}.

Definition loc2 : Store.poploc :=
  {| Store.id := "111111111"; Store.pop := 20000;
     Store.lat := F64.zero; Store.lon := F64.of_int 2;
     Store.x := 0; Store.y := 2; Store.z := 0 |}.

Definition two_locs : list Store.poploc := [loc1; loc2].

Definition two_store : badger.DB :=
  {| badger.items :=
       <[ "000000000"%string := {| badger.ValueCopy := badger.Ok payload |} ]>
       (<[ "111111111"%string := {| badger.ValueCopy := badger.Ok payload |} ]> ∅) |}.

(** the 49 integers of either block, and the two blocks in both forms *)
Definition fields_boys : list Z := 20000 :: boys ++ nobody.

Definition first_block : block :=
  {| blk_record := block1; blk_loc := loc1;
     blk_payload := payload; blk_fields := fields_boys |}.

Definition second_block : block :=
  {| blk_record := block2; blk_loc := loc2;
     blk_payload := payload; blk_fields := fields_boys |}.

Definition two_dataset : list block := [first_block; second_block].

(** the path variables of [/api/pop2010/{distance}/lat/{lat}/lon/{lon}] *)
Definition path_vars (distance lat lon : string) : gmap string string :=
  <[ "distance"%string := distance ]>
  (<[ "lat"%string := lat ]> (<[ "lon"%string := lon ]> ∅)).

(** the store without the second block *)
Definition one_store : badger.DB :=
  {| badger.items :=
       <[ "000000000"%string := {| badger.ValueCopy := badger.Ok payload |} ]> ∅ |}.

(** a record that tells its fields apart: 30 inhabitants, 7 in the two
    bytes after the compact fields, 12 and then 1s in the slots of the males,
    18 and then 2s in those of the females *)
Definition marked : list byte :=
  encode (replicate 9 x30) 30 0 0 0 0 0 7 (12 :: replicate 23 1) (18 :: replicate 23 2).

(** ** The extended layout in the words of the specification

    The compact fields, then a 16-bit male population, 24 male slots, a
    16-bit female population and 24 female slots. *)

Module SpecLayout.
Definition compact : nat := 9 + 4 + 8 + 8 + 8 + 8 + 8.
Definition colmpop : nat := compact.
Definition colmpyr : nat := colmpop + 2.
Definition colfpop : nat := colmpyr + 2 * 24.
Definition colfpyr : nat := colfpop + 2.
Definition reclen : nat := colfpyr + 2 * 24.
End SpecLayout.

(** ** The compact binary-scan handler: 53-byte records, the population only *)

Module Compact.
(** the columns of a record *)
Definition colid : nat := 0.
Definition colpop : nat := colid + 9.
Definition collat : nat := colpop + 4.
Definition collon : nat := collat + 8.
Definition colx : nat := collon + 8.
Definition coly : nat := colx + 8.
Definition colz : nat := coly + 8.

Definition reclen : nat := 53.

Inductive read :=
| ReadOk (record rest : list byte)
| ReadEOF
| ReadErr.

Definition ReadFull (rdr : list byte) : read :=
  match rdr with
  | [] => ReadEOF
  | _ => if decide (reclen <= length rdr)%nat
         then ReadOk (take reclen rdr) (drop reclen rdr)
         else ReadErr
  end.

(** the variables the loop updates *)
Record accum := Accum {
  filter2 : Z;
  population : Z
}.

Definition accum0 : accum := {| filter2 := 0; population := 0 |}.

Definition xs (record : list byte) := slice record colx (colx + 8).
Definition ys (record : list byte) := slice record coly (coly + 8).
Definition zs (record : list byte) := slice record colz (colz + 8).
Definition lats (record : list byte) := slice record collat (collat + 8).
Definition lons (record : list byte) := slice record collon (collon + 8).
Definition pops (record : list byte) := slice record colpop (colpop + 4).

(** the statements after the two filters *)
Definition accumulate (st : accum) (record : list byte) : accum :=
  let pop := Int.int32 (LittleEndian (pops record)) in
  {| filter2 := filter2 st + 1;
     population := Int.add32 (population st) pop |}.

(** the value the handler encodes as JSON *)
Record resultx := Resultx {
  Distance : Z;
  Lat : float64;
  Lon : float64;
  Blocks : Z;
  Pop2010 : Z
}.

Definition Marshal (r : resultx) : option resultx :=
  match Lat r, Lon r with
  | F64.Fin _, F64.Fin _ => Some r
  | _, _ => None
  end.

Inductive response :=
| HS400
| HS500
| HS200j (r : resultx).

Section WithGeodesy.
Context `{G : Geodesy}.
Variable ParseFloat : string -> option float64.

(** the two filters: the cube, then the distance *)
Definition keep (c : cube) (query : Point) (dist : float64)
    (record : list byte) : bool :=
  let x := Int.int64 (LittleEndian (xs record)) in
  if negb ((xmin c <=? x) && (x <=? xmax c)) then false else
  let y := Int.int64 (LittleEndian (ys record)) in
  if negb ((ymin c <=? y) && (y <=? ymax c)) then false else
  let z := Int.int64 (LittleEndian (zs record)) in
  if negb ((zmin c <=? z) && (z <=? zmax c)) then false else
  let lat := F64.frombits (LittleEndian (lats record)) in
  let lon := F64.frombits (LittleEndian (lons record)) in
  let point := Geo lat lon in
  if F64.gtb (Andoyer query point) dist then false else true.

Definition body (c : cube) (query : Point) (dist : float64)
    (st : accum) (record : list byte) : accum :=
  if keep c query dist record then accumulate st record else st.

Equations? scan (c : cube) (query : Point) (dist : float64)
    (rdr : list byte) (st : accum) : option accum by wf (length rdr) lt :=
  scan c query dist rdr st with Bin.inspect (ReadFull rdr) := {
    | exist _ ReadEOF _ => Some st
    | exist _ ReadErr _ => None
    | exist _ (ReadOk record rest) _ => scan c query dist rest (body c query dist st record)
  }.
Proof.
  unfold ReadFull in *. destruct rdr; [discriminate|].
  destruct (decide _); [|discriminate].
  match goal with H : ReadOk _ _ = ReadOk _ _ |- _ => inversion H; subst end.
  rewrite length_drop. cbn [length]. lia.
Qed.

Definition pop2010 (infile : option (list byte))
    (vars : gmap string string) : list event * response :=
  match ParseInt (vars !!! "distance"%string) with
  | None => ([], HS400)
  | Some distance =>
  if negb (in_distance distance) then ([], HS400) else
  match ParseFloat (vars !!! "lat"%string) with
  | None => ([], HS400)
  | Some lat =>
  if negb (in_lat lat) then ([], HS400) else
  match ParseFloat (vars !!! "lon"%string) with
  | None => ([], HS400)
  | Some lon =>
  if negb (in_lon lon) then ([], HS400) else
  match infile with
  | None => ([EvOpen], HS500)
  | Some rdr =>
  let query := Geo lat lon in
  let dist := F64.of_int distance in
  let c := bounds (Forward query) dist in
  match scan c query dist rdr accum0 with
  | None => ([EvOpen; EvScan], HS500)
  | Some st =>
  let resultx :=
    {| Distance := distance; Lat := lat; Lon := lon;
       Blocks := filter2 st; Pop2010 := population st |} in
  match Marshal resultx with
  | None => ([EvOpen; EvScan], HS500)
  | Some jresult => ([EvOpen; EvScan], HS200j jresult)
  end end end end end end.
End WithGeodesy.
End Compact.

(** the fields of the extended reply that the compact reply has too *)
Definition narrow (r : resultx) : Compact.resultx :=
  {| Compact.Distance := Distance r; Compact.Lat := Lat r; Compact.Lon := Lon r;
     Compact.Blocks := Blocks r; Compact.Pop2010 := Pop2010 r |}.

Definition narrow_response (r : response) : option Compact.response :=
  match r with
  | HS400 => Some Compact.HS400
  | HS500 => Some Compact.HS500
  | HS200j r => Some (Compact.HS200j (narrow r))
  | Panicked => None
  end.

(** ** The index file: [loadpoplocs], [mustf], [init] *)

Module Index.
(** what [csv.Reader.Read] returns before the end of the file: a record,
    or an error *)
Inductive read :=
| Rec (rec : list string)
| ReadErr.

Section WithParseFloat.
Variable ParseFloat : string -> option float64.

(** [mustf]: the number a string denotes; [None] stands for the panic *)
Definition mustf (s : string) : option float64 := ParseFloat s.

(** [poploc{rec[0], musti(rec[1]), mustf(rec[2]), mustf(rec[3]),
    musti(rec[4]), musti(rec[5]), musti(rec[6])}]; an index out of range
    panics as a failed conversion does *)
Definition mkloc (rec : list string) : option Store.poploc :=
  match rec !! 0%nat, rec !! 1%nat ≫= musti, rec !! 2%nat ≫= mustf,
        rec !! 3%nat ≫= mustf, rec !! 4%nat ≫= musti, rec !! 5%nat ≫= musti,
        rec !! 6%nat ≫= musti with
  | Some id, Some pop, Some lat, Some lon, Some x, Some y, Some z =>
      Some {| Store.id := id; Store.pop := pop; Store.lat := lat; Store.lon := lon;
              Store.x := x; Store.y := y; Store.z := z |}
  | _, _, _, _, _, _, _ => None
  end.

(** the loop of [loadpoplocs] over the reads that precede the end of the
    file *)
Fixpoint loadpoplocs_loop (reads : list read) (locs : list Store.poploc)
    : option (list Store.poploc) :=
  match reads with
  | [] => Some locs
  | ReadErr :: _ => None
  | Rec rec :: rest =>
      match mkloc rec with
      | None => None
      | Some loc => loadpoplocs_loop rest (locs ++ [loc])
      end
  end.

(** [loadpoplocs]; [file] is [None] when the file cannot be opened, and
    [None] as a result stands for the panic *)
Definition loadpoplocs (file : option (list read)) : option (list Store.poploc) :=
  match file with
  | None => None
  | Some reads => loadpoplocs_loop reads []
  end.

(** [init]: the index is loaded, then the store is opened; either may
    panic *)
Definition init (geofile : option (list read)) (opened : option badger.DB)
    : option (list Store.poploc * badger.DB) :=
  match loadpoplocs geofile with
  | None => None
  | Some poplocs =>
      match opened with
      | None => None
      | Some popbddb => Some (poplocs, popbddb)
      end
  end.
End WithParseFloat.
End Index.

(** ** Queries in range *)

(** the path variables denote the distance [d] and the point of latitude
    [lat] and longitude [lon], all three in range *)
Definition valid_query (ParseFloat : string -> option float64)
    (vars : gmap string string) (d : Z) (lat lon : float64) : Prop :=
  ParseInt (vars !!! "distance"%string) = Some d /\ in_distance d = true /\
  ParseFloat (vars !!! "lat"%string) = Some lat /\ in_lat lat = true /\
  ParseFloat (vars !!! "lon"%string) = Some lon /\ in_lon lon = true.

(** a store whose only payload stops after two fields *)
Definition short_store : badger.DB :=
  {| badger.items :=
       <[ "000000000"%string := {| badger.ValueCopy := badger.Ok "20000,20000"%string |} ]> ∅ |}.

(** ** The bytes the scan reads *)

(** two records that agree on every byte the scan reads: the columns of
    the population, the position and the coordinates (bytes 9 to 52) and the
    two pyramids (bytes 55 to 150) *)
Definition read_alike (r1 r2 : list byte) : Prop :=
  forall i : nat, (9 <= i < 53)%nat \/ (55 <= i < 151)%nat -> r1 !! i = r2 !! i.

(** the same, as a test *)
Definition same_byte (r1 r2 : list byte) (i : nat) : bool :=
  match r1 !! i, r2 !! i with
  | Some a, Some b => Byte.eqb a b
  | None, None => true
  | _, _ => false
  end.

Definition read_alikeb (r1 r2 : list byte) : bool :=
  forallb (same_byte r1 r2) (seq 9 44 ++ seq 55 96).

(** the first block under another identifier and with other bytes after
    the compact fields *)
Definition block1_renamed : list byte :=
  encode (replicate 9 x41) 20000 0 0 0 0 0 513 boys nobody.

(** the index file of the two blocks, as the reader returns it, and the
    same with a row that stops after the population *)
Definition two_rows : list Index.read :=
  [ Index.Rec ["000000000"; "20000"; "0"; "0"; "0"; "0"; "0"]%string;
    Index.Rec ["111111111"; "20000"; "0"; "2"; "0"; "2"; "0"]%string ].

Definition cut_rows : list Index.read :=
  [ Index.Rec ["000000000"; "20000"; "0"; "0"; "0"; "0"; "0"]%string;
    Index.Rec ["111111111"; "20000"]%string ].

(** the first block with a latitude that is not a number, in both forms *)
Definition block_nan : list byte :=
  encode (replicate 9 x30) 20000 0x7FF8000000000000 0 0 0 0 20000 boys nobody.

Definition loc_nan : Store.poploc :=
  {| Store.id := "000000000"; Store.pop := 20000;
     Store.lat := F64.NaN; Store.lon := F64.zero;
     Store.x := 0; Store.y := 0; Store.z := 0 |}.

Definition nan_block : block :=
  {| blk_record := block_nan; blk_loc := loc_nan;
     blk_payload := payload; blk_fields := fields_boys |}.

(** ** float64: products and quotients

    The product and the quotient of two finite numbers are ratios of
    integers; [flq num den] is the binary64 number nearest to [num / den]
    times 2^-1074, for a positive [den], rounded as [F64.fl] rounds.  The
    sign of zero is not represented, so a zero divisor counts as +0; the
    handlers divide by a constant only. *)

Module F64q.
Definition flq (num den : Z) : float64 :=
  let a := Z.abs num in
  let p := 2 ^ F64.shift (a / den) in
  let m := F64.rnd (a / (den * p)) (a mod (den * p)) (den * p) * p in
  if 2 ^ (1024 + 1074) <=? m then F64.Inf (num <? 0)
  else F64.Fin (Z.sgn num * m).

Definition mul (x y : float64) : float64 :=
  match x, y with
  | F64.NaN, _ | _, F64.NaN => F64.NaN
  | F64.Inf a, F64.Inf b => F64.Inf (xorb a b)
  | F64.Inf a, F64.Fin n => if n =? 0 then F64.NaN else F64.Inf (xorb a (n <? 0))
  | F64.Fin n, F64.Inf b => if n =? 0 then F64.NaN else F64.Inf (xorb (n <? 0) b)
  | F64.Fin a, F64.Fin b => flq (a * b) F64.unit
  end.

Definition div (x y : float64) : float64 :=
  match x, y with
  | F64.NaN, _ | _, F64.NaN => F64.NaN
  | F64.Inf _, F64.Inf _ => F64.NaN
  | F64.Inf a, F64.Fin n => F64.Inf (xorb a (n <? 0))
  | F64.Fin _, F64.Inf _ => F64.zero
  | F64.Fin a, F64.Fin b =>
      if b =? 0 then (if a =? 0 then F64.NaN else F64.Inf (a <? 0))
      else flq (Z.sgn b * a * F64.unit) (Z.abs b)
  end.

(** the constant 0.5 *)
Definition half : float64 := F64.dyadic 1 (-1).

Definition finite (x : float64) : bool :=
  match x with
  | F64.Fin _ => true
  | _ => false
  end.
End F64q.

(** ** The random points of a cell: [randomPoints]

    [ons2.CellRnd1x1] is external and draws its points at random; what one
    call returns, each point as the latitude and the longitude its [Geo]
    method gives, is a parameter.  The floating-point operations are those
    of the amd64 build, each rounded on its own. *)

Module Random.
Record latlon := LatLon {
  Lat : float64;
  Lon : float64
}.

(** the value the handler encodes as JSON (the elapsed time apart) *)
Record resultx := Resultx {
  Min : latlon;
  Max : latlon;
  Count : Z;
  Points : list latlon
}.

Definition finite_latlon (p : latlon) : bool :=
  F64q.finite (Lat p) && F64q.finite (Lon p).

(** json.Marshal refuses a float that is not finite *)
Definition Marshal (r : resultx) : option resultx :=
  if finite_latlon (Min r) && finite_latlon (Max r) && forallb finite_latlon (Points r)
  then Some r else None.

Inductive response :=
| HS400
| HS500
| HS200j (r : resultx)
| Panicked.

(** [round9]: nine decimals, the half rounded away from zero *)
Definition round9 (x : float64) : float64 :=
  let y := F64.to_int64
             (F64.add (F64q.mul (F64.abs x) (F64.of_int 1000000000)) F64q.half) in
  let y := if F64.ltb x F64.zero then Int.int64 (- y) else y in
  F64q.div (F64.of_int y) (F64.of_int 1000000000).

(** [for k, p := range result { resultx.Points[k] = ... }]; an index past
    the end of [Points] panics *)
Fixpoint fill (k : nat) (result : list (float64 * float64)) (points : list latlon)
    : option (list latlon) :=
  match result with
  | [] => Some points
  | (lat, lon) :: rest =>
      if decide (k < length points)%nat
      then fill (S k) rest (<[k := LatLon (round9 lat) (round9 lon)]> points)
      else None
  end.

Definition in_count (count : Z) : bool := (1 <=? count) && (count <=? 1000).
Definition in_lat (lat : Z) : bool := (-90 <=? lat) && (lat <? 90).
Definition in_lon (lon : Z) : bool := (-180 <=? lon) && (lon <? 180).

Section WithGenerator.
Variable CellRnd1x1 : Z -> Z -> Z -> list (float64 * float64).

Definition randomPoints (vars : gmap string string) : response :=
  match ParseInt (vars !!! "count"%string) with
  | None => HS400
  | Some count =>
  if negb (in_count count) then HS400 else
  match ParseInt (vars !!! "lat"%string) with
  | None => HS400
  | Some lat =>
  if negb (in_lat lat) then HS400 else
  match ParseInt (vars !!! "lon"%string) with
  | None => HS400
  | Some lon =>
  if negb (in_lon lon) then HS400 else
  let result := CellRnd1x1 lat lon count in
  let resultx :=
    {| Min := LatLon (F64.of_int lat) (F64.of_int lon);
       Max := LatLon (F64.of_int (Int.add64 lat 1)) (F64.of_int (Int.add64 lon 1));
       Count := count;
       Points := replicate (Z.to_nat count) (LatLon F64.zero F64.zero) |} in
  match fill 0 result (Points resultx) with
  | None => Panicked
  | Some points =>
  match Marshal {| Min := Min resultx; Max := Max resultx;
                   Count := Count resultx; Points := points |} with
  | None => HS500
  | Some resultj => HS200j resultj
  end end end end end.
End WithGenerator.

(** the path variables denote a number of points and a cell, in range *)
Definition valid_cell (vars : gmap string string) (count lat lon : Z) : Prop :=
  ParseInt (vars !!! "count"%string) = Some count /\ 1 <= count <= 1000 /\
  ParseInt (vars !!! "lat"%string) = Some lat /\ -90 <= lat < 90 /\
  ParseInt (vars !!! "lon"%string) = Some lon /\ -180 <= lon < 180.
End Random.

(** the path variables of [/api/randompoints/{count}/lat/{lat}/lon/{lon}] *)
Definition cell_vars (count lat lon : string) : gmap string string :=
  <[ "count"%string := count ]>
  (<[ "lat"%string := lat ]> (<[ "lon"%string := lon ]> ∅)).

(** a generator that returns the two lower corners of the cell, whatever
    the number of points asked for *)
Definition corners (lat lon count : Z) : list (float64 * float64) :=
  [ (F64.of_int lat, F64.of_int lon); (F64.of_int lat, F64.of_int (lon + 1)) ].

(** ** Notions used to state the properties of the cube and of the counts *)

(** the integer [v] is the number [x] moved away from zero to an integer, by
    less than one: up when [x] is not negative, down when it is *)
Definition away_from_zero (x : float64) (v : Z) : Prop :=
  match x with
  | F64.Fin n =>
      if 0 <=? n then n <= v * F64.unit < n + F64.unit
      else n - F64.unit < v * F64.unit <= n
  | _ => False
  end.

(** the blocks whose distance from the query point, as the geodesy library
    gives it, is at most [d] *)
Definition within_distance `{G : Geodesy} (blocks : list block)
    (lat lon : float64) (d : Z) : list block :=
  List.filter (fun b => Store.near (Geo lat lon) (F64.of_int d) (blk_loc b)) blocks.

(** bucket [k] (0 for the youngest, 22 for the oldest) of the pyramid the
    binary-scan handler reports from the variables [st] of its loop: that of
    the females or that of the males *)
Definition reported_bucket (female : bool) (k : nat) (st : Bin.accum) : Z :=
  nth k (buckets (mkpyramid (if female then Bin.fpyr st else Bin.mpyr st))) 0.

(** a block at latitude 1.375 whose files hold its first coordinate without
    the fraction, in both forms *)
Definition loc_cut : Store.poploc :=
  {| Store.id := "222222222"; Store.pop := 20000;
     Store.lat := F64.dyadic 11 (-3); Store.lon := F64.zero;
     Store.x := 1; Store.y := 0; Store.z := 0 |}.

Definition block_cut : list byte :=
  encode (replicate 9 x32) 20000 0x3FF6000000000000 0 1 0 0 20000 boys nobody.

(** * Properties *)

(** ** Wrap-around arithmetic *)

Lemma wrap_small bits v :
  0 < bits -> - 2 ^ (bits - 1) <= v < 2 ^ (bits - 1) -> Int.wrap bits v = v.
Proof.
  intros Hb Hv. unfold Int.wrap.
  assert (Hp : 2 ^ bits = 2 * 2 ^ (bits - 1)).
  { replace bits with (1 + (bits - 1)) at 1 by lia.
    rewrite Z.pow_add_r by lia. reflexivity. }
  rewrite Z.mod_small by lia. lia.
Qed.

Lemma wrap_range bits v :
  0 < bits -> - 2 ^ (bits - 1) <= Int.wrap bits v < 2 ^ (bits - 1).
Proof.
  intros Hb. unfold Int.wrap.
  assert (Hp : 2 ^ bits = 2 * 2 ^ (bits - 1)).
  { replace bits with (1 + (bits - 1)) at 1 by lia.
    rewrite Z.pow_add_r by lia. reflexivity. }
  assert (0 < 2 ^ (bits - 1)) by (apply Z.pow_pos_nonneg; lia).
  pose proof (Z.mod_pos_bound (v + 2 ^ (bits - 1)) (2 ^ bits)). lia.
Qed.

(** wrapping an operand first does not change a wrapped sum *)
Lemma wrap_add_l bits a b :
  Int.wrap bits (Int.wrap bits a + b) = Int.wrap bits (a + b).
Proof.
  unfold Int.wrap. f_equal.
  replace ((a + 2 ^ (bits - 1)) mod 2 ^ bits - 2 ^ (bits - 1) + b + 2 ^ (bits - 1))
    with ((a + 2 ^ (bits - 1)) mod 2 ^ bits + b) by lia.
  rewrite Zplus_mod_idemp_l. f_equal. lia.
Qed.

Lemma wrap_add_r bits a b :
  Int.wrap bits (a + Int.wrap bits b) = Int.wrap bits (a + b).
Proof. rewrite (Z.add_comm a), wrap_add_l. f_equal. lia. Qed.

Lemma wrap_wrap bits a : Int.wrap bits (Int.wrap bits a) = Int.wrap bits a.
Proof. pose proof (wrap_add_l bits a 0) as H. rewrite !Z.add_0_r in H. exact H. Qed.

(** ** float64: rounding is monotone and exact on representable numbers *)

Lemma unit_pos : 0 < F64.unit.
Proof. unfold F64.unit. apply Z.pow_pos_nonneg; lia. Qed.

Lemma shift_nonneg n : 0 <= F64.shift n.
Proof. unfold F64.shift. lia. Qed.

Lemma shift_mono a b : a <= b -> F64.shift a <= F64.shift b.
Proof. intros H. unfold F64.shift. pose proof (Z.log2_le_mono a b H). lia. Qed.

Lemma rne_unfold n :
  F64.rne n =
  F64.rnd (n / 2 ^ F64.shift n) (n mod 2 ^ F64.shift n) (2 ^ F64.shift n) * 2 ^ F64.shift n.
Proof. reflexivity. Qed.

Lemma rnd_bounds q r p : q <= F64.rnd q r p <= q + 1.
Proof. unfold F64.rnd. repeat case_match; lia. Qed.

Lemma rnd_mono_r q r1 r2 p : r1 <= r2 -> F64.rnd q r1 p <= F64.rnd q r2 p.
Proof.
  intros H. unfold F64.rnd.
  destruct (Z.ltb_spec (2 * r1) p), (Z.ltb_spec (2 * r2) p),
    (Z.eqb_spec (2 * r1) p), (Z.eqb_spec (2 * r2) p), (Z.even q); lia.
Qed.

Lemma rne_nonneg n : 0 <= n -> 0 <= F64.rne n.
Proof.
  intros H. rewrite rne_unfold.
  assert (0 < 2 ^ F64.shift n) by (apply Z.pow_pos_nonneg; [lia | apply shift_nonneg]).
  pose proof (rnd_bounds (n / 2 ^ F64.shift n) (n mod 2 ^ F64.shift n) (2 ^ F64.shift n)).
  pose proof (Z.div_pos n (2 ^ F64.shift n) H ltac:(lia)).
  nia.
Qed.

Lemma rne_mono a b : 0 <= a -> a <= b -> F64.rne a <= F64.rne b.
Proof.
  intros Ha Hab. rewrite !rne_unfold.
  pose proof (shift_mono a b Hab) as Hs.
  pose proof (shift_nonneg a) as Hsa.
  set (sa := F64.shift a) in *. set (sb := F64.shift b) in *.
  assert (Hpa : 0 < 2 ^ sa) by (apply Z.pow_pos_nonneg; lia).
  assert (Hpb : 0 < 2 ^ sb) by (apply Z.pow_pos_nonneg; lia).
  pose proof (rnd_bounds (a / 2 ^ sa) (a mod 2 ^ sa) (2 ^ sa)) as Hra.
  pose proof (rnd_bounds (b / 2 ^ sb) (b mod 2 ^ sb) (2 ^ sb)) as Hrb.
  destruct (Z.eq_dec sa sb) as [Heq | Hne].
  - rewrite <- Heq in *. clear Hpb Hs.
    pose proof (Z.div_le_mono a b (2 ^ sa) Hpa Hab) as Hq.
    apply Z.mul_le_mono_nonneg_r; [lia |].
    destruct (Z.eq_dec (a / 2 ^ sa) (b / 2 ^ sa)) as [Hqe | Hqn].
    + rewrite <- Hqe. apply rnd_mono_r.
      pose proof (Z.div_mod a (2 ^ sa) ltac:(lia)).
      pose proof (Z.div_mod b (2 ^ sa) ltac:(lia)).
      rewrite <- Hqe in *. lia.
    + lia.
  - assert (Hlt : sa + 1 <= sb) by lia.
    (* [a] is below 2^(sa+53), [b] is at least 2^(sb+52) *)
    assert (Hbpos : 0 < b).
    { destruct (Z.le_gt_cases b 0) as [Hb0 | ]; [| lia].
      exfalso. subst sb. unfold F64.shift in Hlt, Hs.
      rewrite (Z.log2_nonpos b Hb0) in Hlt. lia. }
    assert (Hlb : Z.log2 b = sb + 52) by (subst sb; unfold F64.shift in *; lia).
    pose proof (Z.log2_spec b Hbpos) as [Hb1 _]. rewrite Hlb in Hb1.
    assert (Hqb : 2 ^ 52 <= b / 2 ^ sb).
    { apply Z.div_le_lower_bound; [lia |].
      rewrite Z.pow_add_r in Hb1 by lia. lia. }
    assert (Hqa : a / 2 ^ sa < 2 ^ 53).
    { apply Z.div_lt_upper_bound; [lia |].
      replace (2 ^ sa * 2 ^ 53) with (2 ^ (sa + 53)) by (rewrite Z.pow_add_r; lia).
      destruct (Z.eq_dec a 0) as [-> | Hne0].
      { apply Z.pow_pos_nonneg; lia. }
      pose proof (Z.log2_spec a ltac:(lia)) as [_ Ha2].
      eapply Z.lt_le_trans; [exact Ha2 |].
      apply Z.pow_le_mono_r; [lia |]. subst sa. unfold F64.shift. lia. }
    assert (Hpow : 2 ^ sb = 2 ^ (sb - sa - 1) * 2 * 2 ^ sa).
    { replace (2 ^ sb) with (2 ^ ((sb - sa - 1) + 1 + sa)) by (f_equal; lia).
      rewrite !Z.pow_add_r by lia. reflexivity. }
    assert (0 < 2 ^ (sb - sa - 1)) by (apply Z.pow_pos_nonneg; lia).
    nia.
Qed.

Lemma rne_exact m k : 0 <= m < 2 ^ 53 -> 0 <= k -> F64.rne (m * 2 ^ k) = m * 2 ^ k.
Proof.
  intros Hm Hk. rewrite rne_unfold.
  set (n := m * 2 ^ k).
  assert (Hs : F64.shift n <= k).
  { unfold F64.shift. subst n. destruct (Z.eq_dec m 0) as [-> | Hm0].
    - rewrite Z.mul_0_l. change (Z.log2 0) with 0. lia.
    - rewrite Z.log2_mul_pow2 by lia.
      assert (Z.log2 m < 53) by (apply Z.log2_lt_pow2; lia). lia. }
  pose proof (shift_nonneg n) as Hs0.
  set (s := F64.shift n) in *.
  assert (Hp : 0 < 2 ^ s) by (apply Z.pow_pos_nonneg; lia).
  assert (Hn : n = (m * 2 ^ (k - s)) * 2 ^ s).
  { subst n. rewrite <- Z.mul_assoc, <- Z.pow_add_r by lia. do 2 f_equal. lia. }
  rewrite Hn at 1 2. rewrite Z.div_mul, Z.mod_mul by lia.
  unfold F64.rnd. change (2 * 0) with 0.
  destruct (Z.ltb_spec 0 (2 ^ s)); lia.
Qed.

Lemma fl_exact n m k :
  Z.abs n = m * 2 ^ k -> 0 <= m < 2 ^ 53 -> 0 <= k -> k + 53 <= 2098 ->
  F64.fl n = F64.Fin n.
Proof.
  intros Hn Hm Hk Hk2. unfold F64.fl. rewrite Hn, rne_exact by assumption.
  assert (Hlt : m * 2 ^ k < 2 ^ (1024 + 1074)).
  { assert (0 < 2 ^ k) by (apply Z.pow_pos_nonneg; lia).
    apply Z.lt_le_trans with (2 ^ 53 * 2 ^ k); [nia |].
    rewrite <- Z.pow_add_r by lia. apply Z.pow_le_mono_r; lia. }
  destruct (Z.leb_spec (2 ^ (1024 + 1074)) (m * 2 ^ k)); [lia |].
  f_equal. rewrite <- Hn. lia.
Qed.

(** the conversion of an integer of at most 53 bits is exact *)
Lemma of_int_exact v : Z.abs v < 2 ^ 53 -> F64.of_int v = F64.Fin (v * F64.unit).
Proof.
  intros Hv. unfold F64.of_int. apply fl_exact with (m := Z.abs v) (k := 1074); [| lia ..].
  rewrite Z.abs_mul. f_equal.
Qed.

Lemma fl_mono a b : a <= b -> F64.leb (F64.fl a) (F64.fl b) = true.
Proof.
  intros Hab. unfold F64.fl.
  pose proof (rne_nonneg (Z.abs a) (Z.abs_nonneg a)) as Hra.
  pose proof (rne_nonneg (Z.abs b) (Z.abs_nonneg b)) as Hrb.
  set (T := 2 ^ (1024 + 1074)).
  assert (Hm : a < 0 -> b < 0 -> F64.rne (Z.abs b) <= F64.rne (Z.abs a)).
  { intros. apply rne_mono; lia. }
  assert (Hm' : 0 <= a -> F64.rne (Z.abs a) <= F64.rne (Z.abs b)).
  { intros. apply rne_mono; lia. }
  assert (Hsa : a < 0 -> Z.sgn a = -1) by (intros; apply Z.sgn_neg; lia).
  assert (Hsb : b < 0 -> Z.sgn b = -1) by (intros; apply Z.sgn_neg; lia).
  assert (Hsa' : 0 <= a -> 0 <= Z.sgn a <= 1) by (destruct a; cbn; lia).
  assert (Hsb' : 0 < b -> Z.sgn b = 1) by (intros; apply Z.sgn_pos; lia).
  assert (Hsa0 : a = 0 -> Z.sgn a = 0) by (intros ->; reflexivity).
  assert (Hsb0 : b = 0 -> Z.sgn b = 0) by (intros ->; reflexivity).
  destruct (Z.ltb_spec a 0) as [Ha | Ha], (Z.ltb_spec b 0) as [Hb | Hb];
    destruct (Z.leb_spec T (F64.rne (Z.abs a))), (Z.leb_spec T (F64.rne (Z.abs b)));
    cbn [F64.leb orb negb]; try reflexivity; try lia; apply Z.leb_le; nia.
Qed.

(** a sum of magnitude at most [2^k] rounds to a finite number of magnitude
    at most [2^k] *)
Lemma fl_bounded k n :
  0 <= k <= 1000 -> Z.abs n <= 2 ^ k * F64.unit -> F64.bounded k (F64.fl n).
Proof.
  intros Hk Hn. unfold F64.fl.
  pose proof (rne_nonneg (Z.abs n) (Z.abs_nonneg n)) as Hr0.
  pose proof (rne_mono (Z.abs n) (2 ^ k * F64.unit) (Z.abs_nonneg n) Hn) as Hr.
  assert (He : F64.rne (2 ^ k * F64.unit) = 2 ^ k * F64.unit).
  { unfold F64.unit. rewrite <- Z.pow_add_r by lia.
    rewrite <- (Z.mul_1_l (2 ^ (k + 1074))). apply rne_exact; lia. }
  rewrite He in Hr.
  assert (Hlt : 2 ^ k * F64.unit < 2 ^ (1024 + 1074)).
  { unfold F64.unit. rewrite <- Z.pow_add_r by lia. apply Z.pow_lt_mono_r; lia. }
  destruct (Z.leb_spec (2 ^ (1024 + 1074)) (F64.rne (Z.abs n))); [lia |].
  cbn. rewrite Z.abs_mul.
  pose proof (Z.abs_nonneg (Z.sgn n)).
  assert (Z.abs (Z.sgn n) <= 1) by (destruct n; cbn; lia).
  rewrite (Z.abs_eq (F64.rne _)) by lia. nia.
Qed.

Lemma pow2_unit_mono j k : 0 <= j <= k -> 2 ^ j * F64.unit <= 2 ^ k * F64.unit.
Proof.
  intros H. pose proof unit_pos.
  apply Z.mul_le_mono_nonneg_r; [lia |]. apply Z.pow_le_mono_r; lia.
Qed.

(** [round] on a finite number: down for a negative one, up otherwise *)
Lemma round_Fin n :
  Z.abs n <= 2 ^ 62 * F64.unit ->
  round (F64.Fin n) = if n <? 0 then n / F64.unit else - ((- n) / F64.unit).
Proof.
  intros Hn. pose proof unit_pos as Hu. unfold round.
  cbn [F64.abs F64.ceil F64.ltb F64.zero F64.neg F64.to_int64].
  set (u := F64.unit) in *.
  assert (Hin : forall c, - 2 ^ 62 - 1 <= c <= 2 ^ 62 + 1 -> Int.in_int64 c = true).
  { intros c Hc. unfold Int.in_int64, Int.min_int64, Int.max_int64.
    apply andb_true_intro. split; apply Z.leb_le; lia. }
  destruct (Z.ltb_spec n 0) as [Hneg | Hpos].
  - rewrite Z.abs_neq by lia. rewrite Z.opp_involutive.
    rewrite <- Z.mul_opp_l, Z.opp_involutive, Z.quot_mul by lia.
    rewrite Hin; [reflexivity |].
    pose proof (Z.mul_div_le n u Hu). pose proof (Z.mul_succ_div_gt n u Hu). nia.
  - rewrite Z.abs_eq by lia. rewrite Z.quot_mul by lia.
    rewrite Hin; [reflexivity |].
    pose proof (Z.mul_div_le (- n) u Hu). pose proof (Z.mul_succ_div_gt (- n) u Hu). nia.
Qed.

(** [round] is monotone on the finite numbers it can convert *)
Lemma round_mono a b :
  F64.bounded 62 a -> F64.bounded 62 b -> F64.leb a b = true -> round a <= round b.
Proof.
  destruct a as [| | a], b as [| | b]; cbn [F64.bounded F64.leb]; try tauto.
  intros Ha Hb Hab. apply Z.leb_le in Hab. pose proof unit_pos as Hu.
  rewrite !round_Fin by assumption.
  set (u := F64.unit) in *.
  pose proof (Z.div_le_mono a b u ltac:(lia) Hab).
  pose proof (Z.div_le_mono (- b) (- a) u ltac:(lia) ltac:(lia)).
  destruct (Z.ltb_spec a 0), (Z.ltb_spec b 0); try lia.
  pose proof (Z.mul_div_le a u Hu). pose proof (Z.mul_succ_div_gt a u Hu).
  pose proof (Z.mul_div_le (- b) u Hu). pose proof (Z.mul_succ_div_gt (- b) u Hu).
  nia.
Qed.

(** ** The bounding cube *)

Lemma bounded_weaken j k x : 0 <= j <= k -> F64.bounded j x -> F64.bounded k x.
Proof.
  intros Hjk. destruct x as [| | n]; cbn; try tauto.
  pose proof (pow2_unit_mono j k Hjk). lia.
Qed.

Lemma dist_bounded d : 1 <= d <= 1000000 -> F64.of_int d = F64.Fin (d * F64.unit).
Proof. intros Hd. apply of_int_exact. lia. Qed.

(** both boundaries of an axis are finite and within the range of int64 *)
Lemma boundary_bounded q d :
  1 <= d <= 1000000 -> F64.bounded 32 q ->
  F64.bounded 62 (F64.sub q (F64.of_int d)) /\ F64.bounded 62 (F64.add q (F64.of_int d)).
Proof.
  intros Hd Hq. rewrite dist_bounded by assumption.
  destruct q as [| | a]; cbn in Hq; try tauto.
  pose proof unit_pos as Hu.
  assert (H33 : 2 ^ 33 * F64.unit = 2 * (2 ^ 32 * F64.unit)).
  { change (2 ^ 33) with (2 * 2 ^ 32). lia. }
  assert (H32 : 1000000 * F64.unit <= 2 ^ 32 * F64.unit).
  { apply Z.mul_le_mono_nonneg_r; lia. }
  split; apply bounded_weaken with (j := 33); try lia;
    cbn [F64.sub F64.add F64.neg]; apply fl_bounded; try lia.
  all: assert (d * F64.unit <= 1000000 * F64.unit)
         by (apply Z.mul_le_mono_nonneg_r; lia); nia.
Qed.

(** an axis: a coordinate between the two float boundaries is stored,
    after [round], between the two integer boundaries *)
Lemma axis_in_range q p d :
  1 <= d <= 1000000 -> F64.bounded 32 q -> F64.bounded 32 p ->
  axis_within (F64.of_int d) q p = true ->
  round (F64.sub q (F64.of_int d)) <= round p <= round (F64.add q (F64.of_int d)).
Proof.
  intros Hd Hq Hp Hw. apply andb_prop in Hw as [Hlo Hhi].
  destruct (boundary_bounded q d Hd Hq) as [Hbl Hbh].
  pose proof (bounded_weaken 32 62 p ltac:(lia) Hp) as Hp'.
  split; apply round_mono; assumption.
Qed.

Lemma in_cube_bounds qxyz dist x y z :
  in_cube (bounds qxyz dist) x y z = true <->
  (round (F64.sub (X qxyz) dist) <= x <= round (F64.add (X qxyz) dist)) /\
  (round (F64.sub (Y qxyz) dist) <= y <= round (F64.add (Y qxyz) dist)) /\
  (round (F64.sub (Z_ qxyz) dist) <= z <= round (F64.add (Z_ qxyz) dist)).
Proof.
  unfold in_cube, bounds. cbn [xmin xmax ymin ymax zmin zmax].
  rewrite !andb_true_iff, !Z.leb_le. tauto.
Qed.

Lemma cube_contains q p d :
  1 <= d <= 1000000 -> coords_bounded q -> coords_bounded p ->
  within (F64.of_int d) q p = true ->
  in_cube (bounds q (F64.of_int d)) (round (X p)) (round (Y p)) (round (Z_ p)) = true.
Proof.
  intros Hd (Hqx & Hqy & Hqz) (Hpx & Hpy & Hpz) Hw.
  unfold within in Hw. rewrite !andb_true_iff in Hw. destruct Hw as [[Hx Hy] Hz].
  apply in_cube_bounds. repeat split; apply axis_in_range; assumption.
Qed.

(** ** [geosearch]: the identifiers of the locations kept, in dataset order *)

Section StoreFacts.
Context `{G : Geodesy}.

Lemma geosearch_filter locs query dist :
  Store.geosearch locs query dist =
  map Store.id (List.filter (Store.keep (bounds (Forward query) dist) query dist) locs).
Proof.
  unfold Store.geosearch.
  set (c := bounds (Forward query) dist).
  enough (H : forall acc,
    fold_left (fun ids loc => if Store.keep c query dist loc
                              then ids ++ [Store.id loc] else ids) locs acc =
    acc ++ map Store.id (List.filter (Store.keep c query dist) locs))
    by apply (H []).
  induction locs as [| loc locs IH]; intros acc.
  - cbn. rewrite app_nil_r. reflexivity.
  - cbn [fold_left List.filter]. rewrite IH.
    destruct (Store.keep c query dist loc); cbn [map].
    + rewrite <- app_assoc. reflexivity.
    + reflexivity.
Qed.

Lemma keep_cube_near c query dist loc :
  Store.keep c query dist loc =
  in_cube c (Store.x loc) (Store.y loc) (Store.z loc) && Store.near query dist loc.
Proof.
  unfold Store.keep, in_cube, Store.near.
  destruct (xmin c <=? Store.x loc), (Store.x loc <=? xmax c),
    (ymin c <=? Store.y loc), (Store.y loc <=? ymax c),
    (zmin c <=? Store.z loc), (Store.z loc <=? zmax c); reflexivity.
Qed.

End StoreFacts.

Section BinFacts.
Context `{G : Geodesy}.

Lemma ReadFull_app record rest :
  length record = Bin.reclen -> Bin.ReadFull (record ++ rest) = Bin.ReadOk record rest.
Proof.
  intros Hlen. unfold Bin.ReadFull.
  destruct (record ++ rest) as [| b l] eqn:E.
  - apply (f_equal length) in E. rewrite length_app, Hlen in E. discriminate.
  - rewrite <- E. destruct (decide _) as [_ | Hn].
    + rewrite <- Hlen, take_app_length, drop_app_length. reflexivity.
    + rewrite length_app, Hlen in Hn. lia.
Qed.

Lemma scan_nil c query dist st : Bin.scan c query dist [] st = Some st.
Proof. simp scan. reflexivity. Qed.

Lemma scan_app c query dist record rest st :
  length record = Bin.reclen ->
  Bin.scan c query dist (record ++ rest) st =
  Bin.scan c query dist rest (Bin.body c query dist st record).
Proof.
  intros Hlen. rewrite (Bin.scan_unfold_eq c query dist (record ++ rest)).
  unfold Bin.scan_unfold.
  generalize (Bin.inspect (Bin.ReadFull (record ++ rest))).
  intros [b e]. pose proof (ReadFull_app record rest Hlen) as Hr.
  assert (b = Bin.ReadOk record rest) as -> by congruence. reflexivity.
Qed.

Lemma scan_records c query dist records st :
  Forall (fun record => length record = Bin.reclen) records ->
  Bin.scan c query dist (concat records) st =
  Some (fold_left (Bin.body c query dist) records st).
Proof.
  intros Hall. revert st. induction Hall as [| record records Hlen _ IH]; intros st.
  - apply scan_nil.
  - cbn [concat fold_left]. rewrite scan_app by assumption. apply IH.
Qed.

Lemma fold_body_filter c query dist records st :
  fold_left (Bin.body c query dist) records st =
  fold_left Bin.accumulate (List.filter (Bin.keep c query dist) records) st.
Proof.
  revert st. induction records as [| record records IH]; intros st; [reflexivity |].
  cbn [fold_left List.filter]. rewrite IH. unfold Bin.body.
  destruct (Bin.keep c query dist record); reflexivity.
Qed.

Lemma bin_keep_cube c query dist record :
  Bin.keep c query dist record =
  in_cube c (Int.int64 (LittleEndian (Bin.xs record)))
            (Int.int64 (LittleEndian (Bin.ys record)))
            (Int.int64 (LittleEndian (Bin.zs record)))
  && negb (F64.gtb (Andoyer query (Bin.point record)) dist).
Proof.
  unfold Bin.keep, in_cube, Bin.point. cbv zeta.
  repeat match goal with |- context [?a <=? ?b] => destruct (a <=? b) end;
    cbn [negb andb]; try reflexivity;
    destruct (F64.gtb _ _); reflexivity.
Qed.

End BinFacts.

(** [a > d] fails exactly when [a <= d], unless [a] is a NaN *)
Lemma not_gtb_leb a d :
  F64.is_nan a = false -> F64.is_nan d = false ->
  negb (F64.gtb a d) = F64.leb a d.
Proof.
  destruct a as [| [|] | a], d as [| [|] | d]; cbn; intros; try congruence.
  destruct (Z.ltb_spec d a), (Z.leb_spec a d); cbn; try reflexivity; lia.
Qed.

Lemma filter_ext_In {A} (f g : A -> bool) (l : list A) :
  (forall a, In a l -> f a = g a) -> List.filter f l = List.filter g l.
Proof.
  induction l as [| a l IH]; intros H; [reflexivity |].
  cbn [List.filter]. rewrite (H a) by (left; reflexivity).
  rewrite IH by (intros b Hb; apply H; right; exact Hb). reflexivity.
Qed.

(** ** The cube is rounded away from zero, not away from the query point *)

(** C2 as stated fails.  In the flat stand-in for the geodesy library,
    where no coordinate of two points differs by more than their distance,
    the query point has x = 2.25 and the radius is 1: the lower boundary
    1.25 is rounded to 2, toward the query point.  A block at x = 1.375 lies
    at distance 0.875, within the radius; its x rounded to the nearest
    integer, or without its fraction, is 1, and the block falls outside the
    cube. *)
Lemma boundary_rounded_inward :
  let query := @Geo flat (F64.dyadic 9 (-2)) F64.zero in
  let point := @Geo flat (F64.dyadic 11 (-3)) F64.zero in
  let dist := F64.of_int 1 in
  let c := bounds (@Forward flat query) dist in
  F64.sub (X (@Forward flat query)) dist = F64.dyadic 5 (-2) /\
  xmin c = 2 /\
  @Andoyer flat query point = F64.dyadic 7 (-3) /\
  F64.leb (@Andoyer flat query point) dist = true /\
  within dist (@Forward flat query) (@Forward flat point) = true /\
  F64.to_int64 (X (@Forward flat point)) = 1 /\
  in_cube c (F64.to_int64 (X (@Forward flat point)))
    (F64.to_int64 (Y (@Forward flat point)))
    (F64.to_int64 (Z_ (@Forward flat point))) = false.
Proof. vm_compute. repeat split; reflexivity. Qed.

(** [round] moves a number of magnitude up to 2^62 away from zero *)
Lemma round_away x : F64.bounded 62 x -> away_from_zero x (round x).
Proof.
  destruct x as [| s | n]; cbn [F64.bounded]; try tauto. intros Hn.
  pose proof unit_pos as Hu. unfold away_from_zero. rewrite (round_Fin n Hn).
  pose proof (Z.div_mod n F64.unit ltac:(lia)) as Hdm.
  pose proof (Z.mod_pos_bound n F64.unit Hu) as Hmb.
  pose proof (Z.div_mod (- n) F64.unit ltac:(lia)) as Hdm'.
  pose proof (Z.mod_pos_bound (- n) F64.unit Hu) as Hmb'.
  destruct (Z.leb_spec 0 n), (Z.ltb_spec n 0); try lia; nia.
Qed.

(** C2, amended.  Each of the six boundaries is the float boundary moved
    away from zero to an integer, by less than one: a lower boundary that is
    not negative moves up, toward the query point, and an upper boundary that
    is negative moves down, toward it too.  For geodesy primitives under
    which a point within the distance has each coordinate between the two
    float boundaries of its axis, a point within the distance whose stored
    integers come from the same [round] is nevertheless inside the cube,
    because that rounding is monotone. *)
Theorem cube_contains_rounded_point `{G : Geodesy} (query point : Point) (d : Z) :
  1 <= d <= 1000000 ->
  coords_bounded (Forward query) -> coords_bounded (Forward point) ->
  (F64.leb (Andoyer query point) (F64.of_int d) = true ->
   within (F64.of_int d) (Forward query) (Forward point) = true) ->
  let dist := F64.of_int d in
  let q := Forward query in
  let p := Forward point in
  let c := bounds q dist in
  (away_from_zero (F64.sub (X q) dist) (xmin c) /\
   away_from_zero (F64.add (X q) dist) (xmax c) /\
   away_from_zero (F64.sub (Y q) dist) (ymin c) /\
   away_from_zero (F64.add (Y q) dist) (ymax c) /\
   away_from_zero (F64.sub (Z_ q) dist) (zmin c) /\
   away_from_zero (F64.add (Z_ q) dist) (zmax c)) /\
  (F64.leb (Andoyer query point) dist = true ->
   in_cube c (round (X p)) (round (Y p)) (round (Z_ p)) = true).
Proof.
  intros Hd Hq Hp Hchord dist q p c. split.
  - destruct Hq as (Hx & Hy & Hz). fold q in Hx, Hy, Hz.
    destruct (boundary_bounded (X q) d Hd Hx) as [Hxs Hxa].
    destruct (boundary_bounded (Y q) d Hd Hy) as [Hys Hya].
    destruct (boundary_bounded (Z_ q) d Hd Hz) as [Hzs Hza].
    subst c. unfold bounds. cbn [xmin xmax ymin ymax zmin zmax].
    repeat split; apply round_away; assumption.
  - intros Hnear. apply cube_contains; auto.
Qed.

Lemma cube_contains_rounded_point_witness :
  let query := @Geo flat (F64.dyadic 9 (-2)) F64.zero in
  let point := @Geo flat (F64.dyadic 11 (-3)) F64.zero in
  let dist := F64.of_int 1 in
  let c := bounds (@Forward flat query) dist in
  away_from_zero (F64.sub (X (@Forward flat query)) dist) (xmin c) /\
  in_cube c (round (X (@Forward flat point))) (round (Y (@Forward flat point)))
    (round (Z_ (@Forward flat point))) = true.
Proof.
  intros query point dist c.
  destruct (@cube_contains_rounded_point flat query point 1)
    as [(Hxmin & _) Hin].
  - lia.
  - vm_compute. intuition discriminate.
  - vm_compute. intuition discriminate.
  - intros _. vm_compute. reflexivity.
  - split; [exact Hxmin |]. apply Hin. vm_compute. reflexivity.
Defined.

(** ** The record layout the scan reads *)

Lemma mkpyramid_buckets buf :
  length buf = 24%nat -> buckets (mkpyramid buf) = drop 1 buf.
Proof.
  intros Hlen.
  do 24 (destruct buf as [| ? buf]; [discriminate |]).
  destruct buf; [reflexivity | discriminate].
Qed.

(** C7 as stated fails.  In the record [marked] the two bytes that follow
    the compact fields hold 7, yet the male total the scan reads is 12, the
    content of slot 0 of the male pyramid: the totals are read from the
    very bytes of the two slots 0, the record is 151 bytes long, not the 153
    the layout of the claim adds up to, and the female slots 1..23 of the
    scan start two bytes before those of the claim. *)
Lemma totals_are_read_from_slot_zero :
  length marked = Bin.reclen /\
  SpecLayout.reclen = 153%nat /\ Bin.reclen = 151%nat /\
  Int.int16 (LittleEndian (slice marked SpecLayout.colmpop (SpecLayout.colmpop + 2))) = 7 /\
  Bin.mpopulation (Bin.accumulate Bin.accum0 marked) = 12 /\
  Bin.mpops marked = slice marked (Bin.colmpop + 2 * 0) (Bin.colmpop + 2 * (0 + 1)) /\
  Bin.fpops marked = slice marked (Bin.colfpop + 2 * 0) (Bin.colfpop + 2 * (0 + 1)) /\
  Bin.mpyr (Bin.accumulate Bin.accum0 marked) = 12 :: replicate 23 1 /\
  Bin.fpyr (Bin.accumulate Bin.accum0 marked) = 18 :: replicate 23 2.
Proof. vm_compute. repeat split; reflexivity. Qed.

(** C7, amended.  A record is 151 bytes: the 53 bytes of the compact
    fields, two bytes the scan does not read, 24 male slots from byte 55 and
    24 female slots from byte 103, each a signed 16-bit little-endian
    number.  The male and the female population are read from slot 0 of the
    respective pyramid, and the totals accumulate that slot; [mkpyramid]
    reports the slots 1 to 23 and leaves slot 0 out. *)
Theorem extended_layout (record : list byte) (st : Bin.accum) (buf : list Z) :
  length buf = 24%nat ->
  (Bin.colmpop = SpecLayout.compact + 2 /\ Bin.colfpop = Bin.colmpop + 2 * 24 /\
   Bin.reclen = Bin.colfpop + 2 * 24)%nat /\
  Int.int16 (LittleEndian (Bin.mpops record)) = Bin.slot record Bin.colmpop 0 /\
  Int.int16 (LittleEndian (Bin.fpops record)) = Bin.slot record Bin.colfpop 0 /\
  Bin.mpopulation (Bin.accumulate st record) =
    Int.add32 (Bin.mpopulation st) (Int.int32 (Bin.slot record Bin.colmpop 0)) /\
  Bin.fpopulation (Bin.accumulate st record) =
    Int.add32 (Bin.fpopulation st) (Int.int32 (Bin.slot record Bin.colfpop 0)) /\
  buckets (mkpyramid buf) = drop 1 buf.
Proof.
  intros Hlen. repeat split; try reflexivity. apply mkpyramid_buckets, Hlen.
Qed.

Lemma extended_layout_witness :
  Int.int16 (LittleEndian (Bin.mpops marked)) = Bin.slot marked Bin.colmpop 0 /\
  buckets (mkpyramid (12 :: replicate 23 1)) = replicate 23 1.
Proof.
  pose proof (extended_layout marked Bin.accum0 (12 :: replicate 23 1) eq_refl)
    as (_ & Hm & _ & _ & _ & Hb).
  split; [exact Hm | exact Hb].
Defined.

(** ** Validation *)

Lemma in_distance_spec d : in_distance d = true <-> 1 <= d <= 1000000.
Proof. unfold in_distance. rewrite andb_true_iff, !Z.leb_le. tauto. Qed.

Lemma leb_between lo hi x :
  Z.abs lo < 2 ^ 53 -> Z.abs hi < 2 ^ 53 ->
  F64.leb (F64.of_int lo) x && F64.leb x (F64.of_int hi) = true <-> F64.between lo hi x.
Proof.
  intros Hlo Hhi. rewrite !of_int_exact by assumption.
  destruct x as [| [|] | n]; cbn [F64.leb F64.between andb negb];
    try (split; [discriminate | tauto]).
  rewrite andb_true_iff, !Z.leb_le. tauto.
Qed.

Lemma in_lat_spec lat : in_lat lat = true <-> F64.between (-90) 90 lat.
Proof. unfold in_lat. apply leb_between; cbn; lia. Qed.

Lemma in_lon_spec lon : in_lon lon = true <-> F64.between (-180) 180 lon.
Proof. unfold in_lon. apply leb_between; cbn; lia. Qed.

Lemma not_true_false b : ~ b = true -> b = false.
Proof. destruct b; congruence. Qed.

(** C8. A query whose radius is outside [1,1000000], whose latitude is
    outside [-90,90] or whose longitude is outside [-180,180] is answered
    with the 400 reply by both handlers, before either has started any
    operation on the dataset: no file is opened, no location is searched,
    no aggregate is computed. *)
Theorem invalid_query_rejected `{G : Geodesy}
    (ParseFloat : string -> option float64)
    (poplocs : list Store.poploc) (popbddb : badger.DB)
    (infile : option (list byte)) (vars : gmap string string) :
  (exists d, ParseInt (vars !!! "distance"%string) = Some d /\ ~ 1 <= d <= 1000000) \/
  (exists lat, ParseFloat (vars !!! "lat"%string) = Some lat /\
               ~ F64.between (-90) 90 lat) \/
  (exists lon, ParseFloat (vars !!! "lon"%string) = Some lon /\
               ~ F64.between (-180) 180 lon) ->
  Store.pop2010 ParseFloat poplocs popbddb vars = ([], HS400) /\
  Bin.pop2010 ParseFloat infile vars = ([], HS400).
Proof.
  intros H. unfold Store.pop2010, Bin.pop2010.
  assert (Hd : forall d, ~ 1 <= d <= 1000000 -> in_distance d = false).
  { intros d Hn. apply not_true_false. rewrite in_distance_spec. exact Hn. }
  assert (Hlat : forall l, ~ F64.between (-90) 90 l -> in_lat l = false).
  { intros l Hn. apply not_true_false. rewrite in_lat_spec. exact Hn. }
  assert (Hlon : forall l, ~ F64.between (-180) 180 l -> in_lon l = false).
  { intros l Hn. apply not_true_false. rewrite in_lon_spec. exact Hn. }
  destruct (ParseInt (vars !!! "distance"%string)) as [d |]; [| split; reflexivity].
  destruct (in_distance d) eqn:Ed; cbn [negb]; [| split; reflexivity].
  destruct (ParseFloat (vars !!! "lat"%string)) as [lat |]; [| split; reflexivity].
  destruct (in_lat lat) eqn:Elat; cbn [negb]; [| split; reflexivity].
  destruct (ParseFloat (vars !!! "lon"%string)) as [lon |]; [| split; reflexivity].
  destruct (in_lon lon) eqn:Elon; cbn [negb]; [| split; reflexivity].
  exfalso. destruct H as [(d' & Hp & Hn) | [(l & Hp & Hn) | (l & Hp & Hn)]];
    inversion Hp; subst.
  - rewrite (Hd _ Hn) in Ed. discriminate Ed.
  - rewrite (Hlat _ Hn) in Elat. discriminate Elat.
  - rewrite (Hlon _ Hn) in Elon. discriminate Elon.
Qed.

Lemma invalid_query_rejected_witness :
  @Store.pop2010 flat ParseFloat_int two_locs two_store
    (path_vars "3000000" "0" "0") = ([], HS400) /\
  @Bin.pop2010 flat ParseFloat_int (Some two_blocks)
    (path_vars "3000000" "0" "0") = ([], HS400).
Proof.
  apply (@invalid_query_rejected flat ParseFloat_int two_locs two_store
           (Some two_blocks) (path_vars "3000000" "0" "0")).
  left. exists 3000000. split; [vm_compute; reflexivity | lia].
Defined.

(** ** [popsearch]: all the values, or the first failure *)

Lemma popsearch_loop_err db k keys vals key e :
  In key keys -> badger.lookup db key = badger.Err e ->
  exists e', Store.popsearch_loop db k keys vals = badger.Err e'.
Proof.
  intros Hin Hfail. revert k vals.
  induction keys as [| key0 keys IH]; intros k vals; [destruct Hin |].
  cbn [Store.popsearch_loop].
  destruct (badger.Get db key0) as [item | e0] eqn:Hget; [| eauto].
  destruct (badger.ValueCopy item) as [val | e0] eqn:Hval; [| eauto].
  destruct Hin as [-> | Hin]; [| apply IH, Hin].
  unfold badger.lookup in Hfail. rewrite Hget, Hval in Hfail. discriminate Hfail.
Qed.

Lemma popsearch_loop_ok db keys vs : forall done rest,
  Forall2 (fun key v => badger.lookup db key = badger.Ok v) keys vs ->
  length rest = length keys ->
  Store.popsearch_loop db (length done) keys (done ++ rest) = badger.Ok (done ++ vs).
Proof.
  intros done rest Hall. revert done rest.
  induction Hall as [| key v keys vs Hkey _ IH]; intros done rest Hlen.
  - destruct rest; [reflexivity | discriminate].
  - destruct rest as [| r rest]; [discriminate |].
    cbn [Store.popsearch_loop]. unfold badger.lookup in Hkey.
    destruct (badger.Get db key) as [item | e0]; [| discriminate Hkey].
    rewrite Hkey.
    replace (<[length done := v]> (done ++ r :: rest)) with ((done ++ [v]) ++ rest).
    + replace (S (length done)) with (length (done ++ [v]))
        by (rewrite length_app; cbn; lia).
      rewrite IH by (cbn in Hlen; lia). rewrite <- app_assoc. reflexivity.
    + rewrite insert_app_r_alt by lia. rewrite Nat.sub_diag. cbn.
      rewrite <- app_assoc. reflexivity.
Qed.

(** when every key is found, the values come back in the order of the keys *)
Lemma popsearch_ok db keys vs :
  Forall2 (fun key v => badger.lookup db key = badger.Ok v) keys vs ->
  Store.popsearch db keys = badger.Ok vs.
Proof.
  intros Hall. unfold Store.popsearch.
  apply (popsearch_loop_ok db keys vs [] (replicate (length keys) EmptyString) Hall).
  apply length_replicate.
Qed.

(** C9. When the lookup of one of the identifiers that [geosearch] returns
    fails, be it that the key is absent or that its value cannot be copied,
    [popsearch] returns an error and no values, and the handler answers with
    the 500 reply: [popsummary] is not run and no aggregate is returned. *)
Theorem store_failure_fails_query `{G : Geodesy}
    (ParseFloat : string -> option float64)
    (poplocs : list Store.poploc) (popbddb : badger.DB)
    (vars : gmap string string) (d : Z) (lat lon : float64)
    (key : string) (e : badger.error) :
  ParseInt (vars !!! "distance"%string) = Some d -> in_distance d = true ->
  ParseFloat (vars !!! "lat"%string) = Some lat -> in_lat lat = true ->
  ParseFloat (vars !!! "lon"%string) = Some lon -> in_lon lon = true ->
  In key (Store.geosearch poplocs (Geo lat lon) (F64.of_int d)) ->
  badger.lookup popbddb key = badger.Err e ->
  (exists e', Store.popsearch popbddb
                (Store.geosearch poplocs (Geo lat lon) (F64.of_int d)) = badger.Err e') /\
  Store.pop2010 ParseFloat poplocs popbddb vars = ([EvGeosearch; EvPopsearch], HS500).
Proof.
  intros Hd Hdr Hlat Hlatr Hlon Hlonr Hin Hfail.
  destruct (popsearch_loop_err popbddb 0 _
              (replicate (length (Store.geosearch poplocs (Geo lat lon) (F64.of_int d)))
                 EmptyString) key e Hin Hfail) as [e' He'].
  fold (Store.popsearch popbddb (Store.geosearch poplocs (Geo lat lon) (F64.of_int d))) in He'.
  split; [exists e'; exact He' |].
  unfold Store.pop2010. rewrite Hd, Hdr, Hlat, Hlatr, Hlon, Hlonr. cbn [negb].
  rewrite He'. reflexivity.
Qed.

Lemma store_failure_fails_query_witness :
  @Store.pop2010 flat ParseFloat_int two_locs one_store (path_vars "2" "0" "0") =
  ([EvGeosearch; EvPopsearch], HS500).
Proof.
  apply (@store_failure_fails_query flat ParseFloat_int two_locs one_store
           (path_vars "2" "0" "0") 2 F64.zero F64.zero "111111111"%string
           badger.ErrKeyNotFound);
    vm_compute; auto.
Defined.

(** ** The binary scan: totals in the width of their variables *)

Lemma Zsum_app l1 l2 : Zsum (l1 ++ l2) = Zsum l1 + Zsum l2.
Proof. unfold Zsum. induction l1 as [| a l1 IH]; cbn; [reflexivity | rewrite IH; lia]. Qed.

Lemma Zsum_perm l1 l2 : l1 ≡ₚ l2 -> Zsum l1 = Zsum l2.
Proof.
  unfold Zsum. induction 1; cbn; lia.
Qed.

Lemma slot_total_app records1 records2 col ix :
  Bin.slot_total (records1 ++ records2) col ix =
  Bin.slot_total records1 col ix + Bin.slot_total records2 col ix.
Proof. unfold Bin.slot_total. rewrite map_app. apply Zsum_app. Qed.

Lemma slot_total_perm records1 records2 col ix :
  records1 ≡ₚ records2 ->
  Bin.slot_total records1 col ix = Bin.slot_total records2 col ix.
Proof. intros H. unfold Bin.slot_total. apply Zsum_perm. rewrite H. reflexivity. Qed.

(** 24 updates in place, one per slot, of an array given slot by slot *)
Lemma fold_insert_seq (g : nat -> Z -> Z) (f : nat -> Z) :
  fold_left (fun pyr ix => <[ix := g ix (nth ix pyr 0)]> pyr) (seq 0 24)
    (map f (seq 0 24)) =
  map (fun ix => g ix (f ix)) (seq 0 24).
Proof. reflexivity. Qed.

(** the slots after one more record, for slots that are sums already *)
Lemma add_slots_map record col (f : nat -> Z) :
  Bin.add_slots record col (map f (seq 0 24)) =
  map (fun ix => Int.add16 (f ix) (Bin.slot record col ix)) (seq 0 24).
Proof.
  exact (fold_insert_seq (fun ix v => Int.add16 v (Bin.slot record col ix)) f).
Qed.

Lemma map_seq_ext (f g : nat -> Z) n :
  (forall ix, f ix = g ix) -> map f (seq 0 n) = map g (seq 0 n).
Proof. intros H. apply map_ext. intros; apply H. Qed.

Lemma accumulate_totals records record :
  Bin.accumulate (Bin.totals records) record = Bin.totals (records ++ [record]).
Proof.
  unfold Bin.accumulate, Bin.totals.
  cbn [Bin.filter2 Bin.population Bin.mpopulation Bin.fpopulation Bin.mpyr Bin.fpyr].
  rewrite !add_slots_map.
  f_equal.
  - rewrite length_app. cbn [length]. lia.
  - rewrite map_app, Zsum_app. unfold Int.add32, Int.int32.
    rewrite wrap_add_l. cbn [map Zsum foldr]. f_equal. unfold Bin.pop32, Int.int32. lia.
  - rewrite slot_total_app. unfold Int.add32, Int.int32.
    rewrite wrap_add_l, wrap_add_r. f_equal.
    unfold Bin.slot_total. cbn [map Zsum foldr]. rewrite Z.add_0_r. reflexivity.
  - rewrite slot_total_app. unfold Int.add32, Int.int32.
    rewrite wrap_add_l, wrap_add_r. f_equal.
    unfold Bin.slot_total. cbn [map Zsum foldr]. rewrite Z.add_0_r. reflexivity.
  - apply map_seq_ext. intros ix. rewrite slot_total_app.
    unfold Int.add16, Int.int16. rewrite wrap_add_l. f_equal.
    unfold Bin.slot_total. cbn [map Zsum foldr]. lia.
  - apply map_seq_ext. intros ix. rewrite slot_total_app.
    unfold Int.add16, Int.int16. rewrite wrap_add_l. f_equal.
    unfold Bin.slot_total. cbn [map Zsum foldr]. lia.
Qed.

Lemma fold_left_nil {A B} (f : A -> B -> A) (a : A) : fold_left f [] a = a.
Proof. reflexivity. Qed.

Lemma fold_left_cons {A B} (f : A -> B -> A) (b : B) (l : list B) (a : A) :
  fold_left f (b :: l) a = fold_left f l (f a b).
Proof. reflexivity. Qed.

Lemma app_cons_assoc {A} (l1 : list A) (a : A) (l2 : list A) :
  (l1 ++ [a]) ++ l2 = l1 ++ a :: l2.
Proof. rewrite <- app_assoc. reflexivity. Qed.

Lemma fold_accumulate_totals done records :
  fold_left Bin.accumulate records (Bin.totals done) = Bin.totals (done ++ records).
Proof.
  revert done. induction records as [| record records IH]; intros done.
  - rewrite fold_left_nil, app_nil_r. reflexivity.
  - rewrite fold_left_cons, accumulate_totals, IH, app_cons_assoc. reflexivity.
Qed.

Lemma totals_nil : Bin.totals [] = Bin.accum0.
Proof. vm_compute. reflexivity. Qed.

Lemma reduce_totals records : Bin.reduce records = Bin.totals records.
Proof.
  unfold Bin.reduce. rewrite <- totals_nil. apply (fold_accumulate_totals [] records).
Qed.

Lemma totals_perm records1 records2 :
  Permutation records1 records2 -> Bin.totals records1 = Bin.totals records2.
Proof.
  intros H. unfold Bin.totals. f_equal.
  - rewrite (Permutation_length H). reflexivity.
  - f_equal. apply Zsum_perm. rewrite H. reflexivity.
  - f_equal. apply slot_total_perm, H.
  - f_equal. apply slot_total_perm, H.
  - apply map_seq_ext. intros ix. f_equal. apply slot_total_perm, H.
  - apply map_seq_ext. intros ix. f_equal. apply slot_total_perm, H.
Qed.

(** ** [popsummary]: totals in 64 bits, or a panic *)

Lemma col_total_app vss1 vss2 i :
  Store.col_total (vss1 ++ vss2) i = Store.col_total vss1 i + Store.col_total vss2 i.
Proof. unfold Store.col_total. rewrite map_app. apply Zsum_app. Qed.

Lemma col_total_one vs i : Store.col_total [vs] i = nth i vs 0.
Proof. unfold Store.col_total. cbn. lia. Qed.

Lemma col_total_perm vss1 vss2 i :
  Permutation vss1 vss2 -> Store.col_total vss1 i = Store.col_total vss2 i.
Proof. intros H. unfold Store.col_total. apply Zsum_perm. rewrite H. reflexivity. Qed.

Lemma store_totals_perm vss1 vss2 :
  Permutation vss1 vss2 -> Store.totals vss1 = Store.totals vss2.
Proof.
  intros H. unfold Store.totals. f_equal;
    try (f_equal; apply col_total_perm, H);
    apply map_seq_ext; intros k; f_equal; apply col_total_perm, H.
Qed.

Lemma store_totals_nil : Store.totals [] = Store.summary0.
Proof. vm_compute. reflexivity. Qed.

Lemma pyr_fold_None r l : fold_left (Store.pyr_step r) l None = None.
Proof. induction l as [| k l IH]; [reflexivity | exact IH]. Qed.

(** the inner loop when every field it reads is an integer *)
Lemma pyr_fold_some r (v : nat -> Z) l : forall m f,
  (forall k : nat, In k l ->
     Store.field r (k + 1) = Some (v (k + 1)%nat) /\
     Store.field r (k + 25) = Some (v (k + 25)%nat)) ->
  fold_left (Store.pyr_step r) l (Some (m, f)) =
  Some (fold_left (fun pyr k => <[k := Int.add64 (nth k pyr 0) (v (k + 1)%nat)]> pyr) l m,
        fold_left (fun pyr k => <[k := Int.add64 (nth k pyr 0) (v (k + 25)%nat)]> pyr) l f).
Proof.
  induction l as [| k l IH]; intros m f H; [reflexivity |].
  rewrite !fold_left_cons.
  destruct (H k (or_introl eq_refl)) as [Hm Hf].
  unfold Store.pyr_step at 2. rewrite Hm, Hf.
  apply IH. intros k' Hk'. apply H. right. exact Hk'.
Qed.

(** the inner loop when one of the fields it reads is missing or malformed *)
Lemma pyr_fold_none r l : forall st,
  (exists k, In k l /\
     (Store.field r (k + 1) = None \/ Store.field r (k + 25) = None)) ->
  fold_left (Store.pyr_step r) l st = None.
Proof.
  induction l as [| k l IH]; intros st (k0 & Hin & Hnone); [destruct Hin |].
  rewrite fold_left_cons.
  destruct Hin as [<- | Hin]; [| apply IH; eauto].
  replace (Store.pyr_step r st k) with (@None (list Z * list Z));
    [apply pyr_fold_None |].
  unfold Store.pyr_step. destruct st as [[m f] |]; [| reflexivity].
  destruct Hnone as [-> | Hf]; [reflexivity |].
  rewrite Hf. destruct (Store.field r (k + 1)); reflexivity.
Qed.

Lemma decode_Some rec vs :
  Store.decode rec = Some vs ->
  forall i, (i < 49)%nat -> Store.field (Split rec) i = Some (nth i vs 0).
Proof.
  intros H i Hi. apply mapM_Some_1 in H.
  assert (Hs : seq 0 49 !! i = Some i) by (rewrite lookup_seq_lt by lia; reflexivity).
  destruct (Forall2_lookup_l _ _ _ _ _ H Hs) as (y & Hy & Hf).
  rewrite Hf. f_equal. symmetry. apply nth_lookup_Some, Hy.
Qed.

Lemma decode_None rec :
  Store.decode rec = None ->
  exists i, (i < 49)%nat /\ Store.field (Split rec) i = None.
Proof.
  intros H. apply mapM_None_1, Exists_exists in H. destruct H as (i & Hin & Hf).
  exists i. split; [| exact Hf]. apply elem_of_seq in Hin. lia.
Qed.

Lemma in_seq_24 k : (k < 24)%nat -> In k (seq 0 24).
Proof. intros H. apply in_seq. lia. Qed.

(** one record more: its 49 integers are added, or the function panics *)
Lemma rec_step_totals vss rec :
  Store.rec_step (Some (Store.totals vss)) rec =
  match Store.decode rec with
  | Some vs => Some (Store.totals (vss ++ [vs]))
  | None => None
  end.
Proof.
  unfold Store.rec_step. cbv zeta.
  destruct (Store.decode rec) as [vs |] eqn:E.
  - pose proof (decode_Some rec vs E) as H.
    rewrite (H 0%nat), (H 1%nat), (H 25%nat) by lia.
    rewrite (pyr_fold_some (Split rec) (fun i => nth i vs 0))
      by (intros k Hk; apply in_seq in Hk; split; apply H; lia).
    remember (Store.totals (vss ++ [vs])) as R eqn:HR. unfold Store.totals.
    cbn [Store.s_pop Store.s_mpop Store.s_fpop Store.s_mpyr Store.s_fpyr].
    rewrite (fold_insert_seq (fun k x => Int.add64 x (nth (k + 1) vs 0))).
    rewrite (fold_insert_seq (fun k x => Int.add64 x (nth (k + 25) vs 0))).
    subst R. unfold Store.totals. f_equal. f_equal;
      try (rewrite col_total_app, col_total_one; unfold Int.add64, Int.int64;
           rewrite wrap_add_l; reflexivity);
      apply map_seq_ext; intros k; rewrite col_total_app, col_total_one;
      unfold Int.add64, Int.int64; rewrite wrap_add_l; reflexivity.
  - destruct (decode_None rec E) as (i & Hi & Hnone).
    destruct (Store.field (Split rec) 0) eqn:E0; [| reflexivity].
    destruct (Store.field (Split rec) 1) eqn:E1; [| reflexivity].
    destruct (Store.field (Split rec) 25) eqn:E25; [| reflexivity].
    rewrite pyr_fold_none; [reflexivity |].
    destruct (le_lt_dec i 24) as [Hle | Hgt].
    + exists (i - 1)%nat. split; [apply in_seq_24; lia |]. left.
      destruct i as [| i]; [rewrite E0 in Hnone; discriminate Hnone |].
      replace (S i - 1 + 1)%nat with (S i) by lia. exact Hnone.
    + exists (i - 25)%nat. split; [apply in_seq_24; lia |]. right.
      replace (i - 25 + 25)%nat with i by lia. exact Hnone.
Qed.

Lemma rec_fold_None recs : fold_left Store.rec_step recs None = None.
Proof. induction recs as [| rec recs IH]; [reflexivity | exact IH]. Qed.

Lemma popsummary_from vss recs :
  fold_left Store.rec_step recs (Some (Store.totals vss)) =
  match mapM Store.decode recs with
  | Some ws => Some (Store.totals (vss ++ ws))
  | None => None
  end.
Proof.
  revert vss. induction recs as [| rec recs IH]; intros vss.
  - cbn. rewrite app_nil_r. reflexivity.
  - rewrite fold_left_cons, rec_step_totals. cbn [mapM].
    destruct (Store.decode rec) as [vs |]; cbn [mbind option_bind].
    + rewrite IH. destruct (mapM Store.decode recs) as [ws |]; cbn.
      * rewrite app_cons_assoc. reflexivity.
      * reflexivity.
    + apply rec_fold_None.
Qed.

(** [popsummary] returns the totals of the decoded records, and panics
    exactly when one record cannot be decoded *)
Lemma popsummary_totals recs :
  Store.popsummary recs =
  match mapM Store.decode recs with
  | Some vss => Some (Store.totals vss)
  | None => None
  end.
Proof.
  unfold Store.popsummary. rewrite <- store_totals_nil.
  apply (popsummary_from [] recs).
Qed.

Lemma mapM_app_option {A B} (f : A -> option B) (l1 l2 : list A) :
  mapM f (l1 ++ l2) =
  match mapM f l1, mapM f l2 with
  | Some k1, Some k2 => Some (k1 ++ k2)
  | _, _ => None
  end.
Proof.
  induction l1 as [| a l1 IH]; cbn.
  - destruct (mapM f l2); reflexivity.
  - destruct (f a); cbn; [| reflexivity]. rewrite IH.
    destruct (mapM f l1), (mapM f l2); reflexivity.
Qed.

Lemma mapM_perm_option {A B} (f : A -> option B) (l1 l2 : list A) :
  Permutation l1 l2 ->
  match mapM f l1, mapM f l2 with
  | Some k1, Some k2 => Permutation k1 k2
  | None, None => True
  | _, _ => False
  end.
Proof.
  induction 1 as [| a l1 l2 _ IH | a b l | l1 l2 l3 _ IH1 _ IH2]; cbn.
  - constructor.
  - destruct (f a); cbn; [| exact I].
    destruct (mapM f l1), (mapM f l2); cbn; try assumption. constructor. exact IH.
  - destruct (f a), (f b); cbn; try exact I.
    destruct (mapM f l); cbn; [constructor | exact I].
  - destruct (mapM f l1), (mapM f l2), (mapM f l3); try assumption; try contradiction.
    etransitivity; eassumption.
Qed.

(** the order of the records does not matter to [popsummary] *)
Lemma popsummary_perm recs1 recs2 :
  Permutation recs1 recs2 -> Store.popsummary recs1 = Store.popsummary recs2.
Proof.
  intros H. rewrite !popsummary_totals.
  pose proof (mapM_perm_option Store.decode recs1 recs2 H) as Hp.
  destruct (mapM Store.decode recs1), (mapM Store.decode recs2);
    try contradiction; [| reflexivity].
  f_equal. apply store_totals_perm, Hp.
Qed.

(** ** The width of the accumulators of the binary scan *)

(** C10. The binary scan of a file of whole records returns, for the
    records [M] that pass both filters: their number; the sum of their
    populations, and of slot 0 of either pyramid, reduced to 32 bits; and in
    every slot of either pyramid the sum of that slot over [M] reduced to 16
    bits, so that a sum above 32767 is not reported as it is. *)
Theorem scan_totals_wrap `{G : Geodesy} (c : cube) (query : Point)
    (dist : float64) (records : list (list byte)) :
  Forall (fun record => length record = Bin.reclen) records ->
  let M := List.filter (Bin.keep c query dist) records in
  exists st,
    Bin.scan c query dist (concat records) Bin.accum0 = Some st /\
    Bin.filter2 st = Z.of_nat (length M) /\
    Bin.population st = Int.wrap 32 (Zsum (map Bin.pop32 M)) /\
    Bin.mpopulation st = Int.wrap 32 (Bin.slot_total M Bin.colmpop 0) /\
    Bin.fpopulation st = Int.wrap 32 (Bin.slot_total M Bin.colfpop 0) /\
    (forall ix, (ix < 24)%nat ->
       nth ix (Bin.mpyr st) 0 = Int.wrap 16 (Bin.slot_total M Bin.colmpop ix) /\
       nth ix (Bin.fpyr st) 0 = Int.wrap 16 (Bin.slot_total M Bin.colfpop ix)).
Proof.
  intros Hall M. exists (Bin.totals M). split.
  - rewrite scan_records by assumption. rewrite fold_body_filter.
    fold M. fold (Bin.reduce M). rewrite reduce_totals. reflexivity.
  - repeat split; try reflexivity.
    + unfold Bin.totals. cbn [Bin.mpyr].
      rewrite (nth_indep _ 0 (Int.int16 (Bin.slot_total M Bin.colmpop 0)))
        by (rewrite length_map, length_seq; lia).
      rewrite (map_nth (fun ix => Int.int16 (Bin.slot_total M Bin.colmpop ix))).
      rewrite seq_nth by lia. reflexivity.
    + unfold Bin.totals. cbn [Bin.fpyr].
      rewrite (nth_indep _ 0 (Int.int16 (Bin.slot_total M Bin.colfpop 0)))
        by (rewrite length_map, length_seq; lia).
      rewrite (map_nth (fun ix => Int.int16 (Bin.slot_total M Bin.colfpop ix))).
      rewrite seq_nth by lia. reflexivity.
Qed.

Lemma scan_totals_wrap_witness :
  let query := @Geo flat F64.zero F64.zero in
  let dist := F64.of_int 2 in
  exists st,
    @Bin.scan flat (bounds (@Forward flat query) dist) query dist
      (concat [block1; block2]) Bin.accum0 = Some st /\
    Bin.mpopulation st = 40000 /\
    nth 1 (Bin.mpyr st) 0 = -25536.
Proof.
  intros query dist.
  destruct (@scan_totals_wrap flat (bounds (@Forward flat query) dist) query dist
              [block1; block2])
    as (st & Hscan & _ & _ & Hm & _ & Hpyr).
  - repeat constructor.
  - exists st. split; [exact Hscan |]. split.
    + rewrite Hm. vm_compute. reflexivity.
    + destruct (Hpyr 1%nat) as [H1 _]; [lia |]. rewrite H1. vm_compute. reflexivity.
Defined.

(** ** A larger radius matches a superset *)

Lemma leb_trans_fin x a b : F64.leb x (F64.Fin a) = true -> a <= b -> F64.leb x (F64.Fin b) = true.
Proof.
  destruct x as [| [|] | n]; cbn; intros H Hab; try congruence.
  apply Z.leb_le. apply Z.leb_le in H. lia.
Qed.

Lemma boundary_mono q d1 d2 :
  1 <= d1 -> d1 <= d2 -> d2 <= 1000000 -> F64.bounded 32 q ->
  round (F64.sub q (F64.of_int d2)) <= round (F64.sub q (F64.of_int d1)) /\
  round (F64.add q (F64.of_int d1)) <= round (F64.add q (F64.of_int d2)).
Proof.
  intros H1 H12 H2 Hq.
  destruct (boundary_bounded q d1 ltac:(lia) Hq) as [Hs1 Ha1].
  destruct (boundary_bounded q d2 ltac:(lia) Hq) as [Hs2 Ha2].
  pose proof unit_pos as Hu.
  assert (Hd : d1 * F64.unit <= d2 * F64.unit) by (apply Z.mul_le_mono_nonneg_r; lia).
  split; apply round_mono; try assumption;
    rewrite !dist_bounded by lia; destruct q as [| | a]; cbn in Hq; try tauto;
    cbn [F64.sub F64.add F64.neg]; apply fl_mono; lia.
Qed.

Section Nested.
Context `{G : Geodesy}.

(** the locations kept at a radius are kept at every larger radius *)
Lemma keep_radius_mono (query : Point) (d1 d2 : Z) (loc : Store.poploc) :
  1 <= d1 -> d1 <= d2 -> d2 <= 1000000 -> coords_bounded (Forward query) ->
  Store.keep (bounds (Forward query) (F64.of_int d1)) query (F64.of_int d1) loc = true ->
  Store.keep (bounds (Forward query) (F64.of_int d2)) query (F64.of_int d2) loc = true.
Proof.
  intros H1 H12 H2 (Hx & Hy & Hz). rewrite !keep_cube_near, !andb_true_iff.
  intros [Hc Hn]. split.
  - apply in_cube_bounds in Hc. apply in_cube_bounds.
    pose proof (boundary_mono _ d1 d2 H1 H12 H2 Hx).
    pose proof (boundary_mono _ d1 d2 H1 H12 H2 Hy).
    pose proof (boundary_mono _ d1 d2 H1 H12 H2 Hz). lia.
  - unfold Store.near in *. rewrite dist_bounded in * by lia.
    eapply leb_trans_fin; [exact Hn |].
    pose proof unit_pos. apply Z.mul_le_mono_nonneg_r; lia.
Qed.

(** X3. The identifiers [geosearch] returns at a radius are among those it
    returns at every larger radius, for a query point whose coordinates are
    finite and of magnitude up to 2^32 meters. *)
Lemma geosearch_radius_mono (locs : list Store.poploc) (query : Point) (d1 d2 : Z) :
  1 <= d1 -> d1 <= d2 -> d2 <= 1000000 -> coords_bounded (Forward query) ->
  forall key, In key (Store.geosearch locs query (F64.of_int d1)) ->
              In key (Store.geosearch locs query (F64.of_int d2)).
Proof.
  intros H1 H12 H2 Hq key. rewrite !geosearch_filter, !in_map_iff.
  intros (loc & Hid & Hin). exists loc. split; [exact Hid |].
  apply filter_In in Hin as [Hin Hk]. apply filter_In. split; [exact Hin |].
  apply (keep_radius_mono query d1 d2); assumption.
Qed.

End Nested.

(** ** The two handlers on one dataset *)

Lemma mkpyramid_ext l l' :
  (forall i, (1 <= i < 24)%nat -> nth i l 0 = nth i l' 0) -> mkpyramid l = mkpyramid l'.
Proof. intros H. unfold mkpyramid. f_equal; apply H; lia. Qed.

Lemma nth_map_seq (f : nat -> Z) i n :
  (i < n)%nat -> nth i (map f (seq 0 n)) 0 = f i.
Proof.
  intros Hi. rewrite (nth_indep _ 0 (f 0%nat)) by (rewrite length_map, length_seq; lia).
  rewrite (map_nth f), seq_nth by lia. reflexivity.
Qed.

Lemma filter_map_comm {A B} (f : A -> B) (p : B -> bool) (l : list A) :
  List.filter p (map f l) = map f (List.filter (fun a => p (f a)) l).
Proof.
  induction l as [| a l IH]; [reflexivity |]. cbn [map List.filter].
  destruct (p (f a)); cbn [map]; rewrite IH; reflexivity.
Qed.

Lemma Forall_filter_keep {A} (P : A -> Prop) (p : A -> bool) (l : list A) :
  Forall P l -> Forall P (List.filter p l).
Proof.
  induction 1 as [| a l Ha _ IH]; [constructor |]. cbn [List.filter].
  destruct (p a); [constructor; assumption | assumption].
Qed.

Lemma Zsum_map_ext {A} (f g : A -> Z) (l : list A) :
  Forall (fun a => f a = g a) l -> Zsum (map f l) = Zsum (map g l).
Proof.
  induction 1 as [| a l Ha _ IH]; [reflexivity |].
  unfold Zsum in *. cbn [map foldr]. rewrite Ha, IH. reflexivity.
Qed.

Lemma between_finite lo hi x : F64.between lo hi x -> exists n, x = F64.Fin n.
Proof. destruct x as [| | n]; cbn; try tauto. eauto. Qed.

Lemma col_total_fields M i : Store.col_total (map blk_fields M) i = field_total M i.
Proof. unfold Store.col_total, field_total. rewrite map_map. reflexivity. Qed.

Lemma pop_total_fields db M :
  Forall (same_block db) M -> Zsum (map Bin.pop32 (map blk_record M)) = field_total M 0.
Proof.
  intros H. rewrite map_map. apply Zsum_map_ext.
  eapply Forall_impl; [exact H |]. intros b Hb. apply Hb.
Qed.

Lemma slot_total_fields db M k :
  Forall (same_block db) M -> (k < 24)%nat ->
  Bin.slot_total (map blk_record M) Bin.colmpop k = field_total M (k + 1) /\
  Bin.slot_total (map blk_record M) Bin.colfpop k = field_total M (k + 25).
Proof.
  intros H Hk. unfold Bin.slot_total. rewrite !map_map.
  split; apply Zsum_map_ext; (eapply Forall_impl; [exact H |]); intros b Hb;
    destruct Hb as (_ & _ & _ & _ & _ & _ & _ & _ & _ & Hs); apply (Hs k Hk).
Qed.

Lemma same_block_in_store db b : same_block db b -> in_store db b.
Proof. intros H. split; apply H. Qed.

Section Agree.
Context `{G : Geodesy}.
Variable ParseFloat : string -> option float64.

Lemma keep_same_block db c query dist b :
  same_block db b -> F64.is_nan dist = false ->
  F64.is_nan (Andoyer query (Geo (Store.lat (blk_loc b)) (Store.lon (blk_loc b)))) = false ->
  Bin.keep c query dist (blk_record b) = Store.keep c query dist (blk_loc b).
Proof.
  intros (_ & Hx & Hy & Hz & Hlat & Hlon & _) Hd Hnan.
  rewrite bin_keep_cube, keep_cube_near, Hx, Hy, Hz.
  unfold Bin.point. rewrite Hlat, Hlon, not_gtb_leb by assumption. reflexivity.
Qed.

(** X15. The one case in which the two tests part: when the geodesy
    library gives a NaN for the distance of a block inside the cube, the
    binary scan counts the block (a NaN is not farther than the radius) and
    [geosearch] leaves it out (a NaN is not at most the radius). *)
Lemma nan_distance_kept_by_scan_only db c query dist b :
  same_block db b ->
  in_cube c (Store.x (blk_loc b)) (Store.y (blk_loc b)) (Store.z (blk_loc b)) = true ->
  Andoyer query (Geo (Store.lat (blk_loc b)) (Store.lon (blk_loc b))) = F64.NaN ->
  Bin.keep c query dist (blk_record b) = true /\
  Store.keep c query dist (blk_loc b) = false.
Proof.
  intros (_ & Hx & Hy & Hz & Hlat & Hlon & _) Hcube Hnan.
  rewrite bin_keep_cube, keep_cube_near, Hx, Hy, Hz, Hcube.
  unfold Bin.point, Store.near. rewrite Hlat, Hlon, Hnan.
  destruct dist as [| [|] | n]; split; reflexivity.
Qed.

(** the reply of the index-and-store handler to a valid query: the totals
    of the matched blocks in 64 bits *)
Lemma store_reply (blocks : list block) (db : badger.DB)
    (vars : gmap string string) (d : Z) (lat lon : float64) :
  ParseInt (vars !!! "distance"%string) = Some d -> in_distance d = true ->
  ParseFloat (vars !!! "lat"%string) = Some lat -> in_lat lat = true ->
  ParseFloat (vars !!! "lon"%string) = Some lon -> in_lon lon = true ->
  Forall (in_store db) blocks ->
  let M := matched blocks lat lon d in
  Store.pop2010 ParseFloat (map blk_loc blocks) db vars =
  ([EvGeosearch; EvPopsearch; EvPopsummary],
   HS200j
     {| Distance := d; Lat := lat; Lon := lon;
        Blocks := Z.of_nat (length M);
        Pop2010 := Int.int64 (field_total M 0);
        Fpop2010 := Int.int64 (field_total M 25);
        Mpop2010 := Int.int64 (field_total M 1);
        Fpyramid := mkpyramid (map (fun k => Int.int64 (field_total M (k + 25))) (seq 0 24));
        Mpyramid := mkpyramid (map (fun k => Int.int64 (field_total M (k + 1))) (seq 0 24)) |}).
Proof.
  intros Hd Hdr Hlat Hlatr Hlon Hlonr Hstore M.
  assert (HM : Forall (in_store db) M) by (apply Forall_filter_keep, Hstore).
  assert (Hkeys : Store.geosearch (map blk_loc blocks) (Geo lat lon) (F64.of_int d) =
                  map (fun b => Store.id (blk_loc b)) M).
  { rewrite geosearch_filter, filter_map_comm, map_map. reflexivity. }
  assert (Hsearch : Store.popsearch db (map (fun b => Store.id (blk_loc b)) M) =
                    badger.Ok (map blk_payload M)).
  { apply popsearch_ok. clear -HM. induction HM as [| b M Hb _ IH]; cbn [map].
    - constructor.
    - constructor; [apply Hb | exact IH]. }
  assert (Hsum : Store.popsummary (map blk_payload M) =
                 Some (Store.totals (map blk_fields M))).
  { rewrite popsummary_totals.
    replace (mapM Store.decode (map blk_payload M))
      with (Some (map blk_fields M)); [reflexivity |].
    symmetry. apply mapM_Some_2. clear -HM.
    induction HM as [| b M Hb _ IH]; cbn [map]; constructor; [apply Hb | exact IH]. }
  destruct (between_finite _ _ _ (proj1 (in_lat_spec lat) Hlatr)) as [nlat Enlat].
  destruct (between_finite _ _ _ (proj1 (in_lon_spec lon) Hlonr)) as [nlon Enlon].
  unfold Store.pop2010. rewrite Hd, Hdr, Hlat, Hlatr, Hlon, Hlonr. cbn [negb].
  rewrite Hkeys, Hsearch, Hsum. cbv zeta.
  unfold Marshal. cbn [Lat Lon]. rewrite Enlat, Enlon.
  unfold Store.totals.
  cbn [Store.s_pop Store.s_mpop Store.s_fpop Store.s_mpyr Store.s_fpyr].
  rewrite !length_map, !col_total_fields. do 3 f_equal.
  - f_equal. apply map_seq_ext. intros k. rewrite col_total_fields. reflexivity.
  - f_equal. apply map_seq_ext. intros k. rewrite col_total_fields. reflexivity.
Qed.

(** the reply of the binary-scan handler to a valid query: the totals of
    the matched blocks in 32 and in 16 bits *)
Lemma scan_reply (blocks : list block) (db : badger.DB)
    (vars : gmap string string) (d : Z) (lat lon : float64) :
  ParseInt (vars !!! "distance"%string) = Some d -> in_distance d = true ->
  ParseFloat (vars !!! "lat"%string) = Some lat -> in_lat lat = true ->
  ParseFloat (vars !!! "lon"%string) = Some lon -> in_lon lon = true ->
  Forall (same_block db) blocks ->
  numbers blocks lat lon ->
  let M := matched blocks lat lon d in
  Bin.pop2010 ParseFloat (Some (concat (map blk_record blocks))) vars =
  ([EvOpen; EvScan],
   HS200j
     {| Distance := d; Lat := lat; Lon := lon;
        Blocks := Z.of_nat (length M);
        Pop2010 := Int.int32 (field_total M 0);
        Fpop2010 := Int.int32 (field_total M 25);
        Mpop2010 := Int.int32 (field_total M 1);
        Fpyramid := mkpyramid (map (fun k => Int.int16 (field_total M (k + 25))) (seq 0 24));
        Mpyramid := mkpyramid (map (fun k => Int.int16 (field_total M (k + 1))) (seq 0 24)) |}).
Proof.
  intros Hd Hdr Hlat Hlatr Hlon Hlonr Hsame Hnan M.
  assert (Hdist : F64.of_int d = F64.Fin (d * F64.unit)).
  { apply dist_bounded, in_distance_spec, Hdr. }
  assert (HM : Forall (same_block db) M) by (apply Forall_filter_keep, Hsame).
  assert (Hscan : Bin.scan (bounds (Forward (Geo lat lon)) (F64.of_int d)) (Geo lat lon)
                    (F64.of_int d) (concat (map blk_record blocks)) Bin.accum0 =
                  Some (Bin.totals (map blk_record M))).
  { rewrite scan_records.
    - rewrite fold_body_filter, filter_map_comm.
      match goal with |- Some (fold_left Bin.accumulate ?l Bin.accum0) = _ =>
        fold (Bin.reduce l) end.
      rewrite reduce_totals. do 3 f_equal. apply filter_ext_In. intros b Hb.
      apply (keep_same_block db).
      + rewrite Forall_forall in Hsame. apply Hsame, list_elem_of_In, Hb.
      + rewrite Hdist. reflexivity.
      + unfold numbers in Hnan. rewrite Forall_forall in Hnan.
        apply Hnan, list_elem_of_In, Hb.
    - apply Forall_forall. intros r Hr. apply list_elem_of_In, in_map_iff in Hr.
      destruct Hr as (b & <- & Hb). rewrite Forall_forall in Hsame.
      apply (Hsame b), list_elem_of_In, Hb. }
  destruct (between_finite _ _ _ (proj1 (in_lat_spec lat) Hlatr)) as [nlat Enlat].
  destruct (between_finite _ _ _ (proj1 (in_lon_spec lon) Hlonr)) as [nlon Enlon].
  pose proof (pop_total_fields db M HM) as Hpop.
  destruct (slot_total_fields db M 0 HM ltac:(lia)) as [Hm0 Hf0].
  unfold Bin.pop2010. rewrite Hd, Hdr, Hlat, Hlatr, Hlon, Hlonr. cbn [negb].
  cbv zeta. rewrite Hscan. unfold Marshal. cbn [Lat Lon].
  rewrite Enlat, Enlon. unfold Bin.totals.
  cbn [Bin.filter2 Bin.population Bin.mpopulation Bin.fpopulation Bin.mpyr Bin.fpyr].
  rewrite !length_map, Hpop, Hm0, Hf0. do 3 f_equal.
  - f_equal. apply map_ext_in. intros k Hk. apply in_seq in Hk.
    destruct (slot_total_fields db M k HM ltac:(lia)) as [_ Hf]. rewrite Hf. reflexivity.
  - f_equal. apply map_ext_in. intros k Hk. apply in_seq in Hk.
    destruct (slot_total_fields db M k HM ltac:(lia)) as [Hm _]. rewrite Hm. reflexivity.
Qed.

(** X14. When no total of the matched blocks leaves the width of the
    variable the binary scan keeps it in (32 bits for the populations, 16
    bits for the reported slots) and no distance is a NaN, the binary-scan
    handler and the index-and-store handler give the same reply to a query
    in range over one dataset held in both forms. *)
Lemma realizations_agree (blocks : list block) (db : badger.DB)
    (vars : gmap string string) (d : Z) (lat lon : float64) :
  ParseInt (vars !!! "distance"%string) = Some d -> in_distance d = true ->
  ParseFloat (vars !!! "lat"%string) = Some lat -> in_lat lat = true ->
  ParseFloat (vars !!! "lon"%string) = Some lon -> in_lon lon = true ->
  Forall (same_block db) blocks ->
  numbers blocks lat lon ->
  fits_scan (matched blocks lat lon d) ->
  exists r,
    Bin.pop2010 ParseFloat (Some (concat (map blk_record blocks))) vars =
      ([EvOpen; EvScan], HS200j r) /\
    Store.pop2010 ParseFloat (map blk_loc blocks) db vars =
      ([EvGeosearch; EvPopsearch; EvPopsummary], HS200j r).
Proof.
  intros Hd Hdr Hlat Hlatr Hlon Hlonr Hsame Hnan [Hfit32 Hfit16].
  set (M := matched blocks lat lon d) in *.
  assert (H32 : forall i, i = 0%nat \/ i = 1%nat \/ i = 25%nat ->
            Int.int32 (field_total M i) = Int.int64 (field_total M i)).
  { intros i Hi. specialize (Hfit32 i Hi). unfold Int.int32, Int.int64.
    rewrite !wrap_small; lia. }
  assert (H16 : forall i, (2 <= i <= 24)%nat \/ (26 <= i <= 48)%nat ->
            Int.int16 (field_total M i) = Int.int64 (field_total M i)).
  { intros i Hi. specialize (Hfit16 i Hi). unfold Int.int16, Int.int64.
    rewrite !wrap_small; lia. }
  eexists. split.
  - apply (scan_reply blocks db vars d lat lon); assumption.
  - rewrite (store_reply blocks db vars d lat lon); try assumption.
    + fold M. do 3 f_equal.
      * symmetry. apply (H32 0%nat). auto.
      * symmetry. apply (H32 25%nat). auto.
      * symmetry. apply (H32 1%nat). auto.
      * apply mkpyramid_ext. intros i Hi. rewrite !nth_map_seq by lia.
        symmetry. apply H16. lia.
      * apply mkpyramid_ext. intros i Hi. rewrite !nth_map_seq by lia.
        symmetry. apply H16. lia.
    + eapply Forall_impl; [exact Hsame |]. apply same_block_in_store.
Qed.

End Agree.

(** ** The index-and-store handler: a larger radius, larger totals *)

Lemma filter_total_mono (blocks : list block) (p1 p2 : block -> bool) i :
  Forall nonneg_block blocks -> (forall b, p1 b = true -> p2 b = true) ->
  0 <= field_total (List.filter p1 blocks) i <= field_total (List.filter p2 blocks) i.
Proof.
  intros Hnn Himp. unfold field_total, Zsum.
  induction Hnn as [| b blocks Hb _ IH]; cbn [List.filter map foldr]; [lia |].
  specialize (Hb i). specialize (Himp b).
  destruct (p1 b), (p2 b); cbn [map foldr];
    first [lia | discriminate (Himp eq_refl)].
Qed.

Lemma filter_length_mono {A} (l : list A) (p1 p2 : A -> bool) :
  (forall a, p1 a = true -> p2 a = true) ->
  (length (List.filter p1 l) <= length (List.filter p2 l))%nat.
Proof.
  intros Himp. induction l as [| a l IH]; cbn [List.filter]; [lia |].
  specialize (Himp a). destruct (p1 a), (p2 a); cbn [length];
    first [lia | discriminate (Himp eq_refl)].
Qed.

Lemma Forall2_map_le {A} (f g : A -> Z) (l : list A) :
  (forall a, f a <= g a) -> Forall2 Z.le (map f l) (map g l).
Proof. intros H. induction l; cbn [map]; constructor; auto. Qed.

Lemma buckets_map_seq (f : nat -> Z) :
  buckets (mkpyramid (map f (seq 0 24))) = map f (seq 1 23).
Proof. reflexivity. Qed.

(** X10. On the index-and-store handler, for blocks without negative
    counts and totals within 64 bits, a larger radius never lowers the number
    of blocks, the population, either gender total or any bucket. *)
Lemma store_aggregates_monotone `{G : Geodesy}
    (ParseFloat : string -> option float64) (blocks : list block)
    (db : badger.DB) (vars1 vars2 : gmap string string)
    (d1 d2 : Z) (lat lon : float64) :
  ParseInt (vars1 !!! "distance"%string) = Some d1 -> in_distance d1 = true ->
  ParseInt (vars2 !!! "distance"%string) = Some d2 -> in_distance d2 = true ->
  ParseFloat (vars1 !!! "lat"%string) = Some lat ->
  ParseFloat (vars2 !!! "lat"%string) = Some lat -> in_lat lat = true ->
  ParseFloat (vars1 !!! "lon"%string) = Some lon ->
  ParseFloat (vars2 !!! "lon"%string) = Some lon -> in_lon lon = true ->
  d1 <= d2 -> coords_bounded (Forward (Geo lat lon)) ->
  Forall (in_store db) blocks -> Forall nonneg_block blocks ->
  (forall i, field_total (matched blocks lat lon d2) i < 2 ^ 63) ->
  exists r1 r2,
    snd (Store.pop2010 ParseFloat (map blk_loc blocks) db vars1) = HS200j r1 /\
    snd (Store.pop2010 ParseFloat (map blk_loc blocks) db vars2) = HS200j r2 /\
    Blocks r1 <= Blocks r2 /\ Pop2010 r1 <= Pop2010 r2 /\
    Mpop2010 r1 <= Mpop2010 r2 /\ Fpop2010 r1 <= Fpop2010 r2 /\
    Forall2 Z.le (buckets (Mpyramid r1)) (buckets (Mpyramid r2)) /\
    Forall2 Z.le (buckets (Fpyramid r1)) (buckets (Fpyramid r2)).
Proof.
  intros Hd1 Hr1 Hd2 Hr2 Hlat1 Hlat2 Hlatr Hlon1 Hlon2 Hlonr Hle Hq Hstore Hnn Hfit.
  pose proof (proj1 (in_distance_spec d1) Hr1) as Hb1.
  pose proof (proj1 (in_distance_spec d2) Hr2) as Hb2.
  assert (Himp : forall b,
    Store.keep (bounds (Forward (Geo lat lon)) (F64.of_int d1)) (Geo lat lon)
      (F64.of_int d1) (blk_loc b) = true ->
    Store.keep (bounds (Forward (Geo lat lon)) (F64.of_int d2)) (Geo lat lon)
      (F64.of_int d2) (blk_loc b) = true).
  { intros b. apply keep_radius_mono; (lia || assumption). }
  assert (Hle64 : forall i,
    Int.int64 (field_total (matched blocks lat lon d1) i) <=
    Int.int64 (field_total (matched blocks lat lon d2) i)).
  { intros i. pose proof (filter_total_mono blocks _ _ i Hnn Himp) as Hm.
    fold (matched blocks lat lon d1) in Hm. fold (matched blocks lat lon d2) in Hm.
    specialize (Hfit i). unfold Int.int64. rewrite !wrap_small; lia. }
  do 2 eexists.
  rewrite (store_reply ParseFloat blocks db vars1 d1 lat lon) by assumption.
  rewrite (store_reply ParseFloat blocks db vars2 d2 lat lon) by assumption.
  cbn [snd]. split; [reflexivity |]. split; [reflexivity |].
  cbn [Blocks Pop2010 Mpop2010 Fpop2010 Mpyramid Fpyramid].
  rewrite !buckets_map_seq. repeat split; try apply Hle64.
  - apply inj_le. apply (filter_length_mono blocks _ _ Himp).
  - apply Forall2_map_le. intros k. apply Hle64.
  - apply Forall2_map_le. intros k. apply Hle64.
Qed.

(** ** Totals that do not fit in 16 bits

    The dataset of two blocks, 20000 boys under five in each. *)

Lemma two_dataset_same : Forall (same_block two_store) two_dataset.
Proof.
  unfold two_dataset.
  apply List.Forall_cons; [| apply List.Forall_cons; [| apply List.Forall_nil]].
  all: unfold same_block; do 9 (split; [vm_compute; reflexivity |]).
  all: intros k Hk; do 24 (destruct k as [| k]; [vm_compute; split; reflexivity |]); lia.
Qed.

Lemma two_dataset_file : concat (map blk_record two_dataset) = two_blocks.
Proof. vm_compute. reflexivity. Qed.

Lemma two_dataset_locs : map blk_loc two_dataset = two_locs.
Proof. reflexivity. Qed.

Section Wrap.
Context `{G : Geodesy}.
Variable ParseFloat : string -> option float64.

(** C3 on the binary scan: whatever the geodesy, when both blocks pass the
    filters the reply counts 2 blocks and reports -25536 boys under five,
    and the sum of that slot over the two records is 40000. *)
Theorem slot_sum_not_reported (vars : gmap string string) (d : Z) (lat lon : float64) :
  ParseInt (vars !!! "distance"%string) = Some d -> in_distance d = true ->
  ParseFloat (vars !!! "lat"%string) = Some lat -> in_lat lat = true ->
  ParseFloat (vars !!! "lon"%string) = Some lon -> in_lon lon = true ->
  numbers two_dataset lat lon ->
  matched two_dataset lat lon d = two_dataset ->
  exists r,
    Bin.pop2010 ParseFloat (Some two_blocks) vars = ([EvOpen; EvScan], HS200j r) /\
    Blocks r = 2 /\
    Bin.slot_total [block1; block2] Bin.colmpop 1 = 40000 /\
    Age00to04 (Mpyramid r) = -25536.
Proof.
  intros Hd Hdr Hlat Hlatr Hlon Hlonr Hnum Hboth.
  pose proof (scan_reply ParseFloat two_dataset two_store vars d lat lon
                Hd Hdr Hlat Hlatr Hlon Hlonr two_dataset_same Hnum) as Hreply.
  cbv zeta in Hreply. rewrite Hboth, two_dataset_file in Hreply.
  eexists. split; [exact Hreply |].
  cbn [Blocks Mpyramid]. repeat split; vm_compute; reflexivity.
Qed.

(** C4 on the binary scan: whatever the geodesy, when the first block alone
    passes the filters at the smaller radius and both pass at the larger,
    the number of blocks grows from 1 to 2 and the boys under five drop from
    20000 to -25536. *)
Theorem larger_radius_smaller_total (vars1 vars2 : gmap string string)
    (d1 d2 : Z) (lat lon : float64) :
  ParseInt (vars1 !!! "distance"%string) = Some d1 -> in_distance d1 = true ->
  ParseInt (vars2 !!! "distance"%string) = Some d2 -> in_distance d2 = true ->
  ParseFloat (vars1 !!! "lat"%string) = Some lat ->
  ParseFloat (vars2 !!! "lat"%string) = Some lat -> in_lat lat = true ->
  ParseFloat (vars1 !!! "lon"%string) = Some lon ->
  ParseFloat (vars2 !!! "lon"%string) = Some lon -> in_lon lon = true ->
  d1 <= d2 -> numbers two_dataset lat lon ->
  matched two_dataset lat lon d1 = [first_block] ->
  matched two_dataset lat lon d2 = two_dataset ->
  exists r1 r2,
    Bin.pop2010 ParseFloat (Some two_blocks) vars1 = ([EvOpen; EvScan], HS200j r1) /\
    Bin.pop2010 ParseFloat (Some two_blocks) vars2 = ([EvOpen; EvScan], HS200j r2) /\
    Blocks r1 = 1 /\ Blocks r2 = 2 /\
    Age00to04 (Mpyramid r1) = 20000 /\ Age00to04 (Mpyramid r2) = -25536.
Proof.
  intros Hd1 Hr1 Hd2 Hr2 Hlat1 Hlat2 Hlatr Hlon1 Hlon2 Hlonr _ Hnum Hone Hboth.
  pose proof (scan_reply ParseFloat two_dataset two_store vars1 d1 lat lon
                Hd1 Hr1 Hlat1 Hlatr Hlon1 Hlonr two_dataset_same Hnum) as Hreply1.
  pose proof (scan_reply ParseFloat two_dataset two_store vars2 d2 lat lon
                Hd2 Hr2 Hlat2 Hlatr Hlon2 Hlonr two_dataset_same Hnum) as Hreply2.
  cbv zeta in Hreply1, Hreply2.
  rewrite Hone, two_dataset_file in Hreply1. rewrite Hboth, two_dataset_file in Hreply2.
  do 2 eexists. split; [exact Hreply1 |]. split; [exact Hreply2 |].
  cbn [Blocks Mpyramid]. repeat split; vm_compute; reflexivity.
Qed.

(** C6: whatever the geodesy, when both blocks pass the filters, the two
    handlers, on the same two blocks, both count 2 blocks, and the binary
    scan reports -25536 boys under five where the index-and-store handler
    reports 40000. *)
Theorem realizations_disagree (vars : gmap string string) (d : Z) (lat lon : float64) :
  ParseInt (vars !!! "distance"%string) = Some d -> in_distance d = true ->
  ParseFloat (vars !!! "lat"%string) = Some lat -> in_lat lat = true ->
  ParseFloat (vars !!! "lon"%string) = Some lon -> in_lon lon = true ->
  numbers two_dataset lat lon ->
  matched two_dataset lat lon d = two_dataset ->
  exists scanned fetched,
    Bin.pop2010 ParseFloat (Some two_blocks) vars = ([EvOpen; EvScan], HS200j scanned) /\
    Store.pop2010 ParseFloat two_locs two_store vars =
      ([EvGeosearch; EvPopsearch; EvPopsummary], HS200j fetched) /\
    Blocks scanned = 2 /\ Blocks fetched = 2 /\
    Age00to04 (Mpyramid scanned) = -25536 /\
    Age00to04 (Mpyramid fetched) = 40000.
Proof.
  intros Hd Hdr Hlat Hlatr Hlon Hlonr Hnum Hboth.
  pose proof (scan_reply ParseFloat two_dataset two_store vars d lat lon
                Hd Hdr Hlat Hlatr Hlon Hlonr two_dataset_same Hnum) as Hscan.
  assert (Hin : Forall (in_store two_store) two_dataset).
  { eapply Forall_impl; [exact two_dataset_same |]. apply same_block_in_store. }
  pose proof (store_reply ParseFloat two_dataset two_store vars d lat lon
                Hd Hdr Hlat Hlatr Hlon Hlonr Hin) as Hstore.
  cbv zeta in Hscan, Hstore.
  rewrite Hboth, two_dataset_file in Hscan. rewrite Hboth, two_dataset_locs in Hstore.
  do 2 eexists. split; [exact Hscan |]. split; [exact Hstore |].
  cbn [Blocks Mpyramid]. repeat split; vm_compute; reflexivity.
Qed.

End Wrap.

Lemma flat_numbers : @numbers flat two_dataset F64.zero F64.zero.
Proof.
  apply List.Forall_cons; [| apply List.Forall_cons; [| apply List.Forall_nil]];
    vm_compute; reflexivity.
Qed.

Lemma slot_sum_not_reported_witness :
  exists r,
    @Bin.pop2010 flat ParseFloat_int (Some two_blocks) (path_vars "2" "0" "0") =
      ([EvOpen; EvScan], HS200j r) /\
    Blocks r = 2 /\
    Bin.slot_total [block1; block2] Bin.colmpop 1 = 40000 /\
    Age00to04 (Mpyramid r) = -25536.
Proof.
  apply (@slot_sum_not_reported flat ParseFloat_int (path_vars "2" "0" "0") 2
           F64.zero F64.zero).
  1-6: vm_compute; reflexivity.
  - exact flat_numbers.
  - vm_compute; reflexivity.
Defined.

Lemma larger_radius_smaller_total_witness :
  exists r1 r2,
    @Bin.pop2010 flat ParseFloat_int (Some two_blocks) (path_vars "1" "0" "0") =
      ([EvOpen; EvScan], HS200j r1) /\
    @Bin.pop2010 flat ParseFloat_int (Some two_blocks) (path_vars "2" "0" "0") =
      ([EvOpen; EvScan], HS200j r2) /\
    Blocks r1 = 1 /\ Blocks r2 = 2 /\
    Age00to04 (Mpyramid r1) = 20000 /\ Age00to04 (Mpyramid r2) = -25536.
Proof.
  apply (@larger_radius_smaller_total flat ParseFloat_int (path_vars "1" "0" "0")
           (path_vars "2" "0" "0") 1 2 F64.zero F64.zero).
  1-10: vm_compute; reflexivity.
  - lia.
  - exact flat_numbers.
  - vm_compute; reflexivity.
  - vm_compute; reflexivity.
Defined.

Lemma realizations_disagree_witness :
  exists scanned fetched,
    @Bin.pop2010 flat ParseFloat_int (Some two_blocks) (path_vars "2" "0" "0") =
      ([EvOpen; EvScan], HS200j scanned) /\
    @Store.pop2010 flat ParseFloat_int two_locs two_store (path_vars "2" "0" "0") =
      ([EvGeosearch; EvPopsearch; EvPopsummary], HS200j fetched) /\
    Blocks scanned = 2 /\ Blocks fetched = 2 /\
    Age00to04 (Mpyramid scanned) = -25536 /\
    Age00to04 (Mpyramid fetched) = 40000.
Proof.
  apply (@realizations_disagree flat ParseFloat_int (path_vars "2" "0" "0") 2
           F64.zero F64.zero).
  1-6: vm_compute; reflexivity.
  - exact flat_numbers.
  - vm_compute; reflexivity.
Defined.

(** ** [round], [geosearch] and [popsearch] on their own *)

(** X1. [round] takes a number to the next integer away from zero: a number
    that is not negative goes up by less than one, a negative number goes
    down by less than one, an integer stays, and [round (-x) = - round x].
    The numbers are those of magnitude up to 2^62, which the conversion to an
    integer holds. *)
Theorem round_away_from_zero (n : Z) :
  Z.abs n <= 2 ^ 62 * F64.unit ->
  (0 <= n -> n <= round (F64.Fin n) * F64.unit < n + F64.unit) /\
  (n < 0 -> n - F64.unit < round (F64.Fin n) * F64.unit <= n) /\
  round (F64.Fin (- n)) = - round (F64.Fin n).
Proof.
  intros Hn. pose proof unit_pos as Hu.
  assert (Hn' : Z.abs (- n) <= 2 ^ 62 * F64.unit) by (rewrite Z.abs_opp; exact Hn).
  rewrite (round_Fin n Hn), (round_Fin (- n) Hn'), Z.opp_involutive.
  pose proof (Z.div_mod n F64.unit ltac:(lia)) as Hdm.
  pose proof (Z.mod_pos_bound n F64.unit Hu) as Hmb.
  pose proof (Z.div_mod (- n) F64.unit ltac:(lia)) as Hdm'.
  pose proof (Z.mod_pos_bound (- n) F64.unit Hu) as Hmb'.
  repeat split; intros.
  - destruct (Z.ltb_spec n 0); nia.
  - destruct (Z.ltb_spec n 0); nia.
  - destruct (Z.ltb_spec n 0); nia.
  - destruct (Z.ltb_spec n 0); nia.
  - destruct (Z.ltb_spec n 0), (Z.ltb_spec (- n) 0); try lia.
    assert (n = 0) as -> by lia. reflexivity.
Qed.

Lemma round_away_from_zero_witness :
  (F64.unit + 1 <= round (F64.Fin (F64.unit + 1)) * F64.unit < F64.unit + 1 + F64.unit) /\
  round (F64.Fin (- (F64.unit + 1))) = - round (F64.Fin (F64.unit + 1)).
Proof.
  destruct (round_away_from_zero (F64.unit + 1)) as (Hpos & _ & Hodd).
  - vm_compute. intro H; discriminate H.
  - split; [apply Hpos; vm_compute; intro H; discriminate H | exact Hodd].
Defined.

Lemma sublist_map_filter {A B} (f : A -> B) (p : A -> bool) (l : list A) :
  sublist (map f (List.filter p l)) (map f l).
Proof.
  induction l as [| a l IH]; cbn; [constructor |].
  destruct (p a); cbn; [apply sublist_skip | apply sublist_cons]; exact IH.
Qed.

(** X2. [geosearch] returns identifiers of the index in the order of the
    index, one for each location it keeps and none besides: an identifier is
    returned exactly when one of its locations has its stored integers
    inside the cube and lies at a distance that is at most the radius. *)
Theorem geosearch_ids_in_order `{G : Geodesy}
    (locs : list Store.poploc) (query : Point) (dist : float64) :
  sublist (Store.geosearch locs query dist) (map Store.id locs) /\
  forall key, In key (Store.geosearch locs query dist) <->
    exists loc, In loc locs /\ Store.id loc = key /\
      in_cube (bounds (Forward query) dist)
        (Store.x loc) (Store.y loc) (Store.z loc) = true /\
      F64.leb (Andoyer query (Geo (Store.lat loc) (Store.lon loc))) dist = true.
Proof.
  rewrite geosearch_filter. split; [apply sublist_map_filter |].
  intros key. rewrite in_map_iff. split.
  - intros (loc & Hid & Hin). apply filter_In in Hin as [Hin Hk].
    rewrite keep_cube_near in Hk. apply andb_true_iff in Hk as [Hc Hn].
    exists loc. auto.
  - intros (loc & Hin & Hid & Hc & Hn). exists loc. split; [exact Hid |].
    apply filter_In. split; [exact Hin |].
    rewrite keep_cube_near, Hc. exact Hn.
Qed.

Lemma lookup_Ok db key v :
  badger.lookup db key = badger.Ok v ->
  exists item, badger.Get db key = badger.Ok item /\ badger.ValueCopy item = badger.Ok v.
Proof.
  unfold badger.lookup. destruct (badger.Get db key) as [item | e]; [| discriminate].
  intros H. exists item. auto.
Qed.

Lemma popsearch_loop_first_err db pre key post e : forall k vals,
  Forall (fun key' => exists v, badger.lookup db key' = badger.Ok v) pre ->
  badger.lookup db key = badger.Err e ->
  Store.popsearch_loop db k (pre ++ key :: post) vals = badger.Err e.
Proof.
  induction pre as [| key' pre IH]; intros k vals Hpre Herr; cbn.
  - unfold badger.lookup in Herr.
    destruct (badger.Get db key) as [item | e']; [| congruence].
    rewrite Herr. reflexivity.
  - apply List.Forall_cons_iff in Hpre as [[v Hv] Hpre].
    apply lookup_Ok in Hv as (item & -> & ->). apply IH; assumption.
Qed.

(** X5. [popsearch] stops at the first key whose lookup fails and returns
    the error of that key, whatever follows it in the list. *)
Theorem popsearch_first_error (db : badger.DB) (pre post : list string)
    (key : string) (e : badger.error) :
  Forall (fun key' => exists v, badger.lookup db key' = badger.Ok v) pre ->
  badger.lookup db key = badger.Err e ->
  Store.popsearch db (pre ++ key :: post) = badger.Err e.
Proof.
  intros Hpre Herr. unfold Store.popsearch.
  apply popsearch_loop_first_err; assumption.
Qed.

Lemma popsearch_first_error_witness :
  Store.popsearch one_store ["000000000"; "111111111"; "000000000"]%string =
  badger.Err badger.ErrKeyNotFound.
Proof.
  apply (popsearch_first_error one_store ["000000000"%string] ["000000000"%string]
           "111111111" badger.ErrKeyNotFound).
  - apply List.Forall_cons; [| apply List.Forall_nil].
    exists payload. vm_compute. reflexivity.
  - vm_compute. reflexivity.
Defined.

Lemma lookup_cases db key :
  (exists v, badger.lookup db key = badger.Ok v) \/
  (exists e, badger.lookup db key = badger.Err e).
Proof. destruct (badger.lookup db key) as [v | e]; eauto. Qed.

Lemma all_found db keys :
  (forall key, In key keys -> exists v, badger.lookup db key = badger.Ok v) ->
  exists vs, Forall2 (fun key v => badger.lookup db key = badger.Ok v) keys vs.
Proof.
  induction keys as [| key keys IH]; intros H.
  - exists []. constructor.
  - destruct (H key (or_introl eq_refl)) as [v Hv].
    destruct IH as [vs Hvs]; [intros k Hk; apply H; right; exact Hk |].
    exists (v :: vs). constructor; assumption.
Qed.

(** X4. [popsearch] returns values exactly when every key is found and its
    value can be copied, and the values are then those of the keys, one for
    each key and in the order of the keys. *)
Theorem popsearch_values (db : badger.DB) (keys vals : list string) :
  Store.popsearch db keys = badger.Ok vals <->
  Forall2 (fun key val => badger.lookup db key = badger.Ok val) keys vals.
Proof.
  split; [| apply popsearch_ok].
  intros Hok.
  destruct (all_found db keys) as [vs Hvs].
  - intros key Hin. destruct (lookup_cases db key) as [Hv | [e He]]; [exact Hv |].
    destruct (popsearch_loop_err db 0 keys (replicate (length keys) EmptyString)
                key e Hin He) as [e' He'].
    unfold Store.popsearch in Hok. congruence.
  - pose proof (popsearch_ok db keys vs Hvs) as Hok'.
    assert (vals = vs) as -> by congruence. exact Hvs.
Qed.

(** ** The handlers on a query in range *)

Section Outcomes.
Context `{G : Geodesy}.
Variable ParseFloat : string -> option float64.

(** the handlers on a query in range, past the three checks *)
Lemma bin_valid vars d lat lon infile :
  valid_query ParseFloat vars d lat lon ->
  Bin.pop2010 ParseFloat infile vars =
  match infile with
  | None => ([EvOpen], HS500)
  | Some rdr =>
      match Bin.scan (bounds (Forward (Geo lat lon)) (F64.of_int d)) (Geo lat lon)
              (F64.of_int d) rdr Bin.accum0 with
      | None => ([EvOpen; EvScan], HS500)
      | Some st =>
          ([EvOpen; EvScan],
           HS200j {| Distance := d; Lat := lat; Lon := lon;
                     Blocks := Bin.filter2 st;
                     Pop2010 := Bin.population st; Fpop2010 := Bin.fpopulation st;
                     Mpop2010 := Bin.mpopulation st;
                     Fpyramid := mkpyramid (Bin.fpyr st);
                     Mpyramid := mkpyramid (Bin.mpyr st) |})
      end
  end.
Proof.
  intros (Hd & Hdr & Hlat & Hlatr & Hlon & Hlonr).
  destruct (between_finite _ _ _ (proj1 (in_lat_spec lat) Hlatr)) as [nlat Enlat].
  destruct (between_finite _ _ _ (proj1 (in_lon_spec lon) Hlonr)) as [nlon Enlon].
  unfold Bin.pop2010. rewrite Hd, Hdr, Hlat, Hlatr, Hlon, Hlonr. cbn [negb].
  destruct infile as [rdr |]; [| reflexivity]. cbv zeta.
  destruct (Bin.scan _ _ _ rdr Bin.accum0) as [st |]; [| reflexivity].
  unfold Marshal. cbn [Lat Lon]. rewrite Enlat, Enlon. reflexivity.
Qed.

Lemma store_valid vars d lat lon poplocs popbddb :
  valid_query ParseFloat vars d lat lon ->
  Store.pop2010 ParseFloat poplocs popbddb vars =
  match Store.popsearch popbddb
          (Store.geosearch poplocs (Geo lat lon) (F64.of_int d)) with
  | badger.Err _ => ([EvGeosearch; EvPopsearch], HS500)
  | badger.Ok recs =>
      match Store.popsummary recs with
      | None => ([EvGeosearch; EvPopsearch; EvPopsummary], Panicked)
      | Some s =>
          ([EvGeosearch; EvPopsearch; EvPopsummary],
           HS200j {| Distance := d; Lat := lat; Lon := lon;
                     Blocks := Z.of_nat (length recs);
                     Pop2010 := Store.s_pop s; Fpop2010 := Store.s_fpop s;
                     Mpop2010 := Store.s_mpop s;
                     Fpyramid := mkpyramid (Store.s_fpyr s);
                     Mpyramid := mkpyramid (Store.s_mpyr s) |})
      end
  end.
Proof.
  intros (Hd & Hdr & Hlat & Hlatr & Hlon & Hlonr).
  destruct (between_finite _ _ _ (proj1 (in_lat_spec lat) Hlatr)) as [nlat Enlat].
  destruct (between_finite _ _ _ (proj1 (in_lon_spec lon) Hlonr)) as [nlon Enlon].
  unfold Store.pop2010. rewrite Hd, Hdr, Hlat, Hlatr, Hlon, Hlonr. cbn [negb].
  cbv zeta.
  destruct (Store.popsearch popbddb _) as [recs | e]; [| reflexivity].
  destruct (Store.popsummary recs) as [s |]; [| reflexivity].
  unfold Marshal. cbn [Lat Lon]. rewrite Enlat, Enlon. reflexivity.
Qed.

Lemma compact_valid vars d lat lon infile :
  valid_query ParseFloat vars d lat lon ->
  Compact.pop2010 ParseFloat infile vars =
  match infile with
  | None => ([EvOpen], Compact.HS500)
  | Some rdr =>
      match Compact.scan (bounds (Forward (Geo lat lon)) (F64.of_int d)) (Geo lat lon)
              (F64.of_int d) rdr Compact.accum0 with
      | None => ([EvOpen; EvScan], Compact.HS500)
      | Some st =>
          ([EvOpen; EvScan],
           Compact.HS200j
             {| Compact.Distance := d; Compact.Lat := lat; Compact.Lon := lon;
                Compact.Blocks := Compact.filter2 st;
                Compact.Pop2010 := Compact.population st |})
      end
  end.
Proof.
  intros (Hd & Hdr & Hlat & Hlatr & Hlon & Hlonr).
  destruct (between_finite _ _ _ (proj1 (in_lat_spec lat) Hlatr)) as [nlat Enlat].
  destruct (between_finite _ _ _ (proj1 (in_lon_spec lon) Hlonr)) as [nlon Enlon].
  unfold Compact.pop2010. rewrite Hd, Hdr, Hlat, Hlatr, Hlon, Hlonr. cbn [negb].
  destruct infile as [rdr |]; [| reflexivity]. cbv zeta.
  destruct (Compact.scan _ _ _ rdr Compact.accum0) as [st |]; [| reflexivity].
  unfold Compact.Marshal. cbn [Compact.Lat Compact.Lon]. rewrite Enlat, Enlon. reflexivity.
Qed.

End Outcomes.

(** ** Files that do not end with a record *)

(** a file cut into records of [m] bytes and what is left at its end *)
Lemma chunks (m : nat) : (0 < m)%nat -> forall (n : nat) (rdr : list byte),
  (length rdr <= n)%nat ->
  exists records tail,
    Forall (fun record => length record = m) records /\
    rdr = concat records ++ tail /\ (length tail < m)%nat.
Proof.
  intros Hm n. induction n as [| n IH]; intros rdr Hn.
  - exists [], rdr. split; [constructor |]. split; [reflexivity | lia].
  - destruct (le_lt_dec m (length rdr)) as [Hge | Hlt].
    + destruct (IH (drop m rdr)) as (records & tail & Hall & Hcat & Htail).
      { rewrite length_drop. lia. }
      exists (take m rdr :: records), tail. split; [| split; [| exact Htail]].
      * constructor; [| exact Hall]. rewrite length_take. lia.
      * cbn [concat]. rewrite <- app_assoc, <- Hcat. symmetry. apply take_drop.
    + exists [], rdr. split; [constructor |]. split; [reflexivity | exact Hlt].
Qed.

Lemma length_concat_records (m : nat) (records : list (list byte)) :
  Forall (fun record => length record = m) records ->
  length (concat records) = (length records * m)%nat.
Proof.
  induction 1 as [| record records Hlen _ IH]; [reflexivity |].
  cbn [concat length]. rewrite length_app, IH, Hlen. lia.
Qed.

Lemma chunks_tail (m : nat) (records : list (list byte)) (tail : list byte) :
  Forall (fun record => length record = m) records -> (length tail < m)%nat ->
  (length (concat records ++ tail) mod m = length tail /\
   length (concat records ++ tail) / m = length records)%nat.
Proof.
  intros Hall Htail. rewrite length_app, (length_concat_records m) by exact Hall.
  split.
  - rewrite Nat.add_comm, Nat.Div0.mod_add. apply Nat.mod_small, Htail.
  - rewrite Nat.add_comm, Nat.div_add by lia. rewrite Nat.div_small by exact Htail.
    reflexivity.
Qed.

Section ScanEnds.
Context `{G : Geodesy}.
Variable ParseFloat : string -> option float64.

Lemma scan_short c query dist tail st :
  (0 < length tail < Bin.reclen)%nat -> Bin.scan c query dist tail st = None.
Proof.
  intros H. rewrite Bin.scan_unfold_eq. unfold Bin.scan_unfold.
  generalize (Bin.inspect (Bin.ReadFull tail)). intros [b e].
  assert (b = Bin.ReadErr) as ->; [| reflexivity].
  rewrite <- e. unfold Bin.ReadFull. destruct tail as [| t tail]; [cbn in H; lia |].
  destruct (decide _) as [Hle | _]; [lia | reflexivity].
Qed.

Lemma scan_ragged c query dist records tail st :
  Forall (fun record => length record = Bin.reclen) records ->
  (0 < length tail < Bin.reclen)%nat ->
  Bin.scan c query dist (concat records ++ tail) st = None.
Proof.
  intros Hall Htail. revert st.
  induction Hall as [| record records Hlen _ IH]; intros st.
  - apply scan_short, Htail.
  - cbn [concat]. rewrite <- app_assoc, scan_app by exact Hlen. apply IH.
Qed.

Lemma scan_whole c query dist records :
  Forall (fun record => length record = Bin.reclen) records ->
  Bin.scan c query dist (concat records) Bin.accum0 =
  Some (Bin.totals (List.filter (Bin.keep c query dist) records)).
Proof.
  intros Hall. rewrite scan_records by exact Hall. rewrite fold_body_filter.
  match goal with |- Some (fold_left Bin.accumulate ?l Bin.accum0) = _ =>
    fold (Bin.reduce l) end.
  rewrite reduce_totals. reflexivity.
Qed.

(** X11. On a query in range, a file whose length is not a multiple of the
    151 bytes of a record makes the binary-scan handler answer 500, with no
    partial totals; a file of whole records, the empty file too, is answered
    with 200, and the number of blocks reported lies between 0 and the number
    of records. *)
Theorem ragged_file_fails (rdr : list byte) (vars : gmap string string)
    (d : Z) (lat lon : float64) :
  valid_query ParseFloat vars d lat lon ->
  ((length rdr mod Bin.reclen <> 0)%nat ->
   Bin.pop2010 ParseFloat (Some rdr) vars = ([EvOpen; EvScan], HS500)) /\
  ((length rdr mod Bin.reclen = 0)%nat ->
   exists r, Bin.pop2010 ParseFloat (Some rdr) vars = ([EvOpen; EvScan], HS200j r) /\
             0 <= Blocks r <= Z.of_nat (length rdr / Bin.reclen)).
Proof.
  intros Hv. rewrite (bin_valid ParseFloat vars d lat lon (Some rdr) Hv).
  destruct (chunks Bin.reclen ltac:(unfold Bin.reclen; lia) (length rdr) rdr (le_n _))
    as (records & tail & Hall & -> & Htail).
  destruct (chunks_tail Bin.reclen records tail Hall Htail) as [Hmod Hdiv].
  rewrite Hmod, Hdiv. split.
  - intros Hne. rewrite scan_ragged by (try exact Hall; lia). reflexivity.
  - intros Hnil. apply length_zero_iff_nil in Hnil. subst tail.
    rewrite app_nil_r, scan_whole by exact Hall.
    eexists. split; [reflexivity |].
    cbn [Blocks]. unfold Bin.totals. cbn [Bin.filter2].
    pose proof (filter_length_le (Bin.keep (bounds (Forward (Geo lat lon)) (F64.of_int d))
      (Geo lat lon) (F64.of_int d)) records). lia.
Qed.

End ScanEnds.

(** ** [popsummary]: panics, exact sums and the slot of the gender total *)

Lemma mapM_None_In {A B} (f : A -> option B) (l : list A) :
  mapM f l = None <-> exists a, In a l /\ f a = None.
Proof.
  induction l as [| a l IH].
  - split; [discriminate | intros (a & [] & _)].
  - change (a :: l) with ([a] ++ l). rewrite mapM_app_option. cbn [mapM].
    destruct (f a) as [b |] eqn:Ea; cbn.
    + destruct (mapM f l) as [k |].
      * split; [discriminate |]. intros (a' & [<- | Hin] & Hnone); [congruence |].
        destruct IH as [_ IH]. discriminate IH. eauto.
      * split; [| reflexivity]. intros _. destruct IH as [IH _].
        destruct (IH eq_refl) as (a' & Hin & Hnone). exists a'. split; [right |]; assumption.
    + split; [| reflexivity]. intros _. exists a. split; [left; reflexivity | exact Ea].
Qed.

Lemma decode_None_iff rec :
  Store.decode rec = None <-> exists i, (i < 49)%nat /\ Store.field (Split rec) i = None.
Proof.
  split; [apply decode_None |]. intros (i & Hi & Hnone).
  destruct (Store.decode rec) as [vs |] eqn:E; [| reflexivity].
  rewrite (decode_Some rec vs E i Hi) in Hnone. discriminate Hnone.
Qed.

(** X6. [popsummary] panics exactly when one of the records lacks one of
    its first 49 fields or holds there something that is not an integer;
    what follows the 49th field is never looked at. *)
Theorem popsummary_panics_iff (recs : list string) :
  Store.popsummary recs = None <->
  exists rec i, In rec recs /\ (i < 49)%nat /\ Store.field (Split rec) i = None.
Proof.
  rewrite popsummary_totals. split.
  - destruct (mapM Store.decode recs) as [vss |] eqn:E; [discriminate |]. intros _.
    apply mapM_None_In in E as (rec & Hin & Hnone).
    apply decode_None_iff in Hnone as (i & Hi & Hnone). eauto.
  - intros (rec & i & Hin & Hi & Hnone).
    replace (mapM Store.decode recs) with (@None (list (list Z))); [reflexivity |].
    symmetry. apply mapM_None_In. exists rec. split; [exact Hin |].
    apply decode_None_iff. eauto.
Qed.

(** X7. When every record has its 49 integers and every column sum fits
    in 64 bits, [popsummary] returns the column sums themselves: the
    population from field 0, the male total from field 1, the female total
    from field 25 and slot k of either pyramid from fields k+1 and k+25. *)
Theorem popsummary_exact (recs : list string) (vss : list (list Z)) :
  mapM Store.decode recs = Some vss ->
  (forall i, (i < 49)%nat -> - 2 ^ 63 <= Store.col_total vss i < 2 ^ 63) ->
  Store.popsummary recs =
  Some {| Store.s_pop := Store.col_total vss 0;
          Store.s_mpop := Store.col_total vss 1;
          Store.s_fpop := Store.col_total vss 25;
          Store.s_mpyr := map (fun k => Store.col_total vss (k + 1)) (seq 0 24);
          Store.s_fpyr := map (fun k => Store.col_total vss (k + 25)) (seq 0 24) |}.
Proof.
  intros Hdec Hfit. rewrite popsummary_totals, Hdec. unfold Store.totals.
  assert (H64 : forall i, (i < 49)%nat ->
            Int.int64 (Store.col_total vss i) = Store.col_total vss i).
  { intros i Hi. unfold Int.int64. apply wrap_small; [lia |]. apply Hfit, Hi. }
  rewrite !H64 by lia. do 2 f_equal.
  - apply map_ext_in. intros k Hk. apply in_seq in Hk. apply H64. lia.
  - apply map_ext_in. intros k Hk. apply in_seq in Hk. apply H64. lia.
Qed.

Lemma popsummary_exact_witness :
  Store.popsummary [payload; payload] =
  Some {| Store.s_pop := 40000; Store.s_mpop := 40000; Store.s_fpop := 0;
          Store.s_mpyr := 40000 :: 40000 :: replicate 22 0;
          Store.s_fpyr := replicate 24 0 |}.
Proof.
  rewrite (popsummary_exact [payload; payload] [fields_boys; fields_boys]).
  - vm_compute. reflexivity.
  - vm_compute. reflexivity.
  - intros i Hi.
    do 49 (destruct i as [| i]; [vm_compute; split; [discriminate | reflexivity] |]). lia.
Defined.

(** X8. In every result of [popsummary] both pyramids have 24 slots, and
    slot 0 of a pyramid is the total of its gender: it is summed from the
    same field. *)
Theorem gender_total_in_slot_zero (recs : list string) (s : Store.summary) :
  Store.popsummary recs = Some s ->
  length (Store.s_mpyr s) = 24%nat /\ length (Store.s_fpyr s) = 24%nat /\
  nth 0 (Store.s_mpyr s) 0 = Store.s_mpop s /\
  nth 0 (Store.s_fpyr s) 0 = Store.s_fpop s.
Proof.
  rewrite popsummary_totals.
  destruct (mapM Store.decode recs) as [vss |]; [| discriminate].
  intros [= <-]. unfold Store.totals.
  cbn [Store.s_mpyr Store.s_fpyr Store.s_mpop Store.s_fpop].
  rewrite !length_map, !length_seq, !nth_map_seq by lia. auto.
Qed.

Lemma gender_total_in_slot_zero_witness :
  exists s, Store.popsummary [payload; payload] = Some s /\
            nth 0 (Store.s_mpyr s) 0 = Store.s_mpop s.
Proof.
  destruct (Store.popsummary [payload; payload]) as [s |] eqn:E.
  - exists s. split; [reflexivity |].
    apply (gender_total_in_slot_zero [payload; payload] s E).
  - vm_compute in E. discriminate E.
Defined.

Section Panics.
Context `{G : Geodesy}.
Variable ParseFloat : string -> option float64.

(** X9. On a query in range, when every lookup succeeds and one of the
    payloads lacks one of its 49 integers, the index-and-store handler
    panics in [popsummary]: it writes no reply, neither 500 nor 200. *)
Theorem malformed_payload_panics (poplocs : list Store.poploc) (popbddb : badger.DB)
    (vars : gmap string string) (d : Z) (lat lon : float64)
    (recs : list string) (rec : string) (i : nat) :
  valid_query ParseFloat vars d lat lon ->
  Store.popsearch popbddb (Store.geosearch poplocs (Geo lat lon) (F64.of_int d)) =
    badger.Ok recs ->
  In rec recs -> (i < 49)%nat -> Store.field (Split rec) i = None ->
  Store.pop2010 ParseFloat poplocs popbddb vars =
    ([EvGeosearch; EvPopsearch; EvPopsummary], Panicked).
Proof.
  intros Hv Hsearch Hin Hi Hnone.
  rewrite (store_valid ParseFloat vars d lat lon poplocs popbddb Hv), Hsearch.
  replace (Store.popsummary recs) with (@None Store.summary); [reflexivity |].
  symmetry. rewrite popsummary_totals.
  replace (mapM Store.decode recs) with (@None (list (list Z))); [reflexivity |].
  symmetry. apply mapM_None_In. exists rec. split; [exact Hin |].
  apply decode_None_iff. eauto.
Qed.

End Panics.

Lemma flat_valid (distance : string) (d : Z) :
  ParseInt distance = Some d -> in_distance d = true ->
  valid_query ParseFloat_int (path_vars distance "0" "0") d F64.zero F64.zero.
Proof.
  intros Hd Hr. unfold valid_query.
  split; [exact Hd |]. split; [exact Hr |].
  do 3 (split; [vm_compute; reflexivity |]). vm_compute. reflexivity.
Qed.

Lemma malformed_payload_panics_witness :
  @Store.pop2010 flat ParseFloat_int two_locs short_store (path_vars "1" "0" "0") =
    ([EvGeosearch; EvPopsearch; EvPopsummary], Panicked).
Proof.
  apply (@malformed_payload_panics flat ParseFloat_int two_locs short_store
           (path_vars "1" "0" "0") 1 F64.zero F64.zero
           ["20000,20000"%string] "20000,20000" 2).
  - apply flat_valid; reflexivity.
  - vm_compute. reflexivity.
  - left. reflexivity.
  - lia.
  - vm_compute. reflexivity.
Defined.

Lemma ragged_file_fails_witness :
  @Bin.pop2010 flat ParseFloat_int (Some (block1 ++ [x00])) (path_vars "2" "0" "0") =
    ([EvOpen; EvScan], HS500).
Proof.
  apply (@ragged_file_fails flat ParseFloat_int (block1 ++ [x00])
           (path_vars "2" "0" "0") 2 F64.zero F64.zero).
  - apply flat_valid; reflexivity.
  - vm_compute. discriminate.
Defined.

(** ** The binary scan: slot 0, and the bytes it does not read *)

Lemma int16_int32 v : Int.int16 (Int.int32 v) = Int.int16 v.
Proof.
  unfold Int.int16, Int.int32, Int.wrap. f_equal.
  rewrite (Z.mod_eq (v + 2 ^ (32 - 1)) (2 ^ 32)) by lia.
  set (q := (v + 2 ^ (32 - 1)) / 2 ^ 32).
  replace (v + 2 ^ (32 - 1) - 2 ^ 32 * q - 2 ^ (32 - 1) + 2 ^ (16 - 1))
    with (v + 2 ^ (16 - 1) + (- q * 2 ^ 16) * 2 ^ 16) by lia.
  apply Z_mod_plus_full.
Qed.

Section SlotZero.
Context `{G : Geodesy}.

Lemma scan_Some c query dist rdr st :
  Bin.scan c query dist rdr Bin.accum0 = Some st ->
  exists records,
    Forall (fun record => length record = Bin.reclen) records /\
    rdr = concat records /\
    st = Bin.totals (List.filter (Bin.keep c query dist) records).
Proof.
  destruct (chunks Bin.reclen ltac:(unfold Bin.reclen; lia) (length rdr) rdr (le_n _))
    as (records & tail & Hall & -> & Htail).
  destruct tail as [| t tail].
  - rewrite app_nil_r, scan_whole by exact Hall. intros [= <-].
    exists records. auto.
  - rewrite scan_ragged by (try exact Hall; cbn [length] in *; lia). discriminate.
Qed.

(** X12. Whenever the binary scan reaches the end of the file, both
    pyramids have 24 slots and slot 0 of a pyramid is the total of its
    gender, reduced to 16 bits: both are summed from the same two bytes. *)
Theorem scan_gender_total_in_slot_zero (c : cube) (query : Point) (dist : float64)
    (rdr : list byte) (st : Bin.accum) :
  Bin.scan c query dist rdr Bin.accum0 = Some st ->
  length (Bin.mpyr st) = 24%nat /\ length (Bin.fpyr st) = 24%nat /\
  nth 0 (Bin.mpyr st) 0 = Int.int16 (Bin.mpopulation st) /\
  nth 0 (Bin.fpyr st) 0 = Int.int16 (Bin.fpopulation st).
Proof.
  intros Hscan. apply scan_Some in Hscan as (records & _ & _ & ->).
  unfold Bin.totals.
  cbn [Bin.mpyr Bin.fpyr Bin.mpopulation Bin.fpopulation].
  rewrite !length_map, !length_seq, !nth_map_seq, !int16_int32 by lia. auto.
Qed.

End SlotZero.

Lemma scan_gender_total_in_slot_zero_witness :
  let query := @Geo flat F64.zero F64.zero in
  let dist := F64.of_int 2 in
  exists st,
    @Bin.scan flat (bounds (@Forward flat query) dist) query dist
      (concat [block1; block2]) Bin.accum0 = Some st /\
    nth 0 (Bin.mpyr st) 0 = Int.int16 (Bin.mpopulation st).
Proof.
  intros query dist.
  pose proof (@scan_whole flat (bounds (@Forward flat query) dist) query dist
                [block1; block2] ltac:(repeat constructor)) as E.
  destruct (@scan_gender_total_in_slot_zero flat _ query dist _ _ E)
    as (_ & _ & Hm & _).
  eexists. split; [exact E | exact Hm].
Defined.

(** ** The bytes of a record that the scan never reads *)

Lemma slice_ext (r1 r2 : list byte) (lo hi : nat) :
  (forall i : nat, (lo <= i < hi)%nat -> r1 !! i = r2 !! i) ->
  slice r1 lo hi = slice r2 lo hi.
Proof.
  intros H. unfold slice. apply list_eq. intros i.
  rewrite !lookup_take, !lookup_drop.
  destruct (decide (i < hi - lo)%nat); [apply H; lia | reflexivity].
Qed.

Lemma fold_left_ext_In {A B} (f g : A -> B -> A) (l : list B) : forall a,
  (forall a b, In b l -> f a b = g a b) -> fold_left f l a = fold_left g l a.
Proof.
  induction l as [| b l IH]; intros a H; [reflexivity |].
  cbn [fold_left]. rewrite (H a b (or_introl eq_refl)).
  apply IH. intros a' b' Hin. apply H. right. exact Hin.
Qed.

Lemma add_slots_ext r1 r2 col pyr :
  (forall ix, (ix < 24)%nat -> Bin.slot r1 col ix = Bin.slot r2 col ix) ->
  Bin.add_slots r1 col pyr = Bin.add_slots r2 col pyr.
Proof.
  intros H. unfold Bin.add_slots. apply fold_left_ext_In.
  intros a ix Hin. apply in_seq in Hin. rewrite H by lia. reflexivity.
Qed.

Section Unread.
Context `{G : Geodesy}.
Variable ParseFloat : string -> option float64.

Lemma read_alike_body c query dist st r1 r2 :
  read_alike r1 r2 -> Bin.body c query dist st r1 = Bin.body c query dist st r2.
Proof.
  intros H.
  assert (Hs : forall lo hi, (9 <= lo /\ hi <= 53)%nat \/ (55 <= lo /\ hi <= 151)%nat ->
            slice r1 lo hi = slice r2 lo hi).
  { intros lo hi Hr. apply slice_ext. intros i Hi. apply H. lia. }
  assert (Hslot : forall col, col = Bin.colmpop \/ col = Bin.colfpop ->
            forall ix, (ix < 24)%nat -> Bin.slot r1 col ix = Bin.slot r2 col ix).
  { intros col Hcol ix Hix. unfold Bin.slot. rewrite Hs; [reflexivity |].
    right. destruct Hcol as [-> | ->];
      [change Bin.colmpop with 55%nat | change Bin.colfpop with 103%nat]; lia. }
  assert (Hkeep : Bin.keep c query dist r1 = Bin.keep c query dist r2).
  { unfold Bin.keep, Bin.xs, Bin.ys, Bin.zs, Bin.lats, Bin.lons.
    rewrite (Hs Bin.colx), (Hs Bin.coly), (Hs Bin.colz), (Hs Bin.collat), (Hs Bin.collon);
      [reflexivity | left; vm_compute; lia ..]. }
  assert (Hacc : Bin.accumulate st r1 = Bin.accumulate st r2).
  { unfold Bin.accumulate, Bin.pops, Bin.mpops, Bin.fpops.
    rewrite (Hs Bin.colpop), (Hs Bin.colmpop), (Hs Bin.colfpop);
      [| right; vm_compute; lia | right; vm_compute; lia | left; vm_compute; lia].
    rewrite (add_slots_ext r1 r2 Bin.colmpop), (add_slots_ext r1 r2 Bin.colfpop);
      [reflexivity | apply Hslot; auto ..]. }
  unfold Bin.body. rewrite Hkeep, Hacc. reflexivity.
Qed.

Lemma read_alike_scan c query dist records1 records2 :
  Forall2 (fun r1 r2 => length r1 = Bin.reclen /\ length r2 = Bin.reclen /\
                        read_alike r1 r2) records1 records2 ->
  forall st, Bin.scan c query dist (concat records1) st =
             Bin.scan c query dist (concat records2) st.
Proof.
  induction 1 as [| r1 r2 records1 records2 (H1 & H2 & Hr) _ IH]; intros st;
    [reflexivity |].
  cbn [concat]. rewrite !scan_app by assumption.
  rewrite (read_alike_body c query dist st r1 r2 Hr). apply IH.
Qed.

(** X13. The reply of the binary-scan handler does not depend on the 9
    bytes of the identifier nor on bytes 53 and 54 of any record: two files
    of whole records that agree everywhere else get the same reply to every
    request. *)
Theorem unread_bytes_ignored (records1 records2 : list (list byte))
    (vars : gmap string string) :
  Forall2 (fun r1 r2 => length r1 = Bin.reclen /\ length r2 = Bin.reclen /\
                        read_alike r1 r2) records1 records2 ->
  Bin.pop2010 ParseFloat (Some (concat records1)) vars =
  Bin.pop2010 ParseFloat (Some (concat records2)) vars.
Proof.
  intros H. unfold Bin.pop2010.
  destruct (ParseInt _) as [distance |]; [| reflexivity].
  destruct (negb (in_distance distance)); [reflexivity |].
  destruct (ParseFloat (vars !!! "lat"%string)) as [lat |]; [| reflexivity].
  destruct (negb (in_lat lat)); [reflexivity |].
  destruct (ParseFloat (vars !!! "lon"%string)) as [lon |]; [| reflexivity].
  destruct (negb (in_lon lon)); [reflexivity |].
  cbv zeta. rewrite (read_alike_scan _ _ _ records1 records2 H). reflexivity.
Qed.

End Unread.

Lemma read_alikeb_sound r1 r2 : read_alikeb r1 r2 = true -> read_alike r1 r2.
Proof.
  unfold read_alikeb. rewrite forallb_forall. intros H i Hi.
  specialize (H i). unfold same_byte in H.
  assert (Hin : In i (seq 9 44 ++ seq 55 96)).
  { apply in_app_iff. rewrite !in_seq. lia. }
  specialize (H Hin).
  destruct (r1 !! i) as [a |], (r2 !! i) as [b |]; try discriminate H; [| reflexivity].
  f_equal. apply Byte.byte_dec_bl, H.
Qed.

Lemma unread_bytes_ignored_witness :
  @Bin.pop2010 flat ParseFloat_int (Some (concat [block1; block2]))
    (path_vars "2" "0" "0") =
  @Bin.pop2010 flat ParseFloat_int (Some (concat [block1_renamed; block2]))
    (path_vars "2" "0" "0").
Proof.
  apply (@unread_bytes_ignored flat ParseFloat_int [block1; block2]
           [block1_renamed; block2]).
  repeat constructor; try (apply read_alikeb_sound; vm_compute; reflexivity).
Defined.

(** ** The compact handler and the extended handler *)

Lemma slice_take (r : list byte) (n lo hi : nat) :
  (hi <= n)%nat -> slice (take n r) lo hi = slice r lo hi.
Proof.
  intros H. unfold slice. apply list_eq. intros i.
  rewrite !lookup_take, !lookup_drop, lookup_take.
  destruct (decide (i < hi - lo)%nat); [| reflexivity].
  destruct (decide (lo + i < n)%nat); [reflexivity | lia].
Qed.

Section CompactFacts.
Context `{G : Geodesy}.
Variable ParseFloat : string -> option float64.

Lemma compact_ReadFull_app record rest :
  length record = Compact.reclen ->
  Compact.ReadFull (record ++ rest) = Compact.ReadOk record rest.
Proof.
  intros Hlen. unfold Compact.ReadFull.
  destruct (record ++ rest) as [| b l] eqn:E.
  - apply (f_equal length) in E. rewrite length_app, Hlen in E. discriminate.
  - rewrite <- E. destruct (decide _) as [_ | Hn].
    + rewrite <- Hlen, take_app_length, drop_app_length. reflexivity.
    + rewrite length_app, Hlen in Hn. lia.
Qed.

Lemma compact_scan_nil c query dist st : Compact.scan c query dist [] st = Some st.
Proof. simp scan. reflexivity. Qed.

Lemma compact_scan_app c query dist record rest st :
  length record = Compact.reclen ->
  Compact.scan c query dist (record ++ rest) st =
  Compact.scan c query dist rest (Compact.body c query dist st record).
Proof.
  intros Hlen. rewrite (Compact.scan_unfold_eq c query dist (record ++ rest)).
  unfold Compact.scan_unfold.
  generalize (Bin.inspect (Compact.ReadFull (record ++ rest))).
  intros [b e]. pose proof (compact_ReadFull_app record rest Hlen) as Hr.
  assert (b = Compact.ReadOk record rest) as -> by congruence. reflexivity.
Qed.

Lemma compact_scan_records c query dist records st :
  Forall (fun record => length record = Compact.reclen) records ->
  Compact.scan c query dist (concat records) st =
  Some (fold_left (Compact.body c query dist) records st).
Proof.
  intros Hall. revert st. induction Hall as [| record records Hlen _ IH]; intros st.
  - apply compact_scan_nil.
  - cbn [concat fold_left]. rewrite compact_scan_app by assumption. apply IH.
Qed.

(** a compact record that is the head of an extended record passes the
    filters when the extended record does *)
Lemma compact_keep_take c query dist record :
  Compact.keep c query dist (take Compact.reclen record) = Bin.keep c query dist record.
Proof.
  unfold Compact.keep, Bin.keep, Compact.xs, Compact.ys, Compact.zs, Compact.lats,
    Compact.lons, Bin.xs, Bin.ys, Bin.zs, Bin.lats, Bin.lons.
  rewrite !slice_take by (vm_compute; lia). reflexivity.
Qed.

Lemma compact_accumulate_take st record :
  Compact.accumulate st (take Compact.reclen record) =
  {| Compact.filter2 := Compact.filter2 st + 1;
     Compact.population := Int.add32 (Compact.population st) (Bin.pop32 record) |}.
Proof.
  unfold Compact.accumulate, Bin.pop32, Compact.pops, Bin.pops.
  rewrite slice_take by (vm_compute; lia). reflexivity.
Qed.

Lemma compact_fold c query dist records : forall done,
  fold_left (Compact.body c query dist) (map (take Compact.reclen) records)
    {| Compact.filter2 := Z.of_nat (length done);
       Compact.population := Int.int32 (Zsum (map Bin.pop32 done)) |} =
  {| Compact.filter2 :=
       Z.of_nat (length (done ++ List.filter (Bin.keep c query dist) records));
     Compact.population :=
       Int.int32 (Zsum (map Bin.pop32
                          (done ++ List.filter (Bin.keep c query dist) records))) |}.
Proof.
  induction records as [| record records IH]; intros done.
  - cbn [map fold_left List.filter]. rewrite app_nil_r. reflexivity.
  - cbn [map List.filter]. rewrite fold_left_cons. unfold Compact.body at 2.
    rewrite compact_keep_take.
    destruct (Bin.keep c query dist record); [| apply IH].
    rewrite compact_accumulate_take. cbn [Compact.filter2 Compact.population].
    rewrite <- app_cons_assoc, <- IH. f_equal.
    rewrite length_app, map_app, Zsum_app. cbn [length map Zsum foldr].
    f_equal; [lia |]. unfold Int.add32, Int.int32.
    rewrite wrap_add_l, Z.add_0_r. reflexivity.
Qed.

Lemma compact_scan_whole c query dist records :
  Forall (fun record => length record = Bin.reclen) records ->
  Compact.scan c query dist (concat (map (take Compact.reclen) records)) Compact.accum0 =
  Some {| Compact.filter2 :=
            Z.of_nat (length (List.filter (Bin.keep c query dist) records));
          Compact.population :=
            Int.int32 (Zsum (map Bin.pop32 (List.filter (Bin.keep c query dist) records))) |}.
Proof.
  intros Hall. rewrite compact_scan_records.
  - f_equal. apply (compact_fold c query dist records []).
  - apply Forall_forall. intros r Hr. apply list_elem_of_In, in_map_iff in Hr.
    destruct Hr as (record & <- & Hin). rewrite Forall_forall in Hall.
    apply list_elem_of_In, Hall in Hin. rewrite length_take, Hin. reflexivity.
Qed.

(** X16. On a file of whole 151-byte records and on the file that keeps
    the first 53 bytes of each, the extended and the compact handler give
    the same status to every request, start the same operations, and in a
    200 reply agree on the distance, the latitude, the longitude, the number
    of blocks and the population. *)
Theorem compact_reply_is_extended_reply (records : list (list byte))
    (vars : gmap string string) :
  Forall (fun record => length record = Bin.reclen) records ->
  let extended := Bin.pop2010 ParseFloat (Some (concat records)) vars in
  let compact :=
    Compact.pop2010 ParseFloat
      (Some (concat (map (take Compact.reclen) records))) vars in
  fst compact = fst extended /\
  narrow_response (snd extended) = Some (snd compact).
Proof.
  intros Hall. cbv zeta. unfold Bin.pop2010, Compact.pop2010.
  destruct (ParseInt _) as [distance |]; [| split; reflexivity].
  destruct (negb (in_distance distance)); [split; reflexivity |].
  destruct (ParseFloat (vars !!! "lat"%string)) as [lat |]; [| split; reflexivity].
  destruct (negb (in_lat lat)); [split; reflexivity |].
  destruct (ParseFloat (vars !!! "lon"%string)) as [lon |]; [| split; reflexivity].
  destruct (negb (in_lon lon)); [split; reflexivity |].
  cbv zeta. rewrite scan_whole, compact_scan_whole by exact Hall.
  unfold Marshal, Compact.Marshal. cbn [Lat Lon Compact.Lat Compact.Lon].
  destruct lat as [| slat | nlat]; [split; reflexivity | split; reflexivity |].
  destruct lon as [| slon | nlon]; split; reflexivity.
Qed.

End CompactFacts.

Lemma compact_reply_is_extended_reply_witness :
  narrow_response (snd (@Bin.pop2010 flat ParseFloat_int (Some (concat [block1; block2]))
                          (path_vars "2" "0" "0"))) =
  Some (snd (@Compact.pop2010 flat ParseFloat_int
               (Some (concat (map (take Compact.reclen) [block1; block2])))
               (path_vars "2" "0" "0"))).
Proof.
  apply (@compact_reply_is_extended_reply flat ParseFloat_int [block1; block2]
           (path_vars "2" "0" "0")).
  repeat constructor.
Defined.

(** ** The index file *)

Section IndexFacts.
Variable ParseFloat : string -> option float64.

Lemma loadpoplocs_loop_ok rows : forall locs done,
  Forall2 (fun row loc => Index.mkloc ParseFloat row = Some loc) rows locs ->
  Index.loadpoplocs_loop ParseFloat (map Index.Rec rows) done = Some (done ++ locs).
Proof.
  induction rows as [| row rows IH]; intros locs done Hall.
  - apply Forall2_nil_inv_l in Hall as ->. rewrite app_nil_r. reflexivity.
  - apply Forall2_cons_inv_l in Hall as (loc & locs' & Hloc & Hall & ->).
    cbn [map Index.loadpoplocs_loop]. rewrite Hloc, (IH locs') by exact Hall.
    rewrite <- app_assoc. reflexivity.
Qed.

Lemma loadpoplocs_loop_Some reads : forall done locs,
  Index.loadpoplocs_loop ParseFloat reads done = Some locs ->
  exists rows new,
    reads = map Index.Rec rows /\ locs = done ++ new /\
    Forall2 (fun row loc => Index.mkloc ParseFloat row = Some loc) rows new.
Proof.
  induction reads as [| r reads IH]; intros done locs H.
  - cbn in H. injection H as <-. exists [], []. rewrite app_nil_r.
    split; [reflexivity |]. split; [reflexivity | constructor].
  - destruct r as [row |]; [| discriminate H]. cbn [Index.loadpoplocs_loop] in H.
    destruct (Index.mkloc ParseFloat row) as [loc |] eqn:Hloc; [| discriminate H].
    apply IH in H as (rows & new & -> & -> & Hall).
    exists (row :: rows), (loc :: new). split; [reflexivity |].
    split; [rewrite <- app_assoc; reflexivity |]. constructor; assumption.
Qed.

Lemma mkloc_Some row loc :
  Index.mkloc ParseFloat row = Some loc <->
  row !! 0%nat = Some (Store.id loc) /\
  row !! 1%nat ≫= musti = Some (Store.pop loc) /\
  row !! 2%nat ≫= Index.mustf ParseFloat = Some (Store.lat loc) /\
  row !! 3%nat ≫= Index.mustf ParseFloat = Some (Store.lon loc) /\
  row !! 4%nat ≫= musti = Some (Store.x loc) /\
  row !! 5%nat ≫= musti = Some (Store.y loc) /\
  row !! 6%nat ≫= musti = Some (Store.z loc).
Proof.
  unfold Index.mkloc. split.
  - destruct (row !! 0%nat); [| discriminate].
    destruct (row !! 1%nat ≫= musti); [| discriminate].
    destruct (row !! 2%nat ≫= Index.mustf ParseFloat); [| discriminate].
    destruct (row !! 3%nat ≫= Index.mustf ParseFloat); [| discriminate].
    destruct (row !! 4%nat ≫= musti); [| discriminate].
    destruct (row !! 5%nat ≫= musti); [| discriminate].
    destruct (row !! 6%nat ≫= musti); [| discriminate].
    intros [= <-]. cbn. repeat split; reflexivity.
  - intros (-> & -> & -> & -> & -> & -> & ->). destruct loc; reflexivity.
Qed.

(** X17. [loadpoplocs] returns exactly when the file opens and every read
    before its end gives a record whose first seven fields convert; the
    index then has one location for each row, in the order of the file: the
    identifier is field 0, the population field 1, the latitude and the
    longitude fields 2 and 3, the three integers fields 4, 5 and 6. *)
Theorem index_follows_file (file : option (list Index.read))
    (locs : list Store.poploc) :
  Index.loadpoplocs ParseFloat file = Some locs <->
  exists rows,
    file = Some (map Index.Rec rows) /\
    Forall2 (fun row loc =>
               row !! 0%nat = Some (Store.id loc) /\
               row !! 1%nat ≫= ParseInt = Some (Store.pop loc) /\
               row !! 2%nat ≫= ParseFloat = Some (Store.lat loc) /\
               row !! 3%nat ≫= ParseFloat = Some (Store.lon loc) /\
               row !! 4%nat ≫= ParseInt = Some (Store.x loc) /\
               row !! 5%nat ≫= ParseInt = Some (Store.y loc) /\
               row !! 6%nat ≫= ParseInt = Some (Store.z loc)) rows locs.
Proof.
  split.
  - destruct file as [reads |]; [| discriminate]. cbn [Index.loadpoplocs]. intros H.
    apply loadpoplocs_loop_Some in H as (rows & new & -> & -> & Hall).
    exists rows. split; [reflexivity |]. cbn [app].
    eapply Forall2_impl; [exact Hall |]. intros row loc Hloc.
    apply mkloc_Some in Hloc. exact Hloc.
  - intros (rows & -> & Hall). cbn [Index.loadpoplocs].
    apply (loadpoplocs_loop_ok rows locs []).
    eapply Forall2_impl; [exact Hall |]. intros row loc Hloc.
    apply mkloc_Some. exact Hloc.
Qed.

Lemma loadpoplocs_loop_bad reads r : forall done,
  In r reads ->
  match r with Index.Rec row => Index.mkloc ParseFloat row = None | Index.ReadErr => True end ->
  Index.loadpoplocs_loop ParseFloat reads done = None.
Proof.
  induction reads as [| r0 reads IH]; intros done Hin Hbad; [destruct Hin |].
  cbn [Index.loadpoplocs_loop].
  destruct r0 as [row0 |]; [| reflexivity].
  destruct (Index.mkloc ParseFloat row0) as [loc |] eqn:Hloc; [| reflexivity].
  destruct Hin as [<- | Hin]; [congruence |]. apply IH; assumption.
Qed.

(** X18. One row with fewer than seven fields, wherever it stands in the
    file, makes [loadpoplocs] panic: no index is returned. *)
Theorem short_row_panics (reads : list Index.read) (row : list string) :
  In (Index.Rec row) reads -> (length row < 7)%nat ->
  Index.loadpoplocs ParseFloat (Some reads) = None.
Proof.
  intros Hin Hlen. cbn [Index.loadpoplocs].
  apply (loadpoplocs_loop_bad reads (Index.Rec row) [] Hin).
  destruct (Index.mkloc ParseFloat row) as [loc |] eqn:Hloc; [| reflexivity].
  apply mkloc_Some in Hloc as (_ & _ & _ & _ & _ & _ & H6).
  rewrite (lookup_ge_None_2 row 6) in H6 by lia. discriminate H6.
Qed.

End IndexFacts.

Lemma short_row_panics_witness :
  Index.loadpoplocs ParseFloat_int (Some cut_rows) = None.
Proof.
  apply (short_row_panics ParseFloat_int cut_rows ["111111111"; "20000"]%string).
  - right. left. reflexivity.
  - cbn. lia.
Defined.

Section IndexKeys.
Context `{G : Geodesy}.
Variable ParseFloat : string -> option float64.

(** X19. After [init], every key [geosearch] hands to the store is the
    first field of a row of the index file, and the store is the one that
    was opened. *)
Theorem keys_come_from_index_file (reads : list Index.read) (opened : option badger.DB)
    (poplocs : list Store.poploc) (popbddb : badger.DB)
    (query : Point) (dist : float64) (key : string) :
  Index.init ParseFloat (Some reads) opened = Some (poplocs, popbddb) ->
  In key (Store.geosearch poplocs query dist) ->
  opened = Some popbddb /\
  exists row, In (Index.Rec row) reads /\ row !! 0%nat = Some key.
Proof.
  unfold Index.init.
  destruct (Index.loadpoplocs ParseFloat (Some reads)) as [locs |] eqn:Hload;
    [| discriminate].
  destruct opened as [db |]; [| discriminate]. intros [= <- <-] Hkey.
  split; [reflexivity |].
  cbn [Index.loadpoplocs] in Hload.
  apply loadpoplocs_loop_Some in Hload as (rows & new & -> & -> & Hall).
  cbn [app] in Hkey.
  rewrite geosearch_filter in Hkey. apply in_map_iff in Hkey as (loc & <- & Hin).
  apply filter_In in Hin as [Hin _]. apply list_elem_of_In in Hin.
  apply list_elem_of_lookup in Hin as [k Hk].
  destruct (Forall2_lookup_r _ _ _ _ _ Hall Hk) as (row & Hrow & Hloc).
  apply mkloc_Some in Hloc as (Hid & _).
  exists row. split; [| exact Hid].
  apply in_map. apply list_elem_of_In. eapply list_elem_of_lookup_2. exact Hrow.
Qed.

End IndexKeys.

Lemma keys_come_from_index_file_witness :
  exists row, In (Index.Rec row) two_rows /\ row !! 0%nat = Some "111111111"%string.
Proof.
  apply (@keys_come_from_index_file flat ParseFloat_int two_rows (Some two_store)
           two_locs two_store (@Geo flat F64.zero F64.zero) (F64.of_int 2) "111111111").
  - vm_compute. reflexivity.
  - vm_compute. right. left. reflexivity.
Defined.

(** ** The properties above on the two blocks *)

Lemma geosearch_radius_mono_witness :
  In "000000000"%string
    (@Store.geosearch flat two_locs (@Geo flat F64.zero F64.zero) (F64.of_int 2)).
Proof.
  apply (@geosearch_radius_mono flat two_locs (@Geo flat F64.zero F64.zero) 1 2).
  - lia.
  - lia.
  - lia.
  - vm_compute. intuition discriminate.
  - vm_compute. left. reflexivity.
Defined.

Lemma flat_matched_1 : @matched flat two_dataset F64.zero F64.zero 1 = [first_block].
Proof. vm_compute. reflexivity. Qed.

Lemma flat_matched_2 : @matched flat two_dataset F64.zero F64.zero 2 = two_dataset.
Proof. vm_compute. reflexivity. Qed.

Lemma first_block_fits : fits_scan [first_block].
Proof.
  split; intros i Hi.
  - destruct Hi as [-> | [-> | ->]]; vm_compute; (split; [discriminate | reflexivity]).
  - do 49 (destruct i as [| i];
           [first [lia | vm_compute; split; [discriminate | reflexivity]] |]).
    lia.
Qed.

Lemma realizations_agree_witness :
  exists r,
    @Bin.pop2010 flat ParseFloat_int (Some (concat (map blk_record two_dataset)))
      (path_vars "1" "0" "0") = ([EvOpen; EvScan], HS200j r) /\
    @Store.pop2010 flat ParseFloat_int (map blk_loc two_dataset) two_store
      (path_vars "1" "0" "0") = ([EvGeosearch; EvPopsearch; EvPopsummary], HS200j r).
Proof.
  apply (@realizations_agree flat ParseFloat_int two_dataset two_store
           (path_vars "1" "0" "0") 1 F64.zero F64.zero).
  1-6: vm_compute; reflexivity.
  - exact two_dataset_same.
  - exact flat_numbers.
  - rewrite flat_matched_1. exact first_block_fits.
Defined.

Lemma two_dataset_nonneg : Forall nonneg_block two_dataset.
Proof.
  apply List.Forall_cons; [| apply List.Forall_cons; [| apply List.Forall_nil]].
  all: intros i; do 49 (destruct i as [| i]; [vm_compute; discriminate |]).
  all: destruct i; vm_compute; discriminate.
Qed.

Lemma two_dataset_total i : field_total two_dataset i < 2 ^ 63.
Proof.
  do 49 (destruct i as [| i]; [vm_compute; reflexivity |]).
  destruct i; vm_compute; reflexivity.
Qed.

Lemma store_aggregates_monotone_witness :
  exists r1 r2,
    snd (@Store.pop2010 flat ParseFloat_int (map blk_loc two_dataset) two_store
           (path_vars "1" "0" "0")) = HS200j r1 /\
    snd (@Store.pop2010 flat ParseFloat_int (map blk_loc two_dataset) two_store
           (path_vars "2" "0" "0")) = HS200j r2 /\
    Blocks r1 <= Blocks r2 /\ Pop2010 r1 <= Pop2010 r2.
Proof.
  destruct (@store_aggregates_monotone flat ParseFloat_int two_dataset two_store
              (path_vars "1" "0" "0") (path_vars "2" "0" "0") 1 2 F64.zero F64.zero)
    as (r1 & r2 & H1 & H2 & Hb & Hp & _).
  1-10: vm_compute; reflexivity.
  - lia.
  - vm_compute. intuition discriminate.
  - eapply Forall_impl; [exact two_dataset_same |]. apply same_block_in_store.
  - exact two_dataset_nonneg.
  - rewrite flat_matched_2. exact two_dataset_total.
  - exists r1, r2. auto.
Defined.

Lemma nan_block_same : same_block two_store nan_block.
Proof.
  unfold same_block; do 9 (split; [vm_compute; reflexivity |]).
  intros k Hk; do 24 (destruct k as [| k]; [vm_compute; split; reflexivity |]); lia.
Qed.

Lemma nan_distance_kept_by_scan_only_witness :
  let query := @Geo flat F64.zero F64.zero in
  let dist := F64.of_int 1 in
  let c := bounds (@Forward flat query) dist in
  @Bin.keep flat c query dist block_nan = true /\
  @Store.keep flat c query dist loc_nan = false.
Proof.
  intros query dist c.
  apply (@nan_distance_kept_by_scan_only flat two_store c query dist nan_block).
  - exact nan_block_same.
  - vm_compute. reflexivity.
  - vm_compute. reflexivity.
Defined.

(** ** Products and quotients of float64 numbers *)

Lemma rnd_scale q r p d : 0 < d -> F64.rnd q (r * d) (p * d) = F64.rnd q r p.
Proof.
  intros Hd. unfold F64.rnd.
  replace (2 * (r * d)) with (2 * r * d) by lia.
  destruct (Z.ltb_spec (2 * r * d) (p * d)), (Z.ltb_spec (2 * r) p);
    try reflexivity; try nia.
  destruct (Z.eqb_spec (2 * r * d) (p * d)), (Z.eqb_spec (2 * r) p);
    try reflexivity; nia.
Qed.

(** a quotient that is a multiple of 2^-1074 is rounded as [F64.fl] rounds
    it *)
Lemma flq_mul_den n den : 0 < den -> F64q.flq (n * den) den = F64.fl n.
Proof.
  intros Hden. unfold F64q.flq, F64.fl. cbv zeta.
  rewrite Z.abs_mul, (Z.abs_eq den) by lia.
  rewrite Z.div_mul by lia. rewrite rne_unfold.
  set (p := 2 ^ F64.shift (Z.abs n)).
  assert (Hp : 0 < p) by (apply Z.pow_pos_nonneg; [lia | apply shift_nonneg]).
  replace (Z.abs n * den / (den * p)) with (Z.abs n / p)
    by (rewrite (Z.mul_comm (Z.abs n) den); symmetry; apply Z.div_mul_cancel_l; lia).
  replace (Z.abs n * den mod (den * p)) with (Z.abs n mod p * den)
    by (rewrite (Z.mul_comm (Z.abs n) den), Z.mul_mod_distr_l by lia; lia).
  rewrite (Z.mul_comm den p), rnd_scale by exact Hden.
  replace (n * den <? 0) with (n <? 0)
    by (destruct (Z.ltb_spec n 0), (Z.ltb_spec (n * den) 0); try nia; reflexivity).
  replace (Z.sgn (n * den)) with (Z.sgn n)
    by (rewrite Z.sgn_mul, (Z.sgn_pos den) by lia; lia).
  reflexivity.
Qed.

Lemma shift_pow_le q : 0 <= q -> 2 ^ F64.shift q <= Z.max 1 q.
Proof.
  intros Hq. unfold F64.shift.
  destruct (Z.max_spec (Z.log2 q + 1 - 53) 0) as [[H ->] | [H ->]].
  - cbn. lia.
  - assert (0 < q) by (destruct (Z.eq_dec q 0) as [-> | ]; [cbn in H; lia | lia]).
    pose proof (Z.log2_spec q ltac:(lia)) as [Hlo _].
    apply Z.le_trans with (2 ^ Z.log2 q); [apply Z.pow_le_mono_r; lia | lia].
Qed.

(** a quotient of magnitude up to 2^2096 does not overflow *)
Lemma flq_finite num den :
  0 < den -> Z.abs num / den <= 2 ^ 2096 -> exists m, F64q.flq num den = F64.Fin m.
Proof.
  intros Hden Hq. unfold F64q.flq. cbv zeta.
  set (a := Z.abs num) in *. set (q := a / den) in *.
  assert (Ha : 0 <= a) by apply Z.abs_nonneg.
  assert (Hq0 : 0 <= q) by (apply Z.div_pos; lia).
  set (p := 2 ^ F64.shift q).
  assert (Hp : 0 < p) by (apply Z.pow_pos_nonneg; [lia | apply shift_nonneg]).
  pose proof (shift_pow_le q Hq0) as Hpq. fold p in Hpq.
  pose proof (rnd_bounds (a / (den * p)) (a mod (den * p)) (den * p)) as [_ Hr].
  assert (HQ : a / (den * p) * p <= q).
  { rewrite <- Z.div_div by lia. fold q. rewrite Z.mul_comm. apply Z.mul_div_le. exact Hp. }
  assert (Hm : F64.rnd (a / (den * p)) (a mod (den * p)) (den * p) * p <= 2 * 2 ^ 2096 + 1) by nia.
  assert (Hlt : 2 * 2 ^ 2096 + 1 < 2 ^ (1024 + 1074)).
  { change (1024 + 1074) with (2096 + 2). rewrite Z.pow_add_r by lia.
    assert (0 < 2 ^ 2096) by (apply Z.pow_pos_nonneg; lia). lia. }
  destruct (Z.leb_spec (2 ^ (1024 + 1074))
              (F64.rnd (a / (den * p)) (a mod (den * p)) (den * p) * p)); [lia |].
  eexists. reflexivity.
Qed.

Lemma to_int64_range x : - 2 ^ 63 <= F64.to_int64 x <= 2 ^ 63 - 1.
Proof.
  assert (Hmin : - 2 ^ 63 <= Int.min_int64 <= 2 ^ 63 - 1) by (unfold Int.min_int64; lia).
  destruct x as [| s | n]; cbn [F64.to_int64]; try exact Hmin.
  cbv zeta. unfold Int.in_int64.
  destruct (Z.leb_spec Int.min_int64 (n ÷ F64.unit)),
           (Z.leb_spec (n ÷ F64.unit) Int.max_int64); cbn [andb]; try exact Hmin.
  unfold Int.min_int64, Int.max_int64 in *. lia.
Qed.

Lemma billion : F64.of_int 1000000000 = F64.Fin (1000000000 * F64.unit).
Proof. apply of_int_exact. lia. Qed.

Lemma of_int_int64 y :
  - 2 ^ 63 <= y <= 2 ^ 63 - 1 ->
  exists n, F64.of_int y = F64.Fin n /\ Z.abs n <= 2 ^ 63 * F64.unit.
Proof.
  intros Hy. pose proof unit_pos as Hu.
  pose proof (fl_bounded 63 (y * F64.unit) ltac:(lia)) as Hb.
  unfold F64.of_int.
  destruct (F64.fl (y * F64.unit)) as [| s | n]; cbn [F64.bounded] in Hb.
  - exfalso. apply Hb. rewrite Z.abs_mul, (Z.abs_eq F64.unit) by lia.
    apply Z.mul_le_mono_nonneg_r; lia.
  - exfalso. apply Hb. rewrite Z.abs_mul, (Z.abs_eq F64.unit) by lia.
    apply Z.mul_le_mono_nonneg_r; lia.
  - exists n. split; [reflexivity |]. apply Hb.
    rewrite Z.abs_mul, (Z.abs_eq F64.unit) by lia.
    apply Z.mul_le_mono_nonneg_r; lia.
Qed.

(** [round9] gives a finite number, whatever it is given *)
Lemma round9_finite x : exists n, Random.round9 x = F64.Fin n.
Proof.
  unfold Random.round9. cbv zeta.
  set (y0 := F64.to_int64 _).
  set (y := if F64.ltb x F64.zero then Int.int64 (- y0) else y0).
  assert (Hy : - 2 ^ 63 <= y <= 2 ^ 63 - 1).
  { subst y. destruct (F64.ltb x F64.zero); [| apply to_int64_range].
    pose proof (wrap_range 64 (- y0) ltac:(lia)) as H. unfold Int.int64.
    change (64 - 1) with 63 in H. lia. }
  destruct (of_int_int64 y Hy) as (n & -> & Hn). rewrite billion.
  pose proof unit_pos as Hu. cbn [F64q.div].
  destruct (Z.eqb_spec (1000000000 * F64.unit) 0) as [E | _]; [lia |].
  apply flq_finite; [lia |].
  rewrite Z.sgn_pos, Z.mul_1_l, (Z.abs_eq (1000000000 * F64.unit)) by lia.
  rewrite Z.abs_mul, (Z.abs_eq F64.unit) by lia.
  rewrite Z.div_mul_cancel_r by lia.
  apply Z.le_trans with (Z.abs n).
  - apply Z.div_le_upper_bound; [lia |]. pose proof (Z.abs_nonneg n). lia.
  - apply Z.le_trans with (2 ^ 63 * F64.unit); [exact Hn |].
    unfold F64.unit. rewrite <- Z.pow_add_r by lia. apply Z.pow_le_mono_r; lia.
Qed.

(** ** [randomPoints] *)

Lemma fill_fits result : forall k points,
  (k + length result <= length points)%nat ->
  Random.fill k result points =
  Some (take k points ++
        map (fun p => Random.LatLon (Random.round9 p.1) (Random.round9 p.2)) result ++
        drop (k + length result) points).
Proof.
  induction result as [| [lat lon] rest IH]; intros k points Hlen.
  - cbn [Random.fill map length app]. rewrite Nat.add_0_r, take_drop. reflexivity.
  - cbn [Random.fill map length] in *.
    destruct (decide (k < length points)%nat) as [_ | Hn]; [| lia].
    rewrite IH by (rewrite length_insert; lia).
    rewrite (take_S_r _ _ (Random.LatLon (Random.round9 lat) (Random.round9 lon)))
      by (apply list_lookup_insert_eq; lia).
    rewrite take_insert_ge by lia. rewrite drop_insert_lt by lia.
    rewrite <- app_assoc. cbn [app fst snd].
    replace (S k + length rest)%nat with (k + S (length rest))%nat by lia.
    reflexivity.
Qed.

Lemma fill_overflows result : forall k points,
  (length points < k + length result)%nat -> (k <= length points)%nat ->
  Random.fill k result points = None.
Proof.
  induction result as [| [lat lon] rest IH]; intros k points Hlen Hk.
  - cbn [length] in Hlen. lia.
  - cbn [Random.fill length] in *.
    destruct (decide (k < length points)%nat) as [Hlt | _]; [| reflexivity].
    apply IH; rewrite length_insert; lia.
Qed.

Lemma forallb_finite_points (result : list (float64 * float64)) (n : nat) :
  forallb Random.finite_latlon
    (map (fun p => Random.LatLon (Random.round9 p.1) (Random.round9 p.2)) result ++
     replicate n (Random.LatLon F64.zero F64.zero)) = true.
Proof.
  rewrite forallb_app. apply andb_true_iff. split.
  - induction result as [| [lat lon] rest IH]; [reflexivity |].
    cbn [map forallb fst snd]. rewrite IH, andb_true_r.
    unfold Random.finite_latlon. cbn [Random.Lat Random.Lon].
    destruct (round9_finite lat) as [a ->], (round9_finite lon) as [b ->]. reflexivity.
  - induction n as [| n IH]; [reflexivity |]. cbn [replicate forallb]. rewrite IH.
    reflexivity.
Qed.

Section RandomFacts.
Variable CellRnd1x1 : Z -> Z -> Z -> list (float64 * float64).

(** the handler on a request in range, past the three checks *)
Lemma random_valid vars count lat lon :
  Random.valid_cell vars count lat lon ->
  Random.randomPoints CellRnd1x1 vars =
  match Random.fill 0 (CellRnd1x1 lat lon count)
          (replicate (Z.to_nat count) (Random.LatLon F64.zero F64.zero)) with
  | None => Random.Panicked
  | Some points =>
      match Random.Marshal
              {| Random.Min := Random.LatLon (F64.Fin (lat * F64.unit))
                                 (F64.Fin (lon * F64.unit));
                 Random.Max := Random.LatLon (F64.Fin ((lat + 1) * F64.unit))
                                 (F64.Fin ((lon + 1) * F64.unit));
                 Random.Count := count; Random.Points := points |} with
      | None => Random.HS500
      | Some resultj => Random.HS200j resultj
      end
  end.
Proof.
  intros (Hc & Hcr & Hlat & Hlatr & Hlon & Hlonr).
  unfold Random.randomPoints. rewrite Hc, Hlat, Hlon.
  replace (Random.in_count count) with true
    by (symmetry; unfold Random.in_count; apply andb_true_iff; split;
        [apply Z.leb_le | apply Z.leb_le]; lia).
  replace (Random.in_lat lat) with true
    by (symmetry; unfold Random.in_lat; apply andb_true_iff; split;
        [apply Z.leb_le | apply Z.ltb_lt]; lia).
  replace (Random.in_lon lon) with true
    by (symmetry; unfold Random.in_lon; apply andb_true_iff; split;
        [apply Z.leb_le | apply Z.ltb_lt]; lia).
  cbn [negb]. cbv zeta.
  cbn [Random.Min Random.Max Random.Count Random.Points].
  unfold Int.add64, Int.int64. rewrite !wrap_small by lia.
  rewrite !of_int_exact by lia. reflexivity.
Qed.

(** X20. A request whose count, latitude and longitude are integers in
    range (1 to 1000, -90 to 89, -180 to 179) is never answered with 500:
    when the generator returns at most [count] points the reply is 200, with
    the two corners of the cell, the count, and exactly [count] points, those
    of the generator rounded by [round9] and then points (0, 0); when the
    generator returns more, the handler panics on the index past the end. *)
Theorem random_points_reply (vars : gmap string string) (count lat lon : Z) :
  Random.valid_cell vars count lat lon ->
  ((length (CellRnd1x1 lat lon count) <= Z.to_nat count)%nat ->
   Random.randomPoints CellRnd1x1 vars =
   Random.HS200j
     {| Random.Min := Random.LatLon (F64.Fin (lat * F64.unit)) (F64.Fin (lon * F64.unit));
        Random.Max := Random.LatLon (F64.Fin ((lat + 1) * F64.unit))
                        (F64.Fin ((lon + 1) * F64.unit));
        Random.Count := count;
        Random.Points :=
          map (fun p => Random.LatLon (Random.round9 p.1) (Random.round9 p.2))
            (CellRnd1x1 lat lon count) ++
          replicate (Z.to_nat count - length (CellRnd1x1 lat lon count))
            (Random.LatLon F64.zero F64.zero) |}) /\
  ((Z.to_nat count < length (CellRnd1x1 lat lon count))%nat ->
   Random.randomPoints CellRnd1x1 vars = Random.Panicked).
Proof.
  intros Hv. rewrite (random_valid vars count lat lon Hv). split; intros Hlen.
  - rewrite fill_fits by (rewrite length_replicate; lia).
    rewrite take_0, drop_replicate. cbn [app Nat.add].
    unfold Random.Marshal.
    cbn [Random.Min Random.Max Random.Points Random.finite_latlon Random.Lat Random.Lon
         F64q.finite andb].
    rewrite forallb_finite_points. reflexivity.
  - rewrite fill_overflows by (rewrite ?length_replicate; lia). reflexivity.
Qed.

(** X21. [randomPoints] answers 400 exactly when one of the three path
    variables is not an integer or is out of range: the count outside 1 to
    1000, the latitude outside -90 to 89, the longitude outside -180 to 179
    (90 and 180 are refused). *)
Theorem random_bad_request_iff (vars : gmap string string) :
  Random.randomPoints CellRnd1x1 vars = Random.HS400 <->
  ~ exists count lat lon, Random.valid_cell vars count lat lon.
Proof.
  split.
  - intros H400 (count & lat & lon & Hv).
    rewrite (random_valid vars count lat lon Hv) in H400.
    destruct (Random.fill _ _ _) as [points |]; [| discriminate H400].
    destruct (Random.Marshal _); discriminate H400.
  - intros Hno. unfold Random.randomPoints.
    destruct (ParseInt (vars !!! "count"%string)) as [count |] eqn:Hc; [| reflexivity].
    destruct (Random.in_count count) eqn:Hcr; [| reflexivity].
    destruct (ParseInt (vars !!! "lat"%string)) as [lat |] eqn:Hlat; [| reflexivity].
    destruct (Random.in_lat lat) eqn:Hlatr; [| reflexivity].
    destruct (ParseInt (vars !!! "lon"%string)) as [lon |] eqn:Hlon; [| reflexivity].
    destruct (Random.in_lon lon) eqn:Hlonr; [| reflexivity].
    exfalso. apply Hno. exists count, lat, lon. unfold Random.valid_cell.
    unfold Random.in_count in Hcr. unfold Random.in_lat in Hlatr.
    unfold Random.in_lon in Hlonr.
    apply andb_true_iff in Hcr as [H1 H2]. apply andb_true_iff in Hlatr as [H3 H4].
    apply andb_true_iff in Hlonr as [H5 H6].
    apply Z.leb_le in H1, H2, H3, H5. apply Z.ltb_lt in H4, H6.
    repeat split; assumption.
Qed.

End RandomFacts.

Lemma random_points_reply_witness :
  exists r, Random.randomPoints corners (cell_vars "3" "-90" "179") = Random.HS200j r /\
            Random.Count r = 3 /\ length (Random.Points r) = 3%nat.
Proof.
  destruct (random_points_reply corners (cell_vars "3" "-90" "179") 3 (-90) 179)
    as [Hfits _].
  - unfold Random.valid_cell.
    do 5 (split; [first [lia | vm_compute; reflexivity] |]). lia.
  - eexists. split; [apply Hfits; cbn; lia |]. split; reflexivity.
Defined.

Lemma half_Fin : F64q.half = F64.Fin (2 ^ 1073).
Proof. vm_compute. reflexivity. Qed.

Lemma unit_double : F64.unit = 2 * 2 ^ 1073.
Proof. vm_compute. reflexivity. Qed.

(** X22. [round9] leaves an integer of magnitude up to 4000000 as it is;
    the corners of a cell are such integers. *)
Theorem round9_keeps_integers (k : Z) :
  Z.abs k <= 4000000 -> Random.round9 (F64.of_int k) = F64.of_int k.
Proof.
  intros Hk. pose proof unit_pos as Hu.
  rewrite (of_int_exact k) by lia.
  unfold Random.round9. cbv zeta. rewrite billion. cbn [F64.abs F64q.mul F64.ltb F64.zero].
  set (K := Z.abs k * 1000000000).
  assert (HK : 0 <= K <= 4000000000000000) by (subst K; lia).
  replace (Z.abs (k * F64.unit) * (1000000000 * F64.unit))
    with (K * F64.unit * F64.unit)
    by (rewrite Z.abs_mul, (Z.abs_eq F64.unit) by lia; subst K; ring).
  rewrite flq_mul_den by exact Hu.
  rewrite (fl_exact (K * F64.unit) K 1074)
    by (try lia; rewrite Z.abs_mul, (Z.abs_eq F64.unit), (Z.abs_eq K) by lia;
        reflexivity).
  rewrite half_Fin. cbn [F64.add].
  replace (K * F64.unit + 2 ^ 1073) with ((2 * K + 1) * 2 ^ 1073)
    by (rewrite unit_double; ring).
  assert (Hp : 0 < 2 ^ 1073) by (apply Z.pow_pos_nonneg; lia).
  rewrite (fl_exact ((2 * K + 1) * 2 ^ 1073) (2 * K + 1) 1073)
    by (try lia; apply Z.abs_eq; nia).
  assert (Hq : (2 * K + 1) * 2 ^ 1073 ÷ F64.unit = K).
  { rewrite Z.quot_div_nonneg by nia. rewrite unit_double.
    rewrite Z.div_mul_cancel_r by lia.
    replace (2 * K + 1) with (1 + K * 2) by ring. rewrite Z.div_add by lia.
    reflexivity. }
  cbn [F64.to_int64]. cbv zeta. rewrite Hq.
  replace (Int.in_int64 K) with true
    by (symmetry; unfold Int.in_int64, Int.min_int64, Int.max_int64;
        apply andb_true_iff; split; apply Z.leb_le; lia).
  assert (Hy : (if k * F64.unit <? 0 then Int.int64 (- K) else K) = k * 1000000000).
  { destruct (Z.ltb_spec (k * F64.unit) 0) as [Hneg | Hpos].
    - unfold Int.int64. rewrite wrap_small by lia. subst K. nia.
    - subst K. nia. }
  rewrite Hy. rewrite (of_int_exact (k * 1000000000)) by lia.
  cbn [F64q.div].
  destruct (Z.eqb_spec (1000000000 * F64.unit) 0) as [E | _]; [lia |].
  rewrite Z.sgn_pos, Z.mul_1_l, (Z.abs_eq (1000000000 * F64.unit)) by lia.
  replace (k * 1000000000 * F64.unit * F64.unit)
    with (k * F64.unit * (1000000000 * F64.unit)) by ring.
  rewrite flq_mul_den by lia.
  apply (fl_exact (k * F64.unit) (Z.abs k) 1074); try lia.
  rewrite Z.abs_mul, (Z.abs_eq F64.unit) by lia. reflexivity.
Qed.

Lemma round9_keeps_integers_witness :
  Random.round9 (F64.of_int (-180)) = F64.of_int (-180).
Proof. apply (round9_keeps_integers (-180)). lia. Defined.

(** ** The status 400 of the three population handlers *)

Section BadRequest.
Context `{G : Geodesy}.
Variable ParseFloat : string -> option float64.

Lemma not_valid_cases (vars : gmap string string) :
  (~ exists d lat lon, valid_query ParseFloat vars d lat lon) ->
  match ParseInt (vars !!! "distance"%string) with
  | None => True
  | Some d =>
      in_distance d = false \/
      match ParseFloat (vars !!! "lat"%string) with
      | None => True
      | Some lat =>
          in_lat lat = false \/
          match ParseFloat (vars !!! "lon"%string) with
          | None => True
          | Some lon => in_lon lon = false
          end
      end
  end.
Proof.
  intros Hno.
  destruct (ParseInt (vars !!! "distance"%string)) as [d |] eqn:Hd; [| exact I].
  destruct (in_distance d) eqn:Hdr; [right | left; reflexivity].
  destruct (ParseFloat (vars !!! "lat"%string)) as [lat |] eqn:Hlat; [| exact I].
  destruct (in_lat lat) eqn:Hlatr; [right | left; reflexivity].
  destruct (ParseFloat (vars !!! "lon"%string)) as [lon |] eqn:Hlon; [| exact I].
  destruct (in_lon lon) eqn:Hlonr; [| reflexivity].
  exfalso. apply Hno. exists d, lat, lon. unfold valid_query. auto 10.
Qed.

(** X23. Each of the three population handlers answers 400 exactly when
    the distance is not an integer in 1 to 1000000, or the latitude is not a
    number in -90 to 90, or the longitude is not a number in -180 to 180;
    whatever the dataset holds, a request in range is never answered 400,
    and a refused request starts no operation on the dataset. *)
Theorem bad_request_iff (poplocs : list Store.poploc) (popbddb : badger.DB)
    (infile compactfile : option (list byte)) (vars : gmap string string) :
  let refused := ~ exists d lat lon, valid_query ParseFloat vars d lat lon in
  (snd (Bin.pop2010 ParseFloat infile vars) = HS400 <-> refused) /\
  (snd (Store.pop2010 ParseFloat poplocs popbddb vars) = HS400 <-> refused) /\
  (snd (Compact.pop2010 ParseFloat compactfile vars) = Compact.HS400 <-> refused) /\
  (refused ->
   fst (Bin.pop2010 ParseFloat infile vars) = [] /\
   fst (Store.pop2010 ParseFloat poplocs popbddb vars) = [] /\
   fst (Compact.pop2010 ParseFloat compactfile vars) = []).
Proof.
  cbv zeta.
  assert (Hbin : (~ exists d lat lon, valid_query ParseFloat vars d lat lon) ->
                 Bin.pop2010 ParseFloat infile vars = ([], HS400)).
  { intros Hno. apply not_valid_cases in Hno. unfold Bin.pop2010.
    destruct (ParseInt _) as [d |]; [| reflexivity].
    destruct Hno as [-> | Hno]; [reflexivity |].
    destruct (negb (in_distance d)); [reflexivity |].
    destruct (ParseFloat (vars !!! "lat"%string)) as [lat |]; [| reflexivity].
    destruct Hno as [-> | Hno]; [reflexivity |].
    destruct (negb (in_lat lat)); [reflexivity |].
    destruct (ParseFloat (vars !!! "lon"%string)) as [lon |]; [| reflexivity].
    rewrite Hno. reflexivity. }
  assert (Hstore : (~ exists d lat lon, valid_query ParseFloat vars d lat lon) ->
                   Store.pop2010 ParseFloat poplocs popbddb vars = ([], HS400)).
  { intros Hno. apply not_valid_cases in Hno. unfold Store.pop2010.
    destruct (ParseInt _) as [d |]; [| reflexivity].
    destruct Hno as [-> | Hno]; [reflexivity |].
    destruct (negb (in_distance d)); [reflexivity |].
    destruct (ParseFloat (vars !!! "lat"%string)) as [lat |]; [| reflexivity].
    destruct Hno as [-> | Hno]; [reflexivity |].
    destruct (negb (in_lat lat)); [reflexivity |].
    destruct (ParseFloat (vars !!! "lon"%string)) as [lon |]; [| reflexivity].
    rewrite Hno. reflexivity. }
  assert (Hcompact : (~ exists d lat lon, valid_query ParseFloat vars d lat lon) ->
                     Compact.pop2010 ParseFloat compactfile vars = ([], Compact.HS400)).
  { intros Hno. apply not_valid_cases in Hno. unfold Compact.pop2010.
    destruct (ParseInt _) as [d |]; [| reflexivity].
    destruct Hno as [-> | Hno]; [reflexivity |].
    destruct (negb (in_distance d)); [reflexivity |].
    destruct (ParseFloat (vars !!! "lat"%string)) as [lat |]; [| reflexivity].
    destruct Hno as [-> | Hno]; [reflexivity |].
    destruct (negb (in_lat lat)); [reflexivity |].
    destruct (ParseFloat (vars !!! "lon"%string)) as [lon |]; [| reflexivity].
    rewrite Hno. reflexivity. }
  split; [| split; [| split]].
  - split; [| intros Hno; rewrite (Hbin Hno); reflexivity].
    intros H400 (d & lat & lon & Hv).
    rewrite (bin_valid ParseFloat vars d lat lon infile Hv) in H400.
    destruct infile as [rdr |]; [| discriminate H400].
    destruct (Bin.scan _ _ _ rdr Bin.accum0); discriminate H400.
  - split; [| intros Hno; rewrite (Hstore Hno); reflexivity].
    intros H400 (d & lat & lon & Hv).
    rewrite (store_valid ParseFloat vars d lat lon poplocs popbddb Hv) in H400.
    destruct (Store.popsearch popbddb _) as [recs | e]; [| discriminate H400].
    destruct (Store.popsummary recs); discriminate H400.
  - split; [| intros Hno; rewrite (Hcompact Hno); reflexivity].
    intros H400 (d & lat & lon & Hv).
    rewrite (compact_valid ParseFloat vars d lat lon compactfile Hv) in H400.
    destruct compactfile as [rdr |]; [| discriminate H400].
    destruct (Compact.scan _ _ _ rdr Compact.accum0); discriminate H400.
  - intros Hno. rewrite (Hbin Hno), (Hstore Hno), (Hcompact Hno). auto.
Qed.

End BadRequest.

(** ** The sums the two handlers report *)

Lemma map_seq_add (g : nat -> Z) (c len : nat) : forall start,
  map (fun k => g (k + c)%nat) (seq start len) = map g (seq (start + c) len).
Proof.
  induction len as [| len IH]; intros start; [reflexivity |].
  cbn [seq map]. rewrite IH. reflexivity.
Qed.

Lemma map_seq_sums (w g : nat -> Z) (c : nat) :
  (forall i, (1 + c <= i < 24 + c)%nat -> w i = g i) ->
  map (fun k => w (k + c)%nat) (seq 1 23) = map g (seq (1 + c) 23).
Proof.
  intros H. rewrite <- (map_seq_add g c 23 1). apply map_ext_in.
  intros k Hk. apply in_seq in Hk. apply H. lia.
Qed.

Section Sums.
Context `{G : Geodesy}.
Variable ParseFloat : string -> option float64.

(** X24. On a query in range over blocks that the index and the store
    hold, when every sum over the matched blocks fits in 64 bits the
    index-and-store handler reports the number of matched blocks and the
    sums themselves: the population, the two gender totals and the 23
    buckets of either pyramid. *)
Theorem store_reports_sums (blocks : list block) (db : badger.DB)
    (vars : gmap string string) (d : Z) (lat lon : float64) :
  valid_query ParseFloat vars d lat lon ->
  Forall (in_store db) blocks ->
  (forall i, (i < 49)%nat ->
     - 2 ^ 63 <= field_total (matched blocks lat lon d) i < 2 ^ 63) ->
  exists r,
    Store.pop2010 ParseFloat (map blk_loc blocks) db vars =
      ([EvGeosearch; EvPopsearch; EvPopsummary], HS200j r) /\
    Blocks r = Z.of_nat (length (matched blocks lat lon d)) /\
    Pop2010 r = field_total (matched blocks lat lon d) 0 /\
    Mpop2010 r = field_total (matched blocks lat lon d) 1 /\
    Fpop2010 r = field_total (matched blocks lat lon d) 25 /\
    buckets (Mpyramid r) = map (field_total (matched blocks lat lon d)) (seq 2 23) /\
    buckets (Fpyramid r) = map (field_total (matched blocks lat lon d)) (seq 26 23).
Proof.
  intros (Hd & Hdr & Hlat & Hlatr & Hlon & Hlonr) Hstore Hfit.
  rewrite (store_reply ParseFloat blocks db vars d lat lon) by assumption.
  set (M := matched blocks lat lon d) in *.
  assert (H64 : forall i, (i < 49)%nat -> Int.int64 (field_total M i) = field_total M i).
  { intros i Hi. unfold Int.int64. apply wrap_small; [lia | apply Hfit, Hi]. }
  eexists. split; [reflexivity |].
  cbn [Blocks Pop2010 Mpop2010 Fpop2010 Mpyramid Fpyramid].
  rewrite !buckets_map_seq, !H64 by lia.
  repeat split.
  - apply (map_seq_sums (fun i => Int.int64 (field_total M i)) (field_total M) 1).
    intros i Hi. apply H64. lia.
  - apply (map_seq_sums (fun i => Int.int64 (field_total M i)) (field_total M) 25).
    intros i Hi. apply H64. lia.
Qed.

(** X25. On a query in range over blocks held in the binary file, when no
    distance is a NaN and the sums over the matched blocks fit the variables
    of the scan (32 bits for the population and the two gender totals, 16
    bits for the buckets), the binary-scan handler reports the number of
    matched blocks and the sums themselves. *)
Theorem scan_reports_sums (blocks : list block) (db : badger.DB)
    (vars : gmap string string) (d : Z) (lat lon : float64) :
  valid_query ParseFloat vars d lat lon ->
  Forall (same_block db) blocks ->
  numbers blocks lat lon ->
  fits_scan (matched blocks lat lon d) ->
  exists r,
    Bin.pop2010 ParseFloat (Some (concat (map blk_record blocks))) vars =
      ([EvOpen; EvScan], HS200j r) /\
    Blocks r = Z.of_nat (length (matched blocks lat lon d)) /\
    Pop2010 r = field_total (matched blocks lat lon d) 0 /\
    Mpop2010 r = field_total (matched blocks lat lon d) 1 /\
    Fpop2010 r = field_total (matched blocks lat lon d) 25 /\
    buckets (Mpyramid r) = map (field_total (matched blocks lat lon d)) (seq 2 23) /\
    buckets (Fpyramid r) = map (field_total (matched blocks lat lon d)) (seq 26 23).
Proof.
  intros (Hd & Hdr & Hlat & Hlatr & Hlon & Hlonr) Hsame Hnan [Hfit32 Hfit16].
  rewrite (scan_reply ParseFloat blocks db vars d lat lon) by assumption.
  set (M := matched blocks lat lon d) in *.
  assert (H32 : forall i, i = 0%nat \/ i = 1%nat \/ i = 25%nat ->
            Int.int32 (field_total M i) = field_total M i).
  { intros i Hi. unfold Int.int32. apply wrap_small; [lia | apply Hfit32, Hi]. }
  assert (H16 : forall i, (2 <= i <= 24)%nat \/ (26 <= i <= 48)%nat ->
            Int.int16 (field_total M i) = field_total M i).
  { intros i Hi. unfold Int.int16. apply wrap_small; [lia | apply Hfit16, Hi]. }
  eexists. split; [reflexivity |].
  cbn [Blocks Pop2010 Mpop2010 Fpop2010 Mpyramid Fpyramid].
  rewrite !buckets_map_seq, !H32 by auto.
  repeat split.
  - apply (map_seq_sums (fun i => Int.int16 (field_total M i)) (field_total M) 1).
    intros i Hi. apply H16. lia.
  - apply (map_seq_sums (fun i => Int.int16 (field_total M i)) (field_total M) 25).
    intros i Hi. apply H16. lia.
Qed.

End Sums.

Lemma two_dataset_fits_64 i :
  (i < 49)%nat -> - 2 ^ 63 <= field_total two_dataset i < 2 ^ 63.
Proof.
  intros Hi.
  do 49 (destruct i as [| i]; [vm_compute; (split; [discriminate | reflexivity]) |]).
  lia.
Qed.

Lemma store_reports_sums_witness :
  exists r,
    @Store.pop2010 flat ParseFloat_int (map blk_loc two_dataset) two_store
      (path_vars "2" "0" "0") = ([EvGeosearch; EvPopsearch; EvPopsummary], HS200j r) /\
    Blocks r = 2 /\ Age00to04 (Mpyramid r) = 40000.
Proof.
  destruct (@store_reports_sums flat ParseFloat_int two_dataset two_store
              (path_vars "2" "0" "0") 2 F64.zero F64.zero)
    as (r & Hr & Hb & _ & _ & _ & Hm & _).
  - apply flat_valid; reflexivity.
  - eapply Forall_impl; [exact two_dataset_same |]. apply same_block_in_store.
  - rewrite flat_matched_2. exact two_dataset_fits_64.
  - exists r. split; [exact Hr |]. split.
    + rewrite Hb, flat_matched_2. reflexivity.
    + rewrite flat_matched_2 in Hm.
      change (Age00to04 (Mpyramid r)) with (nth 0 (buckets (Mpyramid r)) 0).
      rewrite Hm. vm_compute. reflexivity.
Defined.

Lemma scan_reports_sums_witness :
  exists r,
    @Bin.pop2010 flat ParseFloat_int (Some (concat (map blk_record two_dataset)))
      (path_vars "1" "0" "0") = ([EvOpen; EvScan], HS200j r) /\
    Blocks r = 1 /\ Age00to04 (Mpyramid r) = 20000.
Proof.
  destruct (@scan_reports_sums flat ParseFloat_int two_dataset two_store
              (path_vars "1" "0" "0") 1 F64.zero F64.zero)
    as (r & Hr & Hb & _ & _ & _ & Hm & _).
  - apply flat_valid; reflexivity.
  - exact two_dataset_same.
  - exact flat_numbers.
  - rewrite flat_matched_1. exact first_block_fits.
  - exists r. split; [exact Hr |]. split.
    + rewrite Hb, flat_matched_1. reflexivity.
    + rewrite flat_matched_1 in Hm.
      change (Age00to04 (Mpyramid r)) with (nth 0 (buckets (Mpyramid r)) 0).
      rewrite Hm. vm_compute. reflexivity.
Defined.

(** ** The counted blocks and the distance *)

(** C1 as stated fails.  In the flat stand-in for the geodesy library the
    query point has x = 2.25 and the radius is 1.  The block at x = 1.375
    lies at distance 0.875, within the radius, and its files hold x = 1, the
    coordinate without its fraction (and its nearest integer).  The lower
    boundary of the cube is 2, so [geosearch] returns no identifier and the
    binary scan ends with nothing counted. *)
Lemma near_block_not_counted :
  let query := @Geo flat (F64.dyadic 9 (-2)) F64.zero in
  let dist := F64.of_int 1 in
  let c := bounds (@Forward flat query) dist in
  @Store.near flat query dist loc_cut = true /\
  @Bin.near flat query dist block_cut = true /\
  Store.x loc_cut =
    F64.to_int64 (X (@Forward flat (@Geo flat (Store.lat loc_cut) (Store.lon loc_cut)))) /\
  Int.int64 (LittleEndian (Bin.xs block_cut)) = Store.x loc_cut /\
  xmin c = 2 /\
  @Store.geosearch flat [loc_cut] query dist = [] /\
  @Bin.scan flat c query dist block_cut Bin.accum0 = Some Bin.accum0.
Proof.
  intros query dist c.
  do 6 (split; [vm_compute; reflexivity |]).
  rewrite <- (app_nil_r block_cut).
  rewrite (@scan_app flat) by (vm_compute; reflexivity).
  rewrite (@scan_nil flat). vm_compute. reflexivity.
Qed.

Section Counted.
Context `{G : Geodesy}.
Variable ParseFloat : string -> option float64.

(** on a dataset stored with [round], the blocks that pass both filters are
    the blocks within the distance *)
Lemma matched_within_distance (blocks : list block) (lat lon : float64) (d : Z) :
  1 <= d <= 1000000 ->
  coords_bounded (Forward (Geo lat lon)) ->
  Forall (fun b => Store.consistent (blk_loc b)) blocks ->
  Forall (fun b =>
            Store.near (Geo lat lon) (F64.of_int d) (blk_loc b) = true ->
            within (F64.of_int d) (Forward (Geo lat lon))
              (Forward (Geo (Store.lat (blk_loc b)) (Store.lon (blk_loc b)))) = true)
    blocks ->
  matched blocks lat lon d = within_distance blocks lat lon d.
Proof.
  intros Hd Hq Hcons Hchord. unfold matched, within_distance.
  apply filter_ext_In. intros b Hb. apply list_elem_of_In in Hb.
  rewrite Forall_forall in Hcons. rewrite Forall_forall in Hchord.
  specialize (Hcons b Hb). specialize (Hchord b Hb). cbv beta in Hcons, Hchord.
  rewrite keep_cube_near.
  destruct (Store.near (Geo lat lon) (F64.of_int d) (blk_loc b)) eqn:Hnear;
    [| apply andb_false_r].
  rewrite andb_true_r. destruct Hcons as (Hb' & -> & -> & ->).
  apply cube_contains; auto.
Qed.

(** C1, amended.  The dataset is held in both forms; the stored integers
    of every block are those [round] gives for the coordinates of its
    latitude and longitude; a block within the distance has each coordinate
    between the two float boundaries of its axis; the coordinates are finite
    and of magnitude up to 2^32; no distance is a NaN.  Then, on a query in
    range, the blocks counted are exactly the blocks whose distance is at
    most the radius: [geosearch] returns their identifiers, and each handler
    reports their number and, for the population, the two gender totals and
    every bucket, the sum over them, in the width of its accumulators (64
    bits in the index-and-store handler, 32 and 16 bits in the binary
    scan). *)
Theorem counted_iff_within_distance (blocks : list block) (db : badger.DB)
    (vars : gmap string string) (d : Z) (lat lon : float64) :
  valid_query ParseFloat vars d lat lon ->
  coords_bounded (Forward (Geo lat lon)) ->
  Forall (same_block db) blocks ->
  Forall (fun b => Store.consistent (blk_loc b)) blocks ->
  Forall (fun b =>
            Store.near (Geo lat lon) (F64.of_int d) (blk_loc b) = true ->
            within (F64.of_int d) (Forward (Geo lat lon))
              (Forward (Geo (Store.lat (blk_loc b)) (Store.lon (blk_loc b)))) = true)
    blocks ->
  numbers blocks lat lon ->
  let N := within_distance blocks lat lon d in
  Store.geosearch (map blk_loc blocks) (Geo lat lon) (F64.of_int d) =
    map (fun b => Store.id (blk_loc b)) N /\
  Store.pop2010 ParseFloat (map blk_loc blocks) db vars =
    ([EvGeosearch; EvPopsearch; EvPopsummary],
     HS200j
       {| Distance := d; Lat := lat; Lon := lon;
          Blocks := Z.of_nat (length N);
          Pop2010 := Int.int64 (field_total N 0);
          Fpop2010 := Int.int64 (field_total N 25);
          Mpop2010 := Int.int64 (field_total N 1);
          Fpyramid := mkpyramid (map (fun k => Int.int64 (field_total N (k + 25))) (seq 0 24));
          Mpyramid := mkpyramid (map (fun k => Int.int64 (field_total N (k + 1))) (seq 0 24)) |}) /\
  Bin.pop2010 ParseFloat (Some (concat (map blk_record blocks))) vars =
    ([EvOpen; EvScan],
     HS200j
       {| Distance := d; Lat := lat; Lon := lon;
          Blocks := Z.of_nat (length N);
          Pop2010 := Int.int32 (field_total N 0);
          Fpop2010 := Int.int32 (field_total N 25);
          Mpop2010 := Int.int32 (field_total N 1);
          Fpyramid := mkpyramid (map (fun k => Int.int16 (field_total N (k + 25))) (seq 0 24));
          Mpyramid := mkpyramid (map (fun k => Int.int16 (field_total N (k + 1))) (seq 0 24)) |}).
Proof.
  intros (Hd & Hdr & Hlat & Hlatr & Hlon & Hlonr) Hq Hsame Hcons Hchord Hnan N.
  assert (HM : matched blocks lat lon d = N).
  { apply matched_within_distance; try assumption. apply in_distance_spec, Hdr. }
  split; [| split].
  - rewrite geosearch_filter, filter_map_comm, map_map. fold (matched blocks lat lon d).
    rewrite HM. reflexivity.
  - rewrite (store_reply ParseFloat blocks db vars d lat lon); try assumption.
    + rewrite HM. reflexivity.
    + eapply Forall_impl; [exact Hsame |]. apply same_block_in_store.
  - rewrite (scan_reply ParseFloat blocks db vars d lat lon) by assumption.
    rewrite HM. reflexivity.
Qed.

End Counted.

Lemma flat_within_1 :
  @within_distance flat two_dataset F64.zero F64.zero 1 = [first_block].
Proof. vm_compute. reflexivity. Qed.

Lemma counted_iff_within_distance_witness :
  exists r,
    @Bin.pop2010 flat ParseFloat_int (Some (concat (map blk_record two_dataset)))
      (path_vars "1" "0" "0") = ([EvOpen; EvScan], HS200j r) /\
    Blocks r = 1 /\ Pop2010 r = 20000 /\
    @Store.geosearch flat (map blk_loc two_dataset) (@Geo flat F64.zero F64.zero)
      (F64.of_int 1) = ["000000000"%string].
Proof.
  destruct (@counted_iff_within_distance flat ParseFloat_int two_dataset two_store
              (path_vars "1" "0" "0") 1 F64.zero F64.zero)
    as (Hids & _ & Hscan).
  - apply flat_valid; reflexivity.
  - vm_compute. intuition discriminate.
  - exact two_dataset_same.
  - apply List.Forall_cons; [| apply List.Forall_cons; [| apply List.Forall_nil]];
      vm_compute; intuition discriminate.
  - apply List.Forall_cons; [| apply List.Forall_cons; [| apply List.Forall_nil]];
      vm_compute; intros; congruence.
  - exact flat_numbers.
  - rewrite flat_within_1 in Hids, Hscan.
    eexists. split; [exact Hscan |]. cbn [Blocks Pop2010].
    split; [reflexivity |]. split; [vm_compute; reflexivity | exact Hids].
Defined.

(** ** Shards of the binary scan *)

Lemma length_totals_mpyr records :
  length (Bin.mpyr (Bin.totals records)) = 24%nat /\
  length (Bin.fpyr (Bin.totals records)) = 24%nat.
Proof. unfold Bin.totals. cbn [Bin.mpyr Bin.fpyr]. rewrite !length_map, !length_seq. auto. Qed.

(** the bucket reported after the statements of the loop have run over
    [records]: the sum of its slot, in 16 bits *)
Lemma reported_bucket_reduce female k records :
  (k < 23)%nat ->
  reported_bucket female k (Bin.reduce records) =
  Int.int16 (Bin.slot_total records (if female then Bin.colfpop else Bin.colmpop) (k + 1)).
Proof.
  intros Hk. unfold reported_bucket. rewrite reduce_totals.
  destruct (length_totals_mpyr records) as [Hm Hf].
  destruct female; rewrite mkpyramid_buckets by assumption;
    unfold Bin.totals; cbn [Bin.mpyr Bin.fpyr];
    rewrite nth_skipn, Nat.add_comm;
    rewrite nth_map_seq by lia; reflexivity.
Qed.

(** C5 on the binary scan.  The statements of the loop run over two shards
    apart and over both together: the counts add up, and a bucket of the
    single pass is the sum of the two buckets reduced to 16 bits; when that
    sum leaves the 16 bits, the bucket of the single pass is not the sum of
    the buckets of the shards. *)
Theorem shard_buckets_do_not_add_up (shard1 shard2 : list (list byte))
    (female : bool) (k : nat) :
  (k < 23)%nat ->
  let a := reported_bucket female k (Bin.reduce shard1) in
  let b := reported_bucket female k (Bin.reduce shard2) in
  ~ - 2 ^ 15 <= a + b < 2 ^ 15 ->
  Bin.filter2 (Bin.reduce (shard1 ++ shard2)) =
    Bin.filter2 (Bin.reduce shard1) + Bin.filter2 (Bin.reduce shard2) /\
  reported_bucket female k (Bin.reduce (shard1 ++ shard2)) = Int.int16 (a + b) /\
  reported_bucket female k (Bin.reduce (shard1 ++ shard2)) <> a + b.
Proof.
  intros Hk a b Hout.
  assert (Hsum : reported_bucket female k (Bin.reduce (shard1 ++ shard2)) =
                 Int.int16 (a + b)).
  { subst a b. rewrite !reported_bucket_reduce by exact Hk.
    rewrite slot_total_app. unfold Int.int16.
    rewrite wrap_add_l, wrap_add_r. reflexivity. }
  split; [| split; [exact Hsum |]].
  - rewrite !reduce_totals. unfold Bin.totals. cbn [Bin.filter2].
    rewrite length_app. lia.
  - rewrite Hsum. intros Heq. apply Hout.
    pose proof (wrap_range 16 (a + b) ltac:(lia)) as Hr.
    unfold Int.int16 in Heq. rewrite Heq in Hr. exact Hr.
Qed.

Lemma shard_buckets_do_not_add_up_witness :
  reported_bucket false 0 (Bin.reduce [block1]) = 20000 /\
  reported_bucket false 0 (Bin.reduce [block2]) = 20000 /\
  reported_bucket false 0 (Bin.reduce ([block1] ++ [block2])) = -25536.
Proof.
  destruct (shard_buckets_do_not_add_up [block1] [block2] false 0)
    as (_ & Hsum & _).
  - lia.
  - vm_compute. intros [_ H]. discriminate H.
  - split; [vm_compute; reflexivity |]. split; [vm_compute; reflexivity |].
    rewrite Hsum. vm_compute. reflexivity.
Defined.
